(** * TagonJS: a shallow embedding of the lexer, parser, query executor,
      constraint validator and storage manager.

    Modelling conventions, fixed once for the whole development.

    - JavaScript values are the primitives the engine stores: [undefined],
      [null], booleans, numbers and strings.  Numbers are modelled by the
      integers they denote; a run that would need a fractional or non-finite
      number, or the conversion of a string to a number, stops with
      [OutsideModel] instead of guessing a value.
    - Strings are sequences of 8-bit code units.
    - A JavaScript object used as a map is an association list that keeps
      the language's own-property order: array-index keys first, in
      ascending order, then the other keys in insertion order.
    - A [throw] of the source is [Err (Thrown msg)]; bounded recursion that
      runs out of its budget is [Err OutOfFuel].
    - The storage manager serialises databases to XML files through an
      external library; the model keeps the parsed form and takes the
      write/read pair to be the identity on it.  File existence is key
      presence in the store.
    - Column, table and alias names are never [constructor] or [__proto__],
      the two lower-case names every object inherits. *)

From Stdlib Require Import String Ascii List ZArith Bool Arith Lia DecimalString.
From Stdlib Require Import Permutation Sorted.
Import ListNotations.
Open Scope string_scope.
Open Scope list_scope.

(* ------------------------------------------------------------------ *)
(** ** Results of computations that may throw *)

Inductive error : Type :=
| Thrown (msg : string)
| OutsideModel (why : string)
| OutOfFuel.

Inductive result (A : Type) : Type :=
| Ok (a : A)
| Err (e : error).
Arguments Ok {A} a.
Arguments Err {A} e.

Definition bind {A B} (r : result A) (k : A -> result B) : result B :=
  match r with
  | Ok a => k a
  | Err e => Err e
  end.

Notation "x <- r ;; k" := (bind r (fun x => k))
  (at level 61, r at next level, right associativity).
Notation "' p <- r ;; k" := (bind r (fun x => let p := x in k))
  (at level 61, p pattern, r at next level, right associativity).

Definition throw {A} (msg : string) : result A := Err (Thrown msg).

Fixpoint mapM {A B} (f : A -> result B) (l : list A) : result (list B) :=
  match l with
  | [] => Ok []
  | a :: l' => b <- f a ;; bs <- mapM f l' ;; Ok (b :: bs)
  end.

(* ------------------------------------------------------------------ *)
(** ** The JavaScript fragment the engine relies on *)

Module JS.

Inductive jsval : Type :=
| VUndef
| VNull
| VBool (b : bool)
| VNum (n : Z)
| VStr (s : string).

Inductive jstype : Type := TUndefined | TObject | TBoolean | TNumber | TString.

(** [typeof v] *)
Definition typeOf (v : jsval) : jstype :=
  match v with
  | VUndef => TUndefined
  | VNull => TObject
  | VBool _ => TBoolean
  | VNum _ => TNumber
  | VStr _ => TString
  end.

Definition isString (v : jsval) : bool :=
  match v with VStr _ => true | _ => false end.

Definition isNumber (v : jsval) : bool :=
  match v with VNum _ => true | _ => false end.

(** [!!v] *)
Definition truthy (v : jsval) : bool :=
  match v with
  | VUndef | VNull => false
  | VBool b => b
  | VNum n => negb (n =? 0)%Z
  | VStr s => negb (s =? "")
  end.

(** [v === null || v === undefined] *)
Definition nullish (v : jsval) : bool :=
  match v with VUndef | VNull => true | _ => false end.

Definition natToString (n : nat) : string :=
  NilZero.string_of_uint (Nat.to_uint n).

Definition numToString (n : Z) : string :=
  NilZero.string_of_int (Z.to_int n).

(** [String(v)], also the conversion a template literal applies. *)
Definition toStr (v : jsval) : string :=
  match v with
  | VUndef => "undefined"
  | VNull => "null"
  | VBool true => "true"
  | VBool false => "false"
  | VNum n => numToString n
  | VStr s => s
  end.

(** [a === b] *)
Definition strictEq (a b : jsval) : bool :=
  match a, b with
  | VUndef, VUndef => true
  | VNull, VNull => true
  | VBool x, VBool y => Bool.eqb x y
  | VNum x, VNum y => (x =? y)%Z
  | VStr x, VStr y => (x =? y)
  | _, _ => false
  end.

Definition boolNum (b : bool) : Z := if b then 1%Z else 0%Z.

(** [a == b]: a string meeting a number or a boolean would be converted
    to a number, which the model does not do. *)
Definition looseEq (a b : jsval) : result bool :=
  match a, b with
  | (VUndef | VNull), (VUndef | VNull) => Ok true
  | (VUndef | VNull), _ | _, (VUndef | VNull) => Ok false
  | VBool x, VBool y => Ok (Bool.eqb x y)
  | VNum x, VNum y => Ok (x =? y)%Z
  | VStr x, VStr y => Ok (x =? y)
  | VBool x, VNum y => Ok (boolNum x =? y)%Z
  | VNum x, VBool y => Ok (x =? boolNum y)%Z
  | VStr _, _ | _, VStr _ => Err (OutsideModel "string to number")
  end.

(** The numeric reading of an operand of [<]; the reading of a string is
    left open. *)
Inductive numeric : Type := NaN | Fin (n : Z) | FromString.

Definition toNumber (v : jsval) : numeric :=
  match v with
  | VUndef => NaN
  | VNull => Fin 0
  | VBool b => Fin (boolNum b)
  | VNum n => Fin n
  | VStr _ => FromString
  end.

(** The abstract relational comparison: [None] when an operand is NaN. *)
Definition relCompare (a b : jsval) : result (option comparison) :=
  match a, b with
  | VStr x, VStr y => Ok (Some (String.compare x y))
  | _, _ =>
      match toNumber a, toNumber b with
      | NaN, _ | _, NaN => Ok None
      | Fin x, Fin y => Ok (Some (x ?= y)%Z)
      | _, _ => Err (OutsideModel "string to number")
      end
  end.

Definition lessThan (a b : jsval) : result bool :=
  c <- relCompare a b ;;
  Ok match c with Some Lt => true | _ => false end.

Definition greaterThan (a b : jsval) : result bool :=
  c <- relCompare a b ;;
  Ok match c with Some Gt => true | _ => false end.

Definition lessEqual (a b : jsval) : result bool :=
  c <- relCompare a b ;;
  Ok match c with Some Lt | Some Eq => true | _ => false end.

Definition greaterEqual (a b : jsval) : result bool :=
  c <- relCompare a b ;;
  Ok match c with Some Gt | Some Eq => true | _ => false end.

(** [s.startsWith(p)] *)
Fixpoint startsWith (s p : string) : bool :=
  match p, s with
  | EmptyString, _ => true
  | String c p', String d s' => Ascii.eqb c d && startsWith s' p'
  | String _ _, EmptyString => false
  end.

(** [s.substring(n)] *)
Fixpoint substringFrom (n : nat) (s : string) : string :=
  match n, s with
  | O, _ => s
  | S n', String _ s' => substringFrom n' s'
  | S _, EmptyString => EmptyString
  end.

(** *** Objects as ordered maps *)

Definition obj (A : Type) : Type := list (string * A).

Fixpoint lookup {A} (o : obj A) (k : string) : option A :=
  match o with
  | [] => None
  | (k', v) :: o' => if k =? k' then Some v else lookup o' k
  end.

Definition has {A} (o : obj A) (k : string) : bool :=
  match lookup o k with Some _ => true | None => false end.

(** [o[k]] on an object whose properties are primitives. *)
Definition getv (o : obj jsval) (k : string) : jsval :=
  match lookup o k with Some v => v | None => VUndef end.

Definition keys {A} (o : obj A) : list string := map fst o.
Definition values {A} (o : obj A) : list A := map snd o.

Definition isDigit (c : ascii) : bool :=
  let n := nat_of_ascii c in ((48 <=? n) && (n <=? 57))%nat.

Fixpoint allDigits (s : string) : bool :=
  match s with
  | EmptyString => true
  | String c s' => isDigit c && allDigits s'
  end.

Fixpoint digitsValue (acc : N) (s : string) : N :=
  match s with
  | EmptyString => acc
  | String c s' => digitsValue (acc * 10 + (N_of_ascii c - 48))%N s'
  end.

(** A key is an array index when it is the canonical decimal form of an
    integer below 2^32 - 1. *)
Definition arrayIndex (k : string) : option N :=
  match k with
  | EmptyString => None
  | String c rest =>
      if allDigits k && (negb (Ascii.eqb c "0") || (rest =? "")) && (String.length k <=? 10)%nat
      then let n := digitsValue 0 k in
           if (n <? 4294967295)%N then Some n else None
      else None
  end.

Fixpoint replace {A} (o : obj A) (k : string) (v : A) : obj A :=
  match o with
  | [] => []
  | (k', v') :: o' => if k =? k' then (k', v) :: o' else (k', v') :: replace o' k v
  end.

Fixpoint insertIndex {A} (n : N) (k : string) (v : A) (o : obj A) : obj A :=
  match o with
  | [] => [(k, v)]
  | (k', v') :: o' =>
      match arrayIndex k' with
      | Some m => if (m <? n)%N then (k', v') :: insertIndex n k v o' else (k, v) :: o
      | None => (k, v) :: o
      end
  end.

(** [o[k] = v] *)
Definition set {A} (o : obj A) (k : string) (v : A) : obj A :=
  if has o k then replace o k v
  else match arrayIndex k with
       | Some n => insertIndex n k v o
       | None => o ++ [(k, v)]
       end.

(** [Object.assign(target, source)], and [{...target, ...source}] on a
    fresh copy of [target]. *)
Definition assign {A} (target source : obj A) : obj A :=
  fold_left (fun acc kv => set acc (fst kv) (snd kv)) source target.

(** Property names of an object are pairwise distinct. *)
Definition wellFormed {A} (o : obj A) : Prop := NoDup (keys o).

End JS.
Import JS.

(* ------------------------------------------------------------------ *)
(** ** Lexer (src/parser/lexer.js) *)

Inductive TokenType : Type :=
| SELECT | FROM | WHERE | JOIN | INNER | LEFT | RIGHT | ON | AND | OR
| ORDER | BY | GROUP | HAVING | INSERT | INTO | VALUES | UPDATE | SET
| DELETE | CREATE | TABLE | DATABASE | USE
| PRIMARY | KEY | FOREIGN | REFERENCES | UNIQUE | AUTO | INCREMENT | NOT
| NULL | DEFAULT
| EQUALS | NOT_EQUALS | LESS_THAN | GREATER_THAN | LESS_EQUAL | GREATER_EQUAL
| LIKE
| COMMA | DOT | COLON | SEMICOLON | OPEN_PAREN | CLOSE_PAREN | ASTERISK
| IDENTIFIER | NUMBER | STRING
| EOF | WHITESPACE.

Scheme Equality for TokenType.

(** The string each member of the [TokenType] table holds. *)
Definition TokenType_name (t : TokenType) : string :=
  match t with
  | SELECT => "SELECT" | FROM => "FROM" | WHERE => "WHERE" | JOIN => "JOIN"
  | INNER => "INNER" | LEFT => "LEFT" | RIGHT => "RIGHT" | ON => "ON"
  | AND => "AND" | OR => "OR" | ORDER => "ORDER" | BY => "BY"
  | GROUP => "GROUP" | HAVING => "HAVING" | INSERT => "INSERT"
  | INTO => "INTO" | VALUES => "VALUES" | UPDATE => "UPDATE" | SET => "SET"
  | DELETE => "DELETE" | CREATE => "CREATE" | TABLE => "TABLE"
  | DATABASE => "DATABASE" | USE => "USE"
  | PRIMARY => "PRIMARY" | KEY => "KEY" | FOREIGN => "FOREIGN"
  | REFERENCES => "REFERENCES" | UNIQUE => "UNIQUE" | AUTO => "AUTO"
  | INCREMENT => "INCREMENT" | NOT => "NOT" | NULL => "NULL"
  | DEFAULT => "DEFAULT"
  | EQUALS => "=" | NOT_EQUALS => "!=" | LESS_THAN => "<"
  | GREATER_THAN => ">" | LESS_EQUAL => "<=" | GREATER_EQUAL => ">="
  | LIKE => "LIKE"
  | COMMA => "," | DOT => "." | COLON => ":" | SEMICOLON => ";"
  | OPEN_PAREN => "(" | CLOSE_PAREN => ")" | ASTERISK => "*"
  | IDENTIFIER => "IDENTIFIER" | NUMBER => "NUMBER" | STRING => "STRING"
  | EOF => "EOF" | WHITESPACE => "WHITESPACE"
  end.

Record Token : Type := mkToken {
  type : TokenType;
  value : jsval;
  position : nat
}.

Module Lexer.

(** The lexer object.  [rest] is [input] from [position] on, so that
    [currentChar] is its head and [input[position + 1]] its second
    element. *)
Record t : Type := mk {
  rest : list ascii;
  position : nat;
  tokenHistory : list Token
}.

(** [String.prototype.toLowerCase] on one 8-bit code unit. *)
Definition toLowerChar (c : ascii) : ascii :=
  let n := nat_of_ascii c in
  if ((65 <=? n) && (n <=? 90))%nat then ascii_of_nat (n + 32)
  else if ((192 <=? n) && (n <=? 222) && negb (n =? 215))%nat then ascii_of_nat (n + 32)
  else c.

Definition new (input : string) : t :=
  mk (map toLowerChar (list_ascii_of_string input)) 0 [].

Definition currentChar (l : t) : option ascii := hd_error (rest l).

(** [/\s/] *)
Definition isSpace (c : ascii) : bool :=
  let n := nat_of_ascii c in
  (((9 <=? n) && (n <=? 13)) || (n =? 32) || (n =? 160))%nat.

(** [/[a-zA-Z_]/] *)
Definition isIdentStart (c : ascii) : bool :=
  let n := nat_of_ascii c in
  (((65 <=? n) && (n <=? 90)) || ((97 <=? n) && (n <=? 122)) || (n =? 95))%nat.

(** [/\w/] *)
Definition isWord (c : ascii) : bool := isIdentStart c || isDigit c.

(** [slice(-count)] *)
Definition lastN {A} (count : nat) (l : list A) : list A :=
  skipn (length l - count) l.

Definition getRecentTokens (count : nat) (l : t) : list Token :=
  lastN count (tokenHistory l).

Definition isType (k : TokenType) (tok : Token) : bool :=
  TokenType_beq (type tok) k.

(** Decides whether the word [em] is ON (of a JOIN) or INTO (of an INSERT). *)
Definition detectContextualEm (l : t) : TokenType :=
  let previousTokens := getRecentTokens 3 l in
  if existsb (isType INSERT) previousTokens then INTO
  else if existsb (isType JOIN) previousTokens then ON
  else INTO.

Definition addToHistory (token : Token) (l : t) : t :=
  let h := tokenHistory l ++ [token] in
  mk (rest l) (position l) (if (10 <? length h)%nat then tl h else h).

Definition advance (l : t) : t :=
  mk (tl (rest l)) (S (position l)) (tokenHistory l).

Definition error {A} (l : t) (message : string) : result A :=
  throw ("Erro léxico na posição " ++ natToString (position l) ++ ": " ++ message).

(** An entry of the keyword table: a fixed kind or a resolver. *)
Inductive keyword : Type :=
| Fixed (k : TokenType)
| Contextual (resolve : t -> TokenType).

Definition keywordTable : list (string * keyword) :=
  [ ("selecionar", Fixed SELECT); ("de", Fixed FROM); ("onde", Fixed WHERE);
    ("juntar", Fixed JOIN); ("interno", Fixed INNER); ("esquerda", Fixed LEFT);
    ("direita", Fixed RIGHT); ("em", Contextual detectContextualEm);
    ("e", Fixed AND); ("ou", Fixed OR); ("ordenar", Fixed ORDER);
    ("por", Fixed BY); ("agrupar", Fixed GROUP); ("tendo", Fixed HAVING);
    ("inserir", Fixed INSERT); ("valores", Fixed VALUES);
    ("atualizar", Fixed UPDATE); ("definir", Fixed SET);
    ("remover", Fixed DELETE); ("criar", Fixed CREATE); ("tabela", Fixed TABLE);
    ("banco", Fixed DATABASE); ("usar", Fixed USE); ("como", Fixed LIKE);
    ("primaria", Fixed PRIMARY); ("chave", Fixed KEY);
    ("estrangeira", Fixed FOREIGN); ("referencia", Fixed REFERENCES);
    ("unico", Fixed UNIQUE); ("auto", Fixed AUTO);
    ("incremento", Fixed INCREMENT); ("nao", Fixed NOT); ("nulo", Fixed NULL);
    ("padrao", Fixed DEFAULT);
    ("primary", Fixed PRIMARY); ("key", Fixed KEY); ("foreign", Fixed FOREIGN);
    ("references", Fixed REFERENCES); ("unique", Fixed UNIQUE);
    ("increment", Fixed INCREMENT); ("not", Fixed NOT); ("null", Fixed NULL);
    ("default", Fixed DEFAULT) ].

Definition keywords (identifier : string) : option keyword :=
  lookup keywordTable identifier.

(** The loop of [skipWhitespace], [readNumber] and [readIdentifier]:
    collect the longest prefix of [cs] satisfying [p]. *)
Fixpoint spanChars (p : ascii -> bool) (cs : list ascii) : list ascii * list ascii :=
  match cs with
  | [] => ([], [])
  | c :: cs' =>
      if p c then let '(a, b) := spanChars p cs' in (c :: a, b)
      else ([], cs)
  end.

Definition consumeWhile (p : ascii -> bool) (l : t) : string * t :=
  let '(taken, remaining) := spanChars p (rest l) in
  (string_of_list_ascii taken, mk remaining (position l + length taken) (tokenHistory l)).

Definition skipWhitespace (l : t) : t := snd (consumeWhile isSpace l).

(** [parseFloat] of digits with an optional fraction.  Only an integral
    literal that a double holds exactly has a value in the model. *)
Definition parseFloat (intPart : string) (fraction : option string) : result Z :=
  let n := Z.of_N (digitsValue 0 intPart) in
  let integral :=
    match fraction with
    | None => true
    | Some f => (digitsValue 0 f =? 0)%N
    end in
  if integral && (n <=? 9007199254740992)%Z then Ok n
  else Err (OutsideModel "number literal").

Definition readNumber (l : t) : result (Z * t) :=
  let '(intPart, l1) := consumeWhile isDigit l in
  match currentChar l1 with
  | Some "."%char =>
      let '(frac, l2) := consumeWhile isDigit (advance l1) in
      n <- parseFloat intPart (Some frac) ;; Ok (n, l2)
  | _ => n <- parseFloat intPart None ;; Ok (n, l1)
  end.

(** The escape table of [readString]. *)
Definition unescape (c : ascii) : ascii :=
  match c with
  | "n"%char => "010"%char
  | "t"%char => "009"%char
  | "r"%char => "013"%char
  | _ => c
  end.

(** The loop of [readString] after the opening quote; returns the text,
    the characters left (starting at the closing quote, if any) and the
    number of characters consumed. *)
Fixpoint readStringLoop (quote : ascii) (cs : list ascii) (acc : list ascii) (used : nat)
  : list ascii * list ascii * nat :=
  match cs with
  | [] => (acc, [], used)
  | c :: cs' =>
      if Ascii.eqb c quote then (acc, cs, used)
      else if Ascii.eqb c "\"%char then
        match cs' with
        | [] => (acc, [], S used)
        | e :: cs'' => readStringLoop quote cs'' (acc ++ [unescape e]) (S (S used))
        end
      else readStringLoop quote cs' (acc ++ [c]) (S used)
  end.

Definition readString (l : t) : result (string * t) :=
  match currentChar l with
  | None => Err (OutsideModel "readString at end of input")
  | Some quote =>
      let l1 := advance l in
      let '(text, remaining, used) := readStringLoop quote (rest l1) [] 0 in
      let l2 := mk remaining (position l1 + used) (tokenHistory l1) in
      match currentChar l2 with
      | None => error l2 "String não fechada"
      | Some _ => Ok (string_of_list_ascii text, advance l2)
      end
  end.

Definition readIdentifier (l : t) : string * t :=
  consumeWhile (fun c => isWord c || Ascii.eqb c "_") l.

Definition doubleQuote : ascii := ascii_of_nat 34.

Definition singleCharTokens (c : ascii) : option TokenType :=
  match c with
  | "="%char => Some EQUALS
  | "<"%char => Some LESS_THAN
  | ">"%char => Some GREATER_THAN
  | ","%char => Some COMMA
  | "."%char => Some DOT
  | ":"%char => Some COLON
  | ";"%char => Some SEMICOLON
  | "("%char => Some OPEN_PAREN
  | ")"%char => Some CLOSE_PAREN
  | "*"%char => Some ASTERISK
  | _ => None
  end.

Definition emit (token : Token) (l : t) : result (Token * t) :=
  Ok (token, addToHistory token l).

Definition twoChar (l : t) (k : TokenType) (text : string) : result (Token * t) :=
  let l2 := advance (advance l) in
  emit (mkToken k (VStr text) (position l2 - 2)) l2.

Definition getNextToken (l0 : t) : result (Token * t) :=
  let l := skipWhitespace l0 in
  match rest l with
  | [] => Ok (mkToken EOF VNull (position l), l)
  | c :: after =>
      if isDigit c then
        '(n, l1) <- readNumber l ;;
        emit (mkToken NUMBER (VNum n) (position l1)) l1
      else if Ascii.eqb c "'" || Ascii.eqb c doubleQuote then
        '(s, l1) <- readString l ;;
        emit (mkToken STRING (VStr s) (position l1)) l1
      else if isIdentStart c then
        let '(identifier, l1) := readIdentifier l in
        if (identifier =? "constructor") || (identifier =? "__proto__")
        then Err (OutsideModel "inherited property of the keyword table")
        else
          let tokenType :=
            match keywords identifier with
            | Some (Contextual resolve) => resolve l1
            | Some (Fixed k) => k
            | None => IDENTIFIER
            end in
          emit (mkToken tokenType (VStr identifier) (position l1)) l1
      else if Ascii.eqb c "!" && match after with d :: _ => Ascii.eqb d "=" | [] => false end
      then twoChar l NOT_EQUALS "!="
      else if Ascii.eqb c "<" && match after with d :: _ => Ascii.eqb d "=" | [] => false end
      then twoChar l LESS_EQUAL "<="
      else if Ascii.eqb c ">" && match after with d :: _ => Ascii.eqb d "=" | [] => false end
      then twoChar l GREATER_EQUAL ">="
      else
        match singleCharTokens c with
        | Some tokenType =>
            let l1 := advance l in
            emit (mkToken tokenType (VStr (String c EmptyString)) (position l1 - 1)) l1
        | None => error l ("Caractere inesperado: " ++ String c EmptyString)
        end
  end.

Fixpoint tokenizeLoop (fuel : nat) (l : t) (tokens : list Token) : result (list Token) :=
  match fuel with
  | O => Err OutOfFuel
  | S fuel' =>
      '(token, l1) <- getNextToken l ;;
      if TokenType_beq (type token) EOF then Ok (tokens ++ [token])
      else tokenizeLoop fuel' l1 (tokens ++ [token])
  end.

(** Every token but the last consumes at least one character, so the
    length of the input plus one bounds the number of calls. *)
Definition tokenize (l : t) : result (list Token) :=
  tokenizeLoop (S (length (rest l))) l [].

End Lexer.

(* ------------------------------------------------------------------ *)
(** ** Syntax tree (src/parser/ast/nodes.js) *)

Inductive Expr : Type :=
| LiteralExpression (value : jsval) (type : string)
| IdentifierExpression (name : string) (tableName : option string)
| BinaryExpression (left : Expr) (operator : string) (right : Expr)
| AllColumnsExpression (tableName : option string).

Module ColumnExpression.
Record t : Type := mk { expression : Expr; alias : option string }.
End ColumnExpression.

Module SelectList.
Record t : Type := mk { columns : list ColumnExpression.t }.
End SelectList.

Module FromClause.
Record t : Type := mk { tableName : string; alias : option string }.
End FromClause.

Module JoinClause.
Record t : Type := mk {
  joinType : TokenType;
  tableName : string;
  onCondition : Expr;
  alias : option string
}.
End JoinClause.

Module WhereClause.
Record t : Type := mk { condition : Expr }.
End WhereClause.

Module OrderByExpression.
Record t : Type := mk { expression : Expr; direction : string }.
End OrderByExpression.

Module OrderByClause.
Record t : Type := mk { expressions : list OrderByExpression.t }.
End OrderByClause.

Module GroupByClause.
Record t : Type := mk { expressions : list Expr }.
End GroupByClause.

(** [options] of a column constraint is [{}] or [{ value }]. *)
Module ConstraintDefinition.
Record t : Type := mk { type : string; options : option Expr }.
End ConstraintDefinition.

(** [options] of a table constraint is [{}] or
    [{ referencedTable, referencedColumn }]. *)
Module TableConstraint.
Record t : Type := mk {
  type : string;
  columnName : string;
  options : option (string * string)
}.
End TableConstraint.

Module ColumnDefinition.
Record t : Type := mk {
  name : string;
  type : string;
  constraints : list ConstraintDefinition.t;
  defaultValue : option Expr;
  autoIncrement : bool
}.
End ColumnDefinition.

Module Assignment.
Record t : Type := mk { column : string; value : Expr }.
End Assignment.

Inductive Statement : Type :=
| SelectStatement (selectList : SelectList.t) (fromClause : FromClause.t)
    (whereClause : option WhereClause.t) (joinClauses : list JoinClause.t)
    (orderByClause : option OrderByClause.t) (groupByClause : option GroupByClause.t)
| InsertStatement (tableName : string) (columns : option (list string)) (values : list Expr)
| UpdateStatement (tableName : string) (assignments : list Assignment.t)
    (whereClause : option WhereClause.t)
| DeleteStatement (tableName : string) (whereClause : option WhereClause.t)
| CreateTableStatement (tableName : string) (columns : list ColumnDefinition.t)
    (tableConstraints : list TableConstraint.t)
| CreateDatabase (databaseName : string).

(** What [Parser.parse] returns: the statement when there is exactly one,
    the array of statements otherwise. *)
Inductive Program : Type :=
| One (statement : Statement)
| Many (statements : list Statement).

(* ------------------------------------------------------------------ *)
(** ** Parser (src/parser/parser.js) *)

Module Parser.

Section WithTokens.

Variable tokens : list Token.

(** A parsing method maps the index [currentToken] to its result and the
    index it leaves behind. *)
Definition parsing (A : Type) : Type := nat -> result (A * nat).

Definition getCurrentToken (currentToken : nat) : Token :=
  nth currentToken tokens (last tokens (mkToken EOF VNull 0)).

(** Text of a token read as a name or an operator. *)
Definition text (token : Token) : string := toStr (value token).

Definition error {A} (currentToken : nat) (message : string) : result A :=
  throw ("Erro de sintaxe na posição "
         ++ natToString (position (getCurrentToken currentToken)) ++ ": " ++ message).

Definition consume (expectedType : option TokenType) : parsing Token :=
  fun currentToken =>
    let token := getCurrentToken currentToken in
    match expectedType with
    | Some expected =>
        if TokenType_beq (type token) expected then Ok (token, S currentToken)
        else error currentToken
               ("Esperado " ++ TokenType_name expected ++ ", encontrado "
                ++ TokenType_name (type token))
    | None => Ok (token, S currentToken)
    end.

Definition matches (types : list TokenType) (currentToken : nat) : bool :=
  existsb (TokenType_beq (type (getCurrentToken currentToken))) types.

Definition parseIdentifierExpression : parsing Expr :=
  fun cur =>
    '(tok, c1) <- consume (Some IDENTIFIER) cur ;;
    let name := text tok in
    if matches [DOT] c1 then
      '(_, c2) <- consume None c1 ;;
      '(col, c3) <- consume (Some IDENTIFIER) c2 ;;
      Ok (IdentifierExpression (text col) (Some name), c3)
    else Ok (IdentifierExpression name None, c1).

(** The expression methods call each other through [parseExpression];
    [expr] stands for that call. *)
Section Expressions.

Variable expr : parsing Expr.

Definition parsePrimaryExpression : parsing Expr :=
  fun cur =>
    let token := getCurrentToken cur in
    match type token with
    | NUMBER => '(_, c1) <- consume None cur ;; Ok (LiteralExpression (value token) "NUMBER", c1)
    | STRING => '(_, c1) <- consume None cur ;; Ok (LiteralExpression (value token) "STRING", c1)
    | IDENTIFIER => parseIdentifierExpression cur
    | OPEN_PAREN =>
        '(_, c1) <- consume None cur ;;
        '(expression, c2) <- expr c1 ;;
        '(_, c3) <- consume (Some CLOSE_PAREN) c2 ;;
        Ok (expression, c3)
    | _ => error cur ("Expressão inesperada: " ++ text token)
    end.

Definition parseComparisonExpression : parsing Expr :=
  fun cur =>
    '(lhs, c1) <- parsePrimaryExpression cur ;;
    if matches [EQUALS; NOT_EQUALS; LESS_THAN; GREATER_THAN; LESS_EQUAL;
                GREATER_EQUAL; LIKE] c1
    then
      '(op, c2) <- consume None c1 ;;
      '(rhs, c3) <- parsePrimaryExpression c2 ;;
      Ok (BinaryExpression lhs (text op) rhs, c3)
    else Ok (lhs, c1).

(** [while (this.match(kind)) { ... }] of the AND and OR levels. *)
Fixpoint binaryLoop (kind : TokenType) (operand : parsing Expr) (n : nat) (left : Expr)
  : parsing Expr :=
  fun cur =>
    if matches [kind] cur then
      match n with
      | O => Err OutOfFuel
      | S n' =>
          '(op, c1) <- consume None cur ;;
          '(rhs, c2) <- operand c1 ;;
          binaryLoop kind operand n' (BinaryExpression left (text op) rhs) c2
      end
    else Ok (left, cur).

Definition parseAndExpression : parsing Expr :=
  fun cur =>
    '(lhs, c1) <- parseComparisonExpression cur ;;
    binaryLoop AND parseComparisonExpression (length tokens) lhs c1.

Definition parseOrExpression : parsing Expr :=
  fun cur =>
    '(lhs, c1) <- parseAndExpression cur ;;
    binaryLoop OR parseAndExpression (length tokens) lhs c1.

End Expressions.

(** [parseExpression], with the nesting of parentheses bounded by [depth]. *)
Fixpoint parseExpressionAt (depth : nat) : parsing Expr :=
  match depth with
  | O => fun _ => Err OutOfFuel
  | S depth' => parseOrExpression (parseExpressionAt depth')
  end.

(** An expression nests no deeper than it has tokens. *)
Definition parseExpression : parsing Expr := parseExpressionAt (S (length tokens)).

(** [do { item } while (this.match(COMMA) ? (this.consume(), true) : false)] *)
Fixpoint commaList {A} (item : parsing A) (n : nat) (acc : list A) : parsing (list A) :=
  fun cur =>
    match n with
    | O => Err OutOfFuel
    | S n' =>
        '(a, c1) <- item cur ;;
        if matches [COMMA] c1 then commaList item n' (acc ++ [a]) (S c1)
        else Ok (acc ++ [a], c1)
    end.

Definition typeAt (index : Z) : option TokenType :=
  if (index <? 0)%Z then None
  else option_map type (nth_error tokens (Z.to_nat index)).

Definition typeIs (k : TokenType) (o : option TokenType) : bool :=
  match o with Some k' => TokenType_beq k' k | None => false end.

Definition parseSelectColumn : parsing ColumnExpression.t :=
  fun cur =>
    if matches [ASTERISK] cur then
      '(_, c1) <- consume None cur ;;
      if (0 <? c1)%nat
         && typeIs IDENTIFIER (typeAt (Z.of_nat c1 - 2))
         && typeIs DOT (typeAt (Z.of_nat c1 - 2))
      then
        let tableName := text (nth (c1 - 3) tokens (mkToken EOF VNull 0)) in
        Ok (ColumnExpression.mk (AllColumnsExpression (Some tableName)) None, c1)
      else Ok (ColumnExpression.mk (AllColumnsExpression None) None, c1)
    else
      '(expression, c1) <- parseExpression cur ;;
      if matches [IDENTIFIER] c1 && negb (matches [FROM; WHERE; ORDER; GROUP] c1) then
        '(a, c2) <- consume (Some IDENTIFIER) c1 ;;
        Ok (ColumnExpression.mk expression (Some (text a)), c2)
      else Ok (ColumnExpression.mk expression None, c1).

Definition parseSelectList : parsing SelectList.t :=
  fun cur =>
    '(columns, c1) <- commaList parseSelectColumn (length tokens) [] cur ;;
    Ok (SelectList.mk columns, c1).

Definition parseFromClause : parsing FromClause.t :=
  fun cur =>
    '(t, c1) <- consume (Some IDENTIFIER) cur ;;
    if matches [IDENTIFIER] c1 && negb (matches [WHERE; JOIN; ORDER; GROUP] c1) then
      '(a, c2) <- consume (Some IDENTIFIER) c1 ;;
      Ok (FromClause.mk (text t) (Some (text a)), c2)
    else Ok (FromClause.mk (text t) None, c1).

Definition parseJoinClause : parsing JoinClause.t :=
  fun cur =>
    '(joinType, c1) <-
      (if matches [INNER; LEFT; RIGHT] cur
       then '(tok, c) <- consume None cur ;; Ok (type tok, c)
       else Ok (INNER, cur)) ;;
    '(_, c2) <- consume (Some JOIN) c1 ;;
    '(t, c3) <- consume (Some IDENTIFIER) c2 ;;
    '(alias, c4) <-
      (if matches [IDENTIFIER] c3 && negb (matches [ON] c3)
       then '(a, c) <- consume (Some IDENTIFIER) c3 ;; Ok (Some (text a), c)
       else Ok (None, c3)) ;;
    '(_, c5) <- consume (Some ON) c4 ;;
    '(onCondition, c6) <- parseExpression c5 ;;
    Ok (JoinClause.mk joinType (text t) onCondition alias, c6).

Fixpoint parseJoinClauses (n : nat) (acc : list JoinClause.t) : parsing (list JoinClause.t) :=
  fun cur =>
    if matches [JOIN; INNER; LEFT; RIGHT] cur then
      match n with
      | O => Err OutOfFuel
      | S n' =>
          '(j, c1) <- parseJoinClause cur ;;
          parseJoinClauses n' (acc ++ [j]) c1
      end
    else Ok (acc, cur).

Definition parseWhereClause : parsing WhereClause.t :=
  fun cur =>
    '(_, c1) <- consume (Some WHERE) cur ;;
    '(condition, c2) <- parseExpression c1 ;;
    Ok (WhereClause.mk condition, c2).

(** One turn of the loop of [parseOrderByClause]: an ordering term and
    its optional direction word. *)
Definition parseOrderByTerm : parsing OrderByExpression.t :=
  fun cur =>
    '(expression, c1) <- parseExpression cur ;;
    let token := getCurrentToken c1 in
    if matches [IDENTIFIER] c1 then
      if strictEq (value token) (VStr "asc") || strictEq (value token) (VStr "crescente")
      then '(_, c2) <- consume None c1 ;; Ok (OrderByExpression.mk expression "ASC", c2)
      else if strictEq (value token) (VStr "desc")
              || strictEq (value token) (VStr "decrescente")
      then '(_, c2) <- consume None c1 ;; Ok (OrderByExpression.mk expression "DESC", c2)
      else Ok (OrderByExpression.mk expression "ASC", c1)
    else Ok (OrderByExpression.mk expression "ASC", c1).

Definition parseOrderByClause : parsing OrderByClause.t :=
  fun cur =>
    '(_, c1) <- consume (Some ORDER) cur ;;
    '(_, c2) <- consume (Some BY) c1 ;;
    '(expressions, c3) <- commaList parseOrderByTerm (length tokens) [] c2 ;;
    Ok (OrderByClause.mk expressions, c3).

Definition parseGroupByClause : parsing GroupByClause.t :=
  fun cur =>
    '(_, c1) <- consume (Some GROUP) cur ;;
    '(_, c2) <- consume (Some BY) c1 ;;
    '(expressions, c3) <- commaList parseExpression (length tokens) [] c2 ;;
    Ok (GroupByClause.mk expressions, c3).

(** [if (this.match(kind)) clause = this.parseClause()] *)
Definition optionalClause {A} (kind : TokenType) (clause : parsing A) : parsing (option A) :=
  fun cur =>
    if matches [kind] cur then '(a, c1) <- clause cur ;; Ok (Some a, c1)
    else Ok (None, cur).

Definition parseSelectStatement : parsing Statement :=
  fun cur =>
    '(_, c1) <- consume (Some SELECT) cur ;;
    '(selectList, c2) <- parseSelectList c1 ;;
    '(_, c3) <- consume (Some FROM) c2 ;;
    '(fromClause, c4) <- parseFromClause c3 ;;
    '(joinClauses, c5) <- parseJoinClauses (length tokens) [] c4 ;;
    '(whereClause, c6) <- optionalClause WHERE parseWhereClause c5 ;;
    '(groupByClause, c7) <- optionalClause GROUP parseGroupByClause c6 ;;
    '(orderByClause, c8) <- optionalClause ORDER parseOrderByClause c7 ;;
    Ok (SelectStatement selectList fromClause whereClause joinClauses
          orderByClause groupByClause, c8).

Definition parseCreateDatabaseStatement : parsing Statement :=
  fun cur =>
    '(_, c1) <- consume (Some DATABASE) cur ;;
    '(databaseName, c2) <- consume (Some IDENTIFIER) c1 ;;
    Ok (CreateDatabase (text databaseName), c2).

Definition parseColumnType : parsing string :=
  fun cur =>
    '(tok, c1) <- consume (Some IDENTIFIER) cur ;;
    let type := text tok in
    if strictEq (value tok) (VStr "uuid") then Ok ("uuid", c1)
    else if matches [OPEN_PAREN] c1 then
      '(_, c2) <- consume None c1 ;;
      '(size, c3) <- consume (Some NUMBER) c2 ;;
      '(_, c4) <- consume (Some CLOSE_PAREN) c3 ;;
      Ok ((type ++ "(" ++ text size ++ ")")%string, c4)
    else Ok (type, c1).

(** The constraint loop of [parseColumnDefinition]; the state is the
    triple of its three local variables. *)
Fixpoint parseColumnConstraints (n : nat)
    (constraints : list ConstraintDefinition.t) (defaultValue : option Expr)
    (autoIncrement : bool)
  : parsing (list ConstraintDefinition.t * option Expr * bool) :=
  fun cur =>
    if matches [PRIMARY; UNIQUE; NOT; AUTO; DEFAULT] cur then
      match n with
      | O => Err OutOfFuel
      | S n' =>
          if matches [PRIMARY] cur then
            '(_, c1) <- consume None cur ;;
            '(_, c2) <- consume (Some KEY) c1 ;;
            parseColumnConstraints n'
              (constraints ++ [ConstraintDefinition.mk "PRIMARY_KEY" None])
              defaultValue autoIncrement c2
          else if matches [UNIQUE] cur then
            '(_, c1) <- consume None cur ;;
            parseColumnConstraints n'
              (constraints ++ [ConstraintDefinition.mk "UNIQUE" None])
              defaultValue autoIncrement c1
          else if matches [NOT] cur then
            '(_, c1) <- consume None cur ;;
            '(_, c2) <- consume (Some NULL) c1 ;;
            parseColumnConstraints n'
              (constraints ++ [ConstraintDefinition.mk "NOT_NULL" None])
              defaultValue autoIncrement c2
          else if matches [AUTO] cur then
            '(_, c1) <- consume None cur ;;
            '(_, c2) <- consume (Some INCREMENT) c1 ;;
            parseColumnConstraints n'
              (constraints ++ [ConstraintDefinition.mk "AUTO_INCREMENT" None])
              defaultValue true c2
          else
            '(_, c1) <- consume None cur ;;
            '(d, c2) <- parseExpression c1 ;;
            parseColumnConstraints n'
              (constraints ++ [ConstraintDefinition.mk "DEFAULT" (Some d)])
              (Some d) autoIncrement c2
      end
    else Ok (constraints, defaultValue, autoIncrement, cur).

Definition parseColumnDefinition : parsing ColumnDefinition.t :=
  fun cur =>
    '(columnName, c1) <- consume (Some IDENTIFIER) cur ;;
    '(_, c2) <- consume (Some COLON) c1 ;;
    '(columnType, c3) <- parseColumnType c2 ;;
    '(found, c4) <- parseColumnConstraints (length tokens) [] None false c3 ;;
    let '(constraints, defaultValue, autoIncrement) := found in
    Ok (ColumnDefinition.mk (text columnName) columnType constraints
          defaultValue autoIncrement, c4).

Definition parseTableConstraint : parsing TableConstraint.t :=
  fun cur =>
    if matches [PRIMARY] cur then
      '(_, c1) <- consume None cur ;;
      '(_, c2) <- consume (Some KEY) c1 ;;
      '(_, c3) <- consume (Some OPEN_PAREN) c2 ;;
      '(columnName, c4) <- consume (Some IDENTIFIER) c3 ;;
      '(_, c5) <- consume (Some CLOSE_PAREN) c4 ;;
      Ok (TableConstraint.mk "PRIMARY_KEY" (text columnName) None, c5)
    else if matches [FOREIGN] cur then
      '(_, c1) <- consume None cur ;;
      '(_, c2) <- consume (Some KEY) c1 ;;
      '(_, c3) <- consume (Some OPEN_PAREN) c2 ;;
      '(columnName, c4) <- consume (Some IDENTIFIER) c3 ;;
      '(_, c5) <- consume (Some CLOSE_PAREN) c4 ;;
      '(_, c6) <- consume (Some REFERENCES) c5 ;;
      '(referencedTable, c7) <- consume (Some IDENTIFIER) c6 ;;
      '(_, c8) <- consume (Some OPEN_PAREN) c7 ;;
      '(referencedColumn, c9) <- consume (Some IDENTIFIER) c8 ;;
      '(_, c10) <- consume (Some CLOSE_PAREN) c9 ;;
      Ok (TableConstraint.mk "FOREIGN_KEY" (text columnName)
            (Some (text referencedTable, text referencedColumn)), c10)
    else if matches [UNIQUE] cur then
      '(_, c1) <- consume None cur ;;
      '(_, c2) <- consume (Some OPEN_PAREN) c1 ;;
      '(columnName, c3) <- consume (Some IDENTIFIER) c2 ;;
      '(_, c4) <- consume (Some CLOSE_PAREN) c3 ;;
      Ok (TableConstraint.mk "UNIQUE" (text columnName) None, c4)
    else error cur "Constraint de tabela não reconhecida".

(** An entry of the parenthesised list of CREATE TABLE. *)
Definition parseTableEntry : parsing (TableConstraint.t + ColumnDefinition.t) :=
  fun cur =>
    if matches [PRIMARY; FOREIGN; UNIQUE] cur then
      '(constraint, c1) <- parseTableConstraint cur ;; Ok (inl constraint, c1)
    else
      '(column, c1) <- parseColumnDefinition cur ;; Ok (inr column, c1).

Fixpoint lefts {A B} (l : list (A + B)) : list A :=
  match l with
  | [] => []
  | inl a :: l' => a :: lefts l'
  | inr _ :: l' => lefts l'
  end.

Fixpoint rights {A B} (l : list (A + B)) : list B :=
  match l with
  | [] => []
  | inl _ :: l' => rights l'
  | inr b :: l' => b :: rights l'
  end.

Definition parseCreateTableStatement : parsing Statement :=
  fun cur =>
    '(_, c1) <- consume (Some TABLE) cur ;;
    '(tableName, c2) <- consume (Some IDENTIFIER) c1 ;;
    '(_, c3) <- consume (Some OPEN_PAREN) c2 ;;
    '(entries, c4) <- commaList parseTableEntry (length tokens) [] c3 ;;
    '(_, c5) <- consume (Some CLOSE_PAREN) c4 ;;
    Ok (CreateTableStatement (text tableName) (rights entries) (lefts entries), c5).

(** A word between double quotes, as it stands in a message. *)
Definition quoted (word : string) : string :=
  String Lexer.doubleQuote (word ++ String Lexer.doubleQuote EmptyString).

Definition parseCreateStatement : parsing Statement :=
  fun cur =>
    '(_, c1) <- consume (Some CREATE) cur ;;
    if matches [DATABASE] c1 then parseCreateDatabaseStatement c1
    else if matches [TABLE] c1 then parseCreateTableStatement c1
    else error c1 ("Esperado " ++ quoted "banco" ++ " ou " ++ quoted "tabela"
                   ++ " após " ++ quoted "criar").

Definition parseName : parsing string :=
  fun cur => '(tok, c1) <- consume (Some IDENTIFIER) cur ;; Ok (text tok, c1).

Definition parseInsertStatement : parsing Statement :=
  fun cur =>
    '(_, c1) <- consume (Some INSERT) cur ;;
    '(_, c2) <- consume (Some INTO) c1 ;;
    '(tableName, c3) <- parseName c2 ;;
    '(columns, c4) <-
      (if matches [OPEN_PAREN] c3 then
         '(_, d1) <- consume None c3 ;;
         '(names, d2) <- commaList parseName (length tokens) [] d1 ;;
         '(_, d3) <- consume (Some CLOSE_PAREN) d2 ;;
         Ok (Some names, d3)
       else Ok (None, c3)) ;;
    '(_, c5) <- consume (Some VALUES) c4 ;;
    '(_, c6) <- consume (Some OPEN_PAREN) c5 ;;
    '(values, c7) <- commaList parseExpression (length tokens) [] c6 ;;
    '(_, c8) <- consume (Some CLOSE_PAREN) c7 ;;
    Ok (InsertStatement tableName columns values, c8).

Definition parseAssignment : parsing Assignment.t :=
  fun cur =>
    '(columnName, c1) <- parseName cur ;;
    '(_, c2) <- consume (Some EQUALS) c1 ;;
    '(value, c3) <- parseExpression c2 ;;
    Ok (Assignment.mk columnName value, c3).

Definition parseUpdateStatement : parsing Statement :=
  fun cur =>
    '(_, c1) <- consume (Some UPDATE) cur ;;
    '(tableName, c2) <- parseName c1 ;;
    '(_, c3) <- consume (Some SET) c2 ;;
    '(assignments, c4) <- commaList parseAssignment (length tokens) [] c3 ;;
    '(whereClause, c5) <- optionalClause WHERE parseWhereClause c4 ;;
    Ok (UpdateStatement tableName assignments whereClause, c5).

Definition parseDeleteStatement : parsing Statement :=
  fun cur =>
    '(_, c1) <- consume (Some DELETE) cur ;;
    '(_, c2) <- consume (Some FROM) c1 ;;
    '(tableName, c3) <- parseName c2 ;;
    '(whereClause, c4) <- optionalClause WHERE parseWhereClause c3 ;;
    Ok (DeleteStatement tableName whereClause, c4).

Definition parseStatement : parsing Statement :=
  fun cur =>
    let token := getCurrentToken cur in
    match type token with
    | SELECT => parseSelectStatement cur
    | CREATE => parseCreateStatement cur
    | INSERT => parseInsertStatement cur
    | UPDATE => parseUpdateStatement cur
    | DELETE => parseDeleteStatement cur
    | _ => error cur ("Comando não reconhecido: " ++ text token)
    end.

(** The loop of [parse]. *)
Fixpoint parseStatements (n : nat) (statements : list Statement) : parsing (list Statement) :=
  fun cur =>
    if matches [EOF] cur then Ok (statements, cur)
    else
      match n with
      | O => Err OutOfFuel
      | S n' =>
          '(statement, c1) <- parseStatement cur ;;
          let c2 := if matches [SEMICOLON] c1 then S c1 else c1 in
          parseStatements n' (statements ++ [statement]) c2
      end.

(** [new Parser(tokens).parse()].  The lexer never produces an empty
    token list; on one the source would read a property of [undefined]. *)
Definition parse : result Program :=
  match tokens with
  | [] => Err (OutsideModel "empty token list")
  | _ =>
      '(statements, _) <- parseStatements (length tokens) [] 0 ;;
      match statements with
      | [statement] => Ok (One statement)
      | _ => Ok (Many statements)
      end
  end.

End WithTokens.

End Parser.

Definition parseText (sql : string) : result Program :=
  tokens <- Lexer.tokenize (Lexer.new sql) ;;
  Parser.parse tokens.

(* ------------------------------------------------------------------ *)
(** ** Stored data *)

(** A column entry of [colunas]: the attributes [@tipo] and [@constraints]. *)
Module Coluna.
Record t : Type := mk { tipo : string; constraints : string }.
End Coluna.

Definition Record_ : Type := obj jsval.

Module Tabela.
Record t : Type := mk {
  criada : string;
  colunas : obj Coluna.t;
  registros : obj Record_;
  constraints : option (list TableConstraint.t)
}.
Definition withRegistros (r : obj Record_) (d : t) : t :=
  mk (criada d) (colunas d) r (constraints d).
End Tabela.

Module Banco.
Record t : Type := mk { nome : string; criado : string; tabelas : obj Tabela.t }.
End Banco.

(** The state outside the engine: the files under [dados/], one database
    each, and the number of values drawn from [Math.random] so far. *)
Record World : Type := mkWorld { dados : obj Banco.t; drawn : nat }.

Definition emptyWorld : World := mkWorld [] 0.

(** Computations over the world that may throw. *)
Definition M (A : Type) : Type := World -> result A * World.

Definition ret {A} (a : A) : M A := fun w => (Ok a, w).
Definition raise {A} (msg : string) : M A := fun w => (throw msg, w).
Definition lift {A} (r : result A) : M A := fun w => (r, w).
Definition bindM {A B} (m : M A) (k : A -> M B) : M B :=
  fun w => match m w with
           | (Ok a, w') => k a w'
           | (Err e, w') => (Err e, w')
           end.

Declare Scope world_scope.
Delimit Scope world_scope with world.
Notation "x <~ m ;; k" := (bindM m (fun x => k))
  (at level 61, m at next level, right associativity) : world_scope.
Open Scope world_scope.

Fixpoint forEachM {A S} (body : S -> A -> M S) (l : list A) (s : S) : M S :=
  match l with
  | [] => ret s
  | a :: l' => s' <~ body s a ;; forEachM body l' s'
  end.

(** The reply every command gives. *)
Module Resposta.
Record t : Type := mk {
  sucesso : bool;
  mensagem : string;
  resultados : option (list Record_)
}.
End Resposta.

Section Engine.

(** The reading of the clock, [new Date().toISOString()], and the values
    [Math.random() * 16 | 0] takes, in the order they are drawn. *)
Variable now : string.
Variable random : nat -> nat.

(* ------------------------------------------------------------------ *)
(** ** Storage manager (src/storage/manager.js) *)

Definition loadDatabase (databaseName : string) : M (option Banco.t) :=
  fun w => (Ok (lookup (dados w) databaseName), w).

Definition saveDatabase (databaseName : string) (data : Banco.t) : M unit :=
  fun w => (Ok tt, mkWorld (set (dados w) databaseName data) (drawn w)).

Definition databaseExists (databaseName : string) : M bool :=
  fun w => (Ok (has (dados w) databaseName), w).

Definition createDatabase (databaseName : string) : M Resposta.t :=
  exists_ <~ databaseExists databaseName ;;
  if exists_ : bool then
    ret (Resposta.mk false ("❌ Banco '" ++ databaseName ++ "' já existe") None)
  else
    _ <~ saveDatabase databaseName (Banco.mk databaseName now []) ;;
    ret (Resposta.mk true ("✅ Banco '" ++ databaseName ++ "' criado com sucesso") None).

Definition loadTable (databaseName tableName : string) : M (option Tabela.t) :=
  dbData <~ loadDatabase databaseName ;;
  match dbData with
  | None => ret None
  | Some db => ret (lookup (Banco.tabelas db) tableName)
  end.

Definition saveTable (databaseName tableName : string) (tableData : Tabela.t) : M unit :=
  dbData <~ loadDatabase databaseName ;;
  match dbData with
  | None => raise ("Banco '" ++ databaseName ++ "' não encontrado")
  | Some db =>
      saveDatabase databaseName
        (Banco.mk (Banco.nome db) (Banco.criado db)
           (set (Banco.tabelas db) tableName tableData))
  end.

(** [Array.prototype.join] on strings. *)
Fixpoint join (sep : string) (l : list string) : string :=
  match l with
  | [] => ""
  | [a] => a
  | a :: l' => a ++ sep ++ join sep l'
  end.

(** [constraint.options.value.value || constraint.options.value] inside
    a template literal: a literal's own value when truthy, otherwise the
    expression object itself. *)
Definition defaultText (e : Expr) : string :=
  match e with
  | LiteralExpression v _ => if truthy v then toStr v else "[object Object]"
  | _ => "[object Object]"
  end.

Fixpoint constraintStrings (l : list ConstraintDefinition.t) : result (list string) :=
  match l with
  | [] => Ok []
  | c :: l' =>
      let ty := ConstraintDefinition.type c in
      here <-
        (if ty =? "PRIMARY_KEY" then Ok ["PRIMARY_KEY"]
         else if ty =? "UNIQUE" then Ok ["UNIQUE"]
         else if ty =? "NOT_NULL" then Ok ["NOT_NULL"]
         else if ty =? "AUTO_INCREMENT" then Ok ["AUTO_INCREMENT"]
         else if ty =? "DEFAULT" then
           match ConstraintDefinition.options c with
           | Some e => Ok [("DEFAULT:" ++ defaultText e)%string]
           | None => throw "Cannot read properties of undefined (reading 'value')"
           end
         else Ok []) ;;
      others <- constraintStrings l' ;;
      Ok (here ++ others)
  end.

Fixpoint buildColumns (defs : list ColumnDefinition.t) (columns : obj Coluna.t)
  : result (obj Coluna.t) :=
  match defs with
  | [] => Ok columns
  | colDef :: defs' =>
      strs <- constraintStrings (ColumnDefinition.constraints colDef) ;;
      buildColumns defs'
        (set columns (ColumnDefinition.name colDef)
           (Coluna.mk (ColumnDefinition.type colDef) (join "," strs)))
  end.

Definition createTable (databaseName tableName : string)
    (columnDefinitions : list ColumnDefinition.t)
    (tableConstraints : list TableConstraint.t) : M Resposta.t :=
  dbData <~ loadDatabase databaseName ;;
  match dbData with
  | None => raise ("Banco '" ++ databaseName ++ "' não encontrado")
  | Some db =>
      if has (Banco.tabelas db) tableName then
        ret (Resposta.mk false ("❌ Tabela '" ++ tableName ++ "' já existe") None)
      else
        columns <~ lift (buildColumns columnDefinitions []) ;;
        let tableStructure :=
          Tabela.mk now columns []
            (match tableConstraints with [] => None | _ => Some tableConstraints end) in
        _ <~ saveDatabase databaseName
               (Banco.mk (Banco.nome db) (Banco.criado db)
                  (set (Banco.tabelas db) tableName tableStructure)) ;;
        ret (Resposta.mk true ("✅ Tabela '" ++ tableName ++ "' criada com sucesso") None)
  end.


(* ------------------------------------------------------------------ *)
(** ** Constraint validator (src/constraints/validator.js) *)

(** [s.split(sep)] for a one-character separator. *)
Fixpoint split (sep : ascii) (s : string) : list string :=
  match s with
  | EmptyString => [""]
  | String c s' =>
      if Ascii.eqb c sep then "" :: split sep s'
      else match split sep s' with
           | h :: t => String c h :: t
           | [] => [String c ""]
           end
  end.

(** [c.trim()] is truthy: some character is not white space. *)
Definition trimmedNonEmpty (c : string) : bool :=
  existsb (fun a => negb (Lexer.isSpace a)) (list_ascii_of_string c).

Definition parseConstraints (constraintString : string) : list string :=
  if constraintString =? "" then []
  else filter trimmedNonEmpty (split "," constraintString).

(** [l.includes(x)] *)
Definition includes (x : string) (l : list string) : bool :=
  existsb (String.eqb x) l.

Definition hexDigit (v : nat) : ascii :=
  if (v <? 10)%nat then ascii_of_nat (48 + v) else ascii_of_nat (87 + v).

(** One call of the replacer: [r] is the next random value. *)
Definition uuidChar (c : ascii) (r : nat) : ascii :=
  if Ascii.eqb c "x" then hexDigit r
  else hexDigit (Nat.lor (Nat.land r 3) 8).

Fixpoint uuidFill (template : list ascii) (k : nat) : list ascii * nat :=
  match template with
  | [] => ([], k)
  | c :: rest =>
      if Ascii.eqb c "x" || Ascii.eqb c "y" then
        let '(out, k') := uuidFill rest (S k) in
        (uuidChar c (random k mod 16) :: out, k')
      else
        let '(out, k') := uuidFill rest k in (c :: out, k')
  end.

Definition generateUUID : M string :=
  fun w =>
    let '(out, k) :=
      uuidFill (list_ascii_of_string "xxxxxxxx-xxxx-4xxx-yxxx-xxxxxxxxxxxx") (drawn w) in
    (Ok (string_of_list_ascii out), mkWorld (dados w) k).

(** [values.sort((a, b) => b - a)], as a stable insertion sort. *)
Fixpoint insertDescending (x : Z) (l : list Z) : list Z :=
  match l with
  | [] => [x]
  | y :: l' => if (y <? x)%Z then x :: l else y :: insertDescending x l'
  end.

Definition sortDescending (l : list Z) : list Z :=
  fold_left (fun acc x => insertDescending x acc) l [].

(** [.map(record => record[columnName]).filter(val => typeof val === 'number')] *)
Fixpoint numericValues (columnName : string) (records : list Record_) : list Z :=
  match records with
  | [] => []
  | r :: records' =>
      match getv r columnName with
      | VNum n => n :: numericValues columnName records'
      | _ => numericValues columnName records'
      end
  end.

(** [registros] is always an object here, so the guard on its absence
    never fires; with no numeric value the answer is 1 either way. *)
Definition getNextAutoIncrementValue (tableData : Tabela.t) (columnName : string) : Z :=
  match sortDescending (numericValues columnName (values (Tabela.registros tableData))) with
  | top :: _ => (top + 1)%Z
  | [] => 1%Z
  end.

Definition toLowerCase (s : string) : string :=
  string_of_list_ascii (map Lexer.toLowerChar (list_ascii_of_string s)).

Definition parseDefaultValue (defaultValue type : string) : M jsval :=
  if type =? "numero" then
    if negb (defaultValue =? "") && allDigits defaultValue
    then lift (n <- Lexer.parseFloat defaultValue None ;; Ok (VNum n))
    else lift (Err (OutsideModel "parseFloat"))
  else if type =? "booleano" then ret (VBool (toLowerCase defaultValue =? "true"))
  else if type =? "uuid" then
    if defaultValue =? "UUID()" then (u <~ generateUUID ;; ret (VStr u))
    else ret (VStr defaultValue)
  else ret (VStr defaultValue).

(** The body of the loop of [applyAutoValues] for one column. *)
Definition applyAutoColumn (tableData : Tabela.t) (record : Record_)
    (entry : string * Coluna.t) : M Record_ :=
  let '(columnName, columnDef) := entry in
  let constraints := parseConstraints (Coluna.constraints columnDef) in
  let type := Coluna.tipo columnDef in
  let record1 :=
    if includes "AUTO_INCREMENT" constraints && negb (truthy (getv record columnName))
    then set record columnName (VNum (getNextAutoIncrementValue tableData columnName))
    else record in
  record2 <~
    (if (type =? "uuid") && negb (truthy (getv record1 columnName))
     then (u <~ generateUUID ;; ret (set record1 columnName (VStr u)))
     else ret record1) ;;
  match find (fun c => startsWith c "DEFAULT:") constraints with
  | Some defaultConstraint =>
      if nullish (getv record2 columnName) then
        v <~ parseDefaultValue (nth 1 (split ":" defaultConstraint) "undefined") type ;;
        ret (set record2 columnName v)
      else ret record2
  | None => ret record2
  end.

Definition applyAutoValues (record : Record_) (tableData : Tabela.t) : M Record_ :=
  forEachM (applyAutoColumn tableData) (Tabela.colunas tableData) record.

(** [Object.values(registros).some(record => record[columnName] === value)] *)
Definition someRecordHas (registros : obj Record_) (columnName : string) (value : jsval)
  : bool :=
  existsb (fun record => strictEq (getv record columnName) value) (values registros).

Definition checkDuplicateValue (databaseName tableName columnName : string)
    (value : jsval) : M bool :=
  tableData <~ loadTable databaseName tableName ;;
  match tableData with
  | None => ret false
  | Some t => ret (someRecordHas (Tabela.registros t) columnName value)
  end.

Definition validateForeignKey (databaseName referencedTable referencedColumn : string)
    (value : jsval) : M bool :=
  if nullish value then ret true
  else
    refTableData <~ loadTable databaseName referencedTable ;;
    match refTableData with
    | None => ret false
    | Some t => ret (someRecordHas (Tabela.registros t) referencedColumn value)
    end.

(** The column checks of [validateInsert] for one column. *)
Definition validateColumn (databaseName tableName : string) (record : Record_)
    (errors : list string) (entry : string * Coluna.t) : M (list string) :=
  let '(columnName, columnDef) := entry in
  let value := getv record columnName in
  let constraints := parseConstraints (Coluna.constraints columnDef) in
  let errors1 :=
    if includes "NOT_NULL" constraints && nullish value
    then errors ++ [("Coluna '" ++ columnName ++ "' não pode ser nula")%string]
    else errors in
  errors2 <~
    (if includes "PRIMARY_KEY" constraints then
       if nullish value then
         ret (errors1 ++ [("Chave primária '" ++ columnName ++ "' não pode ser nula")%string])
       else
         isDuplicate <~ checkDuplicateValue databaseName tableName columnName value ;;
         if isDuplicate : bool then
           ret (errors1 ++ [("Valor duplicado para chave primária '" ++ columnName
                             ++ "': " ++ toStr value)%string])
         else ret errors1
     else ret errors1) ;;
  if includes "UNIQUE" constraints && negb (nullish value) then
    isDuplicate <~ checkDuplicateValue databaseName tableName columnName value ;;
    if isDuplicate : bool then
      ret (errors2 ++ [("Valor duplicado para coluna única '" ++ columnName
                        ++ "': " ++ toStr value)%string])
    else ret errors2
  else ret errors2.

(** The foreign-key check of [validateInsert] for one table constraint. *)
Definition validateTableConstraint (databaseName : string) (record : Record_)
    (errors : list string) (constraint : TableConstraint.t) : M (list string) :=
  if TableConstraint.type constraint =? "FOREIGN_KEY" then
    let value := getv record (TableConstraint.columnName constraint) in
    if negb (nullish value) then
      let '(referencedTable, referencedColumn) :=
        match TableConstraint.options constraint with
        | Some p => p
        | None => ("undefined", "undefined")
        end in
      isValid <~ validateForeignKey databaseName referencedTable referencedColumn value ;;
      if isValid : bool then ret errors
      else ret (errors ++ [("Chave estrangeira inválida: "
                            ++ TableConstraint.columnName constraint
                            ++ " = " ++ toStr value)%string])
    else ret errors
  else ret errors.

(** [validateInsert] changes [record] in place; the model returns the
    record next to the list of errors. *)
Definition validateInsert (databaseName tableName : string) (record : Record_)
    (tableData : Tabela.t) : M (list string * Record_) :=
  record' <~ applyAutoValues record tableData ;;
  errors <~ forEachM (validateColumn databaseName tableName record')
              (Tabela.colunas tableData) [] ;;
  errors' <~
    match Tabela.constraints tableData with
    | Some constraints =>
        forEachM (validateTableConstraint databaseName record') constraints errors
    | None => ret errors
    end ;;
  ret (errors', record').

(** [Object.keys(registros).length + 1] as the suffix of the new key. *)
Definition nextRecordKey (registros : obj Record_) : string :=
  "reg_" ++ natToString (length (keys registros) + 1).

(** [StorageManager.insertRecord] *)
Definition insertRecord (databaseName tableName : string) (record : Record_)
  : M Resposta.t :=
  tableData <~ loadTable databaseName tableName ;;
  match tableData with
  | None => raise ("Tabela '" ++ tableName ++ "' não encontrada")
  | Some tableData =>
      checked <~ validateInsert databaseName tableName record tableData ;;
      let '(errors, record') := checked in
      match errors with
      | _ :: _ => raise ("Violação de constraints: " ++ join ", " errors)
      | [] =>
          let registros :=
            set (Tabela.registros tableData)
              (nextRecordKey (Tabela.registros tableData)) record' in
          _ <~ saveTable databaseName tableName (Tabela.withRegistros registros tableData) ;;
          ret (Resposta.mk true
                 ("✅ Registro inserido na tabela '" ++ tableName ++ "' com sucesso") None)
      end
  end.

(** [StorageManager.listTables] *)
Definition listTables (databaseName : string) : M (list string) :=
  dbData <~ loadDatabase databaseName ;;
  match dbData with
  | None => ret []
  | Some db => ret (keys (Banco.tabelas db))
  end.

(* ------------------------------------------------------------------ *)
(** ** Query executor (src/query/executor.js) *)

(** [name || fallback] on a name that is [null] when absent. *)
Definition orElse (name : option string) (fallback : string) : string :=
  match name with
  | Some a => if a =? "" then fallback else a
  | None => fallback
  end.

Definition present (name : option string) : bool :=
  match name with
  | Some a => negb (a =? "")
  | None => false
  end.

(** [left + right] *)
Definition jsAdd (a b : jsval) : result jsval :=
  if isString a || isString b then Ok (VStr (toStr a ++ toStr b))
  else match toNumber a, toNumber b with
       | Fin x, Fin y => Ok (VNum (x + y))
       | _, _ => Err (OutsideModel "NaN")
       end.

(** [left - right], [left * right], [left / right] *)
Definition jsArith (op : Z -> Z -> result Z) (a b : jsval) : result jsval :=
  match toNumber a, toNumber b with
  | Fin x, Fin y => n <- op x y ;; Ok (VNum n)
  | NaN, _ | _, NaN => Err (OutsideModel "NaN")
  | _, _ => Err (OutsideModel "string to number")
  end.

Definition exactDiv (x y : Z) : result Z :=
  if (y =? 0)%Z then Err (OutsideModel "division by zero")
  else if (x mod y =? 0)%Z then Ok (x / y)%Z
  else Err (OutsideModel "fraction").

Fixpoint evaluateExpression (expression : Expr) (row : Record_) : result jsval :=
  match expression with
  | LiteralExpression value _ => Ok value
  | IdentifierExpression name tableName =>
      let columnName :=
        if present tableName then (orElse tableName "" ++ "." ++ name)%string else name in
      Ok (match getv row columnName with
          | VUndef => getv row name
          | v => v
          end)
  | BinaryExpression l operator r =>
      a <- evaluateExpression l row ;;
      b <- evaluateExpression r row ;;
      if operator =? "+" then jsAdd a b
      else if operator =? "-" then jsArith (fun x y => Ok (x - y)%Z) a b
      else if operator =? "*" then jsArith (fun x y => Ok (x * y)%Z) a b
      else if operator =? "/" then jsArith exactDiv a b
      else throw ("Operador matemático não suportado: " ++ operator)
  | AllColumnsExpression _ =>
      throw "Tipo de expressão não suportado: AllColumnsExpression"
  end.

(** A compiled LIKE pattern: what is left of the regular expression once
    every metacharacter has been escaped. *)
Inductive likeAtom : Type :=
| AnySequence
| AnyCharacter
| Literal (c : ascii).

(** The three [replace] calls of [evaluateLike]: [%] becomes [.*], [_]
    becomes [.], every other character stands for itself. *)
Definition compileLike (pattern : string) : list likeAtom :=
  map (fun c => if Ascii.eqb c "%" then AnySequence
                else if Ascii.eqb c "_" then AnyCharacter
                else Literal c)
      (list_ascii_of_string pattern).

(** [.] does not match a line terminator. *)
Definition isLineTerminator (c : ascii) : bool :=
  let n := nat_of_ascii c in ((n =? 10) || (n =? 13))%nat.

(** The case folding of the [i] flag on one code unit. *)
Definition canonicalize (c : ascii) : ascii :=
  let n := nat_of_ascii c in
  if ((97 <=? n) && (n <=? 122))%nat then ascii_of_nat (n - 32)
  else if ((224 <=? n) && (n <=? 254) && negb (n =? 247))%nat then ascii_of_nat (n - 32)
  else c.

(** [new RegExp('^' + regexPattern + '$', 'i').test(value)] *)
Fixpoint regexTest (atoms : list likeAtom) (s : list ascii) : bool :=
  match atoms with
  | [] => match s with [] => true | _ => false end
  | Literal c :: atoms' =>
      match s with
      | d :: s' => Ascii.eqb (canonicalize c) (canonicalize d) && regexTest atoms' s'
      | [] => false
      end
  | AnyCharacter :: atoms' =>
      match s with
      | d :: s' => negb (isLineTerminator d) && regexTest atoms' s'
      | [] => false
      end
  | AnySequence :: atoms' =>
      (fix star (s : list ascii) : bool :=
         regexTest atoms' s
         || match s with
            | d :: s' => negb (isLineTerminator d) && star s'
            | [] => false
            end) s
  end.

Definition evaluateLike (value pattern : jsval) : bool :=
  match value, pattern with
  | VStr v, VStr p => regexTest (compileLike p) (list_ascii_of_string v)
  | _, _ => false
  end.

Definition isBinaryExpression (e : Expr) : bool :=
  match e with BinaryExpression _ _ _ => true | _ => false end.

Fixpoint evaluateCondition (condition : Expr) (row : Record_) : result bool :=
  match condition with
  | BinaryExpression l operator r =>
      leftValue <- evaluateExpression l row ;;
      rightValue <- evaluateExpression r row ;;
      if (operator =? "=") || (operator =? "equals") then looseEq leftValue rightValue
      else if (operator =? "!=") || (operator =? "not_equals")
      then b <- looseEq leftValue rightValue ;; Ok (negb b)
      else if (operator =? "<") || (operator =? "less_than")
      then lessThan leftValue rightValue
      else if (operator =? ">") || (operator =? "greater_than")
      then greaterThan leftValue rightValue
      else if (operator =? "<=") || (operator =? "less_equal")
      then lessEqual leftValue rightValue
      else if (operator =? ">=") || (operator =? "greater_equal")
      then greaterEqual leftValue rightValue
      else if (operator =? "like") || (operator =? "como")
      then Ok (evaluateLike leftValue rightValue)
      else if (operator =? "e") || (operator =? "and") then
        a <- evaluateCondition l row ;;
        if a : bool then evaluateCondition r row else Ok false
      else if (operator =? "ou") || (operator =? "or") then
        a <- evaluateCondition l row ;;
        if a : bool then Ok true else evaluateCondition r row
      else throw ("Operador não suportado: " ++ operator)
  | _ => Ok true
  end.

Definition convertRecord (effectiveName : string) (registro : Record_) : Record_ :=
  fold_left
    (fun row campo_valor =>
       let '(campo, valor) := campo_valor in
       set (set row (effectiveName ++ "." ++ campo) valor) campo valor)
    registro [].

Definition convertTableToResultSet (tableData : Tabela.t) (tableName : string)
    (alias : option string) : list Record_ :=
  let effectiveName := orElse alias tableName in
  map (convertRecord effectiveName) (values (Tabela.registros tableData)).

(** The inner loop of [performJoin]: the right rows that match [leftRow]. *)
Fixpoint joinMatches (condition : Expr) (leftRow : Record_) (rightResultSet : list Record_)
  : result (list Record_) :=
  match rightResultSet with
  | [] => Ok []
  | rightRow :: rest =>
      let combinedRow := assign leftRow rightRow in
      hit <- evaluateCondition condition combinedRow ;;
      more <- joinMatches condition leftRow rest ;;
      Ok (if hit : bool then assign leftRow rightRow :: more else more)
  end.

(** The row of nulls a LEFT join pairs with an unmatched left row. *)
Definition nullRow (rightResultSet : list Record_) (joinClause : JoinClause.t) : Record_ :=
  let rightTableName :=
    orElse (JoinClause.alias joinClause) (JoinClause.tableName joinClause) in
  fold_left
    (fun acc key =>
       if startsWith key (rightTableName ++ ".") then set acc key VNull else acc)
    (keys (hd [] rightResultSet)) [].

(** The body of the outer loop of [performJoin]: what one left row adds
    to the result. *)
Definition joinRow (rightResultSet : list Record_) (joinClause : JoinClause.t)
    (leftRow : Record_) : result (list Record_) :=
  matches <- joinMatches (JoinClause.onCondition joinClause) leftRow rightResultSet ;;
  match matches with
  | _ :: _ => Ok matches
  | [] =>
      if TokenType_beq (JoinClause.joinType joinClause) LEFT
      then Ok [assign leftRow (nullRow rightResultSet joinClause)]
      else Ok []
  end.

Fixpoint performJoin (leftResultSet rightResultSet : list Record_)
    (joinClause : JoinClause.t) : result (list Record_) :=
  match leftResultSet with
  | [] => Ok []
  | leftRow :: rest =>
      here <- joinRow rightResultSet joinClause leftRow ;;
      others <- performJoin rest rightResultSet joinClause ;;
      Ok (here ++ others)
  end.

(** [resultSet.filter(row => this.evaluateCondition(condition, row))] *)
Fixpoint applyWhere (resultSet : list Record_) (condition : Expr) : result (list Record_) :=
  match resultSet with
  | [] => Ok []
  | row :: rest =>
      keep <- evaluateCondition condition row ;;
      others <- applyWhere rest condition ;;
      Ok (if keep : bool then row :: others else others)
  end.

(** An element of an array under [join]: [null] and [undefined] give
    the empty string. *)
Definition joinElement (v : jsval) : string :=
  if nullish v then "" else toStr v.

Definition groupKey (groupByClause : GroupByClause.t) (row : Record_) : result string :=
  vs <- mapM (fun e => evaluateExpression e row) (GroupByClause.expressions groupByClause) ;;
  Ok (join "|" (map joinElement vs)).

(** The [Map] from group key to the rows of the group, in insertion
    order of the keys. *)
Fixpoint pushToGroup (groups : list (string * list Record_)) (key : string) (row : Record_)
  : list (string * list Record_) :=
  match groups with
  | [] => [(key, [row])]
  | (k, g) :: rest =>
      if key =? k then (k, g ++ [row]) :: rest
      else (k, g) :: pushToGroup rest key row
  end.

Fixpoint collectGroups (groupByClause : GroupByClause.t) (resultSet : list Record_)
    (groups : list (string * list Record_)) : result (list (string * list Record_)) :=
  match resultSet with
  | [] => Ok groups
  | row :: rest =>
      key <- groupKey groupByClause row ;;
      collectGroups groupByClause rest (pushToGroup groups key row)
  end.

(** [group[0]]; an empty group would put [undefined] among the rows. *)
Definition firstOfGroup (group : list Record_) : result Record_ :=
  match group with
  | row :: _ => Ok row
  | [] => Err (OutsideModel "undefined row")
  end.

Definition applyGroupBy (resultSet : list Record_) (groupByClause : GroupByClause.t)
  : result (list Record_) :=
  groups <- collectGroups groupByClause resultSet [] ;;
  mapM firstOfGroup (map snd groups).

Definition getExpressionName (expression : Expr) : string :=
  match expression with
  | IdentifierExpression name _ => name
  | LiteralExpression value _ => toStr value
  | _ => "expressao"
  end.

(** The body of the inner loop of [applyProjection]. *)
Definition projectColumn (row : Record_) (projectedRow : Record_)
    (columnExpr : ColumnExpression.t) : result Record_ :=
  match ColumnExpression.expression columnExpr with
  | AllColumnsExpression tableName =>
      if present tableName then
        let prefix := (orElse tableName "" ++ ".")%string in
        Ok (fold_left
              (fun acc key_value =>
                 let '(key, value) := key_value in
                 if startsWith key prefix
                 then set acc (substringFrom (String.length prefix) key) value
                 else acc)
              row projectedRow)
      else Ok (assign projectedRow row)
  | expression =>
      value <- evaluateExpression expression row ;;
      let columnName :=
        orElse (ColumnExpression.alias columnExpr) (getExpressionName expression) in
      Ok (set projectedRow columnName value)
  end.

Fixpoint projectRow (row : Record_) (columns : list ColumnExpression.t)
    (projectedRow : Record_) : result Record_ :=
  match columns with
  | [] => Ok projectedRow
  | columnExpr :: rest =>
      next <- projectColumn row projectedRow columnExpr ;;
      projectRow row rest next
  end.

Definition applyProjection (resultSet : list Record_) (selectList : SelectList.t)
  : result (list Record_) :=
  match resultSet with
  | [] => Ok resultSet
  | _ => mapM (fun row => projectRow row (SelectList.columns selectList) []) resultSet
  end.

(** The comparator of [applyOrderBy]: negative, zero or positive. *)
Fixpoint compareRows (expressions : list OrderByExpression.t) (a b : Record_) : result Z :=
  match expressions with
  | [] => Ok 0%Z
  | orderExpr :: rest =>
      aValue <- evaluateExpression (OrderByExpression.expression orderExpr) a ;;
      bValue <- evaluateExpression (OrderByExpression.expression orderExpr) b ;;
      lt <- lessThan aValue bValue ;;
      comparison <-
        (if lt : bool then Ok (-1)%Z
         else gt <- greaterThan aValue bValue ;; Ok (if gt : bool then 1%Z else 0%Z)) ;;
      if negb (comparison =? 0)%Z then
        Ok (if OrderByExpression.direction orderExpr =? "DESC" then (- comparison)%Z
            else comparison)
      else compareRows rest a b
  end.

(** [Array.prototype.sort] is stable; the model inserts each row, from
    the last to the first, in front of the first row it does not follow. *)
Fixpoint insertSorted (cmp : Record_ -> Record_ -> result Z) (x : Record_)
    (sorted : list Record_) : result (list Record_) :=
  match sorted with
  | [] => Ok [x]
  | y :: rest =>
      c <- cmp x y ;;
      if (0 <? c)%Z then tail <- insertSorted cmp x rest ;; Ok (y :: tail)
      else Ok (x :: sorted)
  end.

Fixpoint sortRows (cmp : Record_ -> Record_ -> result Z) (l : list Record_)
  : result (list Record_) :=
  match l with
  | [] => Ok []
  | x :: rest => sorted <- sortRows cmp rest ;; insertSorted cmp x sorted
  end.

Definition applyOrderBy (resultSet : list Record_) (orderByClause : OrderByClause.t)
  : result (list Record_) :=
  sortRows (compareRows (OrderByClause.expressions orderByClause)) resultSet.

Definition validateType (value : jsval) (expectedType : string) : bool :=
  let t := toLowerCase expectedType in
  if t =? "numero" then isNumber value
  else if t =? "texto" then isString value
  else if t =? "booleano" then match value with VBool _ => true | _ => false end
  else true.

(** [if (!this.currentDatabase) throw ...] *)
Definition selectedDatabase (currentDatabase : option string) : M string :=
  if present currentDatabase then ret (orElse currentDatabase "")
  else raise "Nenhum banco selecionado".

Definition requireTable (databaseName tableName : string) : M Tabela.t :=
  tableData <~ loadTable databaseName tableName ;;
  match tableData with
  | Some t => ret t
  | None => raise ("Tabela '" ++ tableName ++ "' não encontrada")
  end.

Definition optionally {A C} (clause : option C) (step : A -> C -> result A) (a : A)
  : result A :=
  match clause with
  | Some c => step a c
  | None => Ok a
  end.

Definition executeSelect (currentDatabase : option string)
    (selectList : SelectList.t) (fromClause : FromClause.t)
    (whereClause : option WhereClause.t) (joinClauses : list JoinClause.t)
    (orderByClause : option OrderByClause.t) (groupByClause : option GroupByClause.t)
  : M Resposta.t :=
  db <~ selectedDatabase currentDatabase ;;
  mainTable <~ requireTable db (FromClause.tableName fromClause) ;;
  let resultSet0 :=
    convertTableToResultSet mainTable (FromClause.tableName fromClause)
      (FromClause.alias fromClause) in
  resultSet1 <~
    forEachM
      (fun resultSet joinClause =>
         joinTable <~ requireTable db (JoinClause.tableName joinClause) ;;
         lift (performJoin resultSet
                 (convertTableToResultSet joinTable (JoinClause.tableName joinClause)
                    (JoinClause.alias joinClause))
                 joinClause))
      joinClauses resultSet0 ;;
  resultSet2 <~
    lift (optionally whereClause
            (fun rs w => applyWhere rs (WhereClause.condition w)) resultSet1) ;;
  resultSet3 <~ lift (optionally groupByClause applyGroupBy resultSet2) ;;
  resultSet4 <~ lift (applyProjection resultSet3 selectList) ;;
  resultSet5 <~ lift (optionally orderByClause applyOrderBy resultSet4) ;;
  ret (Resposta.mk true
         ("📊 " ++ natToString (length resultSet5) ++ " registro(s) encontrado(s)")
         (Some resultSet5)).

(** The loop of [executeInsert] over the columns and their values. *)
Fixpoint buildRecord (tableData : Tabela.t) (columns : list string) (values : list Expr)
    (newRecord : Record_) : result Record_ :=
  match columns, values with
  | columnName :: columns', valueExpr :: values' =>
      value <- evaluateExpression valueExpr [] ;;
      let columnType := option_map Coluna.tipo (lookup (Tabela.colunas tableData) columnName) in
      if present columnType && negb (validateType value (orElse columnType ""))
      then throw ("Tipo inválido para coluna '" ++ columnName ++ "'. Esperado: "
                  ++ orElse columnType "")
      else buildRecord tableData columns' values' (set newRecord columnName value)
  | _, _ => Ok newRecord
  end.

Definition executeInsert (currentDatabase : option string) (tableName : string)
    (astColumns : option (list string)) (astValues : list Expr) : M Resposta.t :=
  db <~ selectedDatabase currentDatabase ;;
  tableData <~ requireTable db tableName ;;
  let columns :=
    match astColumns with
    | Some cs => cs
    | None => keys (Tabela.colunas tableData)
    end in
  if negb (length astValues =? length columns)%nat then
    raise "Número de valores não corresponde ao número de colunas"
  else
    newRecord <~ lift (buildRecord tableData columns astValues []) ;;
    let registros :=
      set (Tabela.registros tableData)
        (nextRecordKey (Tabela.registros tableData)) newRecord in
    _ <~ saveTable db tableName (Tabela.withRegistros registros tableData) ;;
    ret (Resposta.mk true
           ("✅ Registro inserido na tabela '" ++ tableName ++ "' com sucesso") None).

Definition matchesWhere (whereClause : option WhereClause.t) (record : Record_)
  : result bool :=
  match whereClause with
  | Some w => evaluateCondition (WhereClause.condition w) record
  | None => Ok true
  end.

Fixpoint applyAssignments (assignments : list Assignment.t) (record : Record_)
  : result Record_ :=
  match assignments with
  | [] => Ok record
  | assignment :: rest =>
      newValue <- evaluateExpression (Assignment.value assignment) record ;;
      applyAssignments rest (set record (Assignment.column assignment) newValue)
  end.

(** The loop of [executeUpdate]: the records are changed where they are. *)
Fixpoint updateRecords (assignments : list Assignment.t)
    (whereClause : option WhereClause.t) (entries : obj Record_)
  : result (obj Record_ * nat) :=
  match entries with
  | [] => Ok ([], 0)
  | (regId, record) :: rest =>
      shouldUpdate <- matchesWhere whereClause record ;;
      record' <- (if shouldUpdate : bool then applyAssignments assignments record
                  else Ok record) ;;
      '(rest', updatedCount) <- updateRecords assignments whereClause rest ;;
      Ok ((regId, record') :: rest',
          if shouldUpdate : bool then S updatedCount else updatedCount)
  end.

Definition executeUpdate (currentDatabase : option string) (tableName : string)
    (assignments : list Assignment.t) (whereClause : option WhereClause.t)
  : M Resposta.t :=
  db <~ selectedDatabase currentDatabase ;;
  tableData <~ requireTable db tableName ;;
  updated <~ lift (updateRecords assignments whereClause (Tabela.registros tableData)) ;;
  let '(registros, updatedCount) := updated in
  _ <~ saveTable db tableName (Tabela.withRegistros registros tableData) ;;
  ret (Resposta.mk true
         ("✅ " ++ natToString updatedCount ++ " registro(s) atualizado(s) na tabela '"
          ++ tableName ++ "'") None).

(** The loop of [executeDelete]: the records kept and the number removed. *)
Fixpoint deleteRecords (whereClause : option WhereClause.t) (entries : obj Record_)
    (remainingRecords : obj Record_) (deletedCount : nat)
  : result (obj Record_ * nat) :=
  match entries with
  | [] => Ok (remainingRecords, deletedCount)
  | (regId, record) :: rest =>
      shouldDelete <- matchesWhere whereClause record ;;
      if shouldDelete : bool
      then deleteRecords whereClause rest remainingRecords (S deletedCount)
      else deleteRecords whereClause rest (set remainingRecords regId record) deletedCount
  end.

Definition executeDelete (currentDatabase : option string) (tableName : string)
    (whereClause : option WhereClause.t) : M Resposta.t :=
  db <~ selectedDatabase currentDatabase ;;
  tableData <~ requireTable db tableName ;;
  deleted <~ lift (deleteRecords whereClause (Tabela.registros tableData) [] 0) ;;
  let '(remainingRecords, deletedCount) := deleted in
  _ <~ saveTable db tableName (Tabela.withRegistros remainingRecords tableData) ;;
  ret (Resposta.mk true
         ("✅ " ++ natToString deletedCount ++ " registro(s) removido(s) da tabela '"
          ++ tableName ++ "'") None).

(** The table constraints of the statement are not passed on. *)
Definition executeCreateTable (currentDatabase : option string) (tableName : string)
    (columns : list ColumnDefinition.t) : M Resposta.t :=
  db <~ selectedDatabase currentDatabase ;;
  createTable db tableName columns [].

Definition executeCreateDatabase (databaseName : string) : M Resposta.t :=
  createDatabase databaseName.

(** [try { ... } catch (error) { return { sucesso: false, ... } }] *)
Definition catching (m : M Resposta.t) : M Resposta.t :=
  fun w =>
    match m w with
    | (Err (Thrown message), w') =>
        (Ok (Resposta.mk false ("❌ Erro na execução: " ++ message) None), w')
    | other => other
    end.

Definition execute (currentDatabase : option string) (ast : Program) : M Resposta.t :=
  catching
    match ast with
    | One (SelectStatement selectList fromClause whereClause joinClauses
             orderByClause groupByClause) =>
        executeSelect currentDatabase selectList fromClause whereClause joinClauses
          orderByClause groupByClause
    | One (InsertStatement tableName columns values) =>
        executeInsert currentDatabase tableName columns values
    | One (UpdateStatement tableName assignments whereClause) =>
        executeUpdate currentDatabase tableName assignments whereClause
    | One (DeleteStatement tableName whereClause) =>
        executeDelete currentDatabase tableName whereClause
    | One (CreateTableStatement tableName columns _) =>
        executeCreateTable currentDatabase tableName columns
    | One (CreateDatabase databaseName) => executeCreateDatabase databaseName
    | Many _ => raise "Tipo de comando não implementado: Array"
    end.

(** A line handed to the engine the way the command line and the test
    drivers do it: lexer, parser, executor. *)
Definition executeCommand (currentDatabase : option string) (sql : string) : M Resposta.t :=
  ast <~ lift (parseText sql) ;;
  execute currentDatabase ast.

End Engine.

(* ------------------------------------------------------------------ *)
(** ** Notions used in the statements *)

(** The table stored under a name, as [loadTable] finds it. *)
Definition tableAt (w : World) (databaseName tableName : string) : option Tabela.t :=
  match lookup (dados w) databaseName with
  | Some db => lookup (Banco.tabelas db) tableName
  | None => None
  end.

Definition tokenTypes (r : result (list Token)) : result (list TokenType) :=
  ts <- r ;; Ok (map type ts).


(** The grouping in the words of its description, on rows paired with
    their group keys: a row is kept when no earlier row carries its key. *)
Fixpoint firstRowPerKey (seen : list string) (keyed : list (string * Record_))
  : list Record_ :=
  match keyed with
  | [] => []
  | (key, row) :: rest =>
      if includes key seen then firstRowPerKey seen rest
      else row :: firstRowPerKey (seen ++ [key]) rest
  end.

(** The tuple of values the group expressions take on a row. *)
Definition groupTuple (groupByClause : GroupByClause.t) (row : Record_)
  : result (list jsval) :=
  mapM (fun e => evaluateExpression e row) (GroupByClause.expressions groupByClause).

(** The first row of a group, and groups that all hold a row. *)
Definition headOf (g : string * list Record_) : Record_ := hd [] (snd g).

Definition nonEmptyGroups (groups : list (string * list Record_)) : Prop :=
  Forall (fun g => snd g <> []) groups.


(** A driver of the engine in the manner of the test files: commands in
    text, and the selection of the current database. *)
Inductive step : Type :=
| Run (sql : string)
| Use (databaseName : string).

Fixpoint session (now : string) (currentDatabase : option string) (steps : list step)
  : M (list Resposta.t) :=
  match steps with
  | [] => ret []
  | Run sql :: rest =>
      r <~ executeCommand now currentDatabase sql ;;
      rs <~ session now currentDatabase rest ;;
      ret (r :: rs)
  | Use databaseName :: rest => session now (Some databaseName) rest
  end.

(** The world a session leaves behind. *)
Definition worldAfter (now : string) (steps : list step) : World :=
  snd (session now None steps emptyWorld).

(** The rows a command returns in a world. *)
Definition rowsOf (now : string) (currentDatabase : string) (sql : string) (w : World)
  : result (option (list Record_)) :=
  r <- fst (executeCommand now (Some currentDatabase) sql w) ;;
  Ok (Resposta.resultados r).

(** The blog of the test drivers: two users, and the posts table either
    empty or holding one post of the first user. *)
Definition blogSetup : list step :=
  [ Run "criar banco blog"; Use "blog";
    Run "criar tabela usuarios (id:numero, nome:texto)";
    Run "criar tabela posts (id:numero, titulo:texto, usuario_id:numero)";
    Run "inserir em usuarios (id, nome) valores (1, 'ana')";
    Run "inserir em usuarios (id, nome) valores (2, 'bia')" ].

Definition blogWithoutPosts : World := worldAfter "2024" blogSetup.

Definition blogWithOnePost : World :=
  worldAfter "2024"
    (blogSetup ++ [Run "inserir em posts (id, titulo, usuario_id) valores (1, 'ola', 1)"]).

Definition leftJoinQuery : string :=
  "selecionar u.nome, p.titulo de usuarios u esquerda juntar posts p em u.id = p.usuario_id".

Definition postsJoin : JoinClause.t :=
  JoinClause.mk LEFT "posts"
    (BinaryExpression (IdentifierExpression "id" (Some "u")) "="
       (IdentifierExpression "usuario_id" (Some "p")))
    (Some "p").



(** A run that ends well or leaves the model, but never throws. *)
Definition neverThrows {A} (r : result A * World) : Prop :=
  match r with
  | (Ok _, _) | (Err (OutsideModel _), _) => True
  | _ => False
  end.

(** What an auto-increment column holds once the generated values are
    filled in: the next value; or, in a column that is also of type uuid
    and whose next value is the falsy 0, the identifier the uuid rule
    then writes over it. *)
Definition autoOutcome (tableData : Tabela.t) (columnDef : Coluna.t)
    (columnName : string) (v : jsval) : Prop :=
  let next := getNextAutoIncrementValue tableData columnName in
  v = VNum next
  \/ (Coluna.tipo columnDef = "uuid" /\ next = 0%Z /\ exists u, v = VStr u).

(** A table with an auto-increment primary key, as the constraint test
    creates it, and records put in through the storage manager. *)
Definition usersSetup : list step :=
  [ Run "criar banco app"; Use "app";
    Run "criar tabela usuarios (id:numero auto incremento primaria chave, nome:texto)" ].

Definition usersWorld : World := worldAfter "2024" usersSetup.

Definition insertUser (random : nat -> nat) (record : Record_) (w : World)
  : result Resposta.t * World :=
  insertRecord random "app" "usuarios" record w.

Definition afterFirstInsert (random : nat -> nat) : World :=
  snd (insertUser random [("nome", VStr "ana")] usersWorld).

Definition afterSecondInsert (random : nat -> nat) : World :=
  snd (insertUser random [("nome", VStr "bia")] (afterFirstInsert random)).


Definition usersTable (random : nat -> nat) : Tabela.t :=
  match tableAt (afterSecondInsert random) "app" "usuarios" with
  | Some t => t
  | None => Tabela.mk "" [] [] None
  end.

(** The key of the [i]-th record of a table filled by inserts alone. *)
Definition regKey (i : nat) : string := "reg_" ++ natToString i.

(** A table of three items, put in one after the other. *)
Definition itemsSetup : list step :=
  [ Run "criar banco loja"; Use "loja";
    Run "criar tabela itens (id:numero)";
    Run "inserir em itens (id) valores (1)";
    Run "inserir em itens (id) valores (2)";
    Run "inserir em itens (id) valores (3)" ].

Definition threeItems : World := worldAfter "2024" itemsSetup.

Definition itemsTable : Tabela.t :=
  match tableAt threeItems "loja" "itens" with
  | Some t => t
  | None => Tabela.mk "" [] [] None
  end.

Definition storedItems (w : World) : option (obj Record_) :=
  option_map Tabela.registros (tableAt w "loja" "itens").

(** [onde id = i] *)
Definition whereIdIs (i : Z) : option WhereClause.t :=
  Some (WhereClause.mk
          (BinaryExpression (IdentifierExpression "id" None) "="
             (LiteralExpression (VNum i) "NUMBER"))).

(** The fixed vocabulary of direction words. *)
Definition isDirectionWord (v : jsval) : bool :=
  strictEq v (VStr "asc") || strictEq v (VStr "crescente")
  || strictEq v (VStr "desc") || strictEq v (VStr "decrescente").

(** The syntax error raised where no statement can start. *)
Definition unrecognisedCommand (tokens : list Token) (cur : nat) : error :=
  let token := Parser.getCurrentToken tokens cur in
  Thrown ("Erro de sintaxe na posição " ++ natToString (position token)
          ++ ": Comando não reconhecido: " ++ Parser.text token).

(** A query whose ordering term is followed by a word that is no
    direction. *)
Definition strayWordQuery : string := "selecionar * de produtos ordenar por preco foo".

Definition strayWordTokens : list Token :=
  match Lexer.tokenize (Lexer.new strayWordQuery) with
  | Ok tokens => tokens
  | Err _ => []
  end.

(** The shop scenario, in the keywords of the dialect, with the database
    selected once it exists. *)
Definition scenarioA : list step :=
  [ Run "criar banco loja"; Use "loja";
    Run "criar tabela produtos (id: numero, nome: texto, preco: numero)";
    Run ("inserir em produtos (id, nome, preco) valores (1, "
         ++ Parser.quoted "Mouse" ++ ", 50)") ].

Definition scenarioAQuery : string := "selecionar * de produtos onde preco > 10".

(** The row the shop scenario is said to return. *)
Definition mouseRow : Record_ :=
  [("id", VNum 1); ("nome", VStr "Mouse"); ("preco", VNum 50)].

(** The users table of the constraint test. *)
Definition constraintSetup : list step :=
  [ Run "criar banco constraint_test"; Use "constraint_test";
    Run "criar tabela usuarios (id:numero auto incremento primaria chave, email:texto unico nao nulo, nome:texto nao nulo, idade:numero padrao 18, uuid_user:uuid)" ].

Definition constraintWorld : World := worldAfter "2024" constraintSetup.

Definition constraintTable : Tabela.t :=
  match tableAt constraintWorld "constraint_test" "usuarios" with
  | Some t => t
  | None => Tabela.mk "" [] [] None
  end.

Definition insertWithoutEmail : string :=
  "inserir em usuarios (nome) valores ('sem email')".

Definition storedConstraintUsers (w : World) : option (obj Record_) :=
  option_map Tabela.registros (tableAt w "constraint_test" "usuarios").



(** The entries a grouping keeps, with their keys: an entry is kept when
    no earlier entry carries its key. *)
Fixpoint keptEntries (seen : list string) (keyed : list (string * Record_))
  : list (string * Record_) :=
  match keyed with
  | [] => []
  | (key, row) :: rest =>
      if includes key seen then keptEntries seen rest
      else (key, row) :: keptEntries (seen ++ [key]) rest
  end.

(** The two writes [convertTableToResultSet] does for one column. *)
Definition convertStep (effectiveName : string) (row : Record_)
    (campo_valor : string * jsval) : Record_ :=
  let '(campo, valor) := campo_valor in
  set (set row (effectiveName ++ "." ++ campo) valor) campo valor.

(* ------------------------------------------------------------------ *)
(** ** Notions used in the further properties *)

(** *** Runs of the lexer and the parser *)

(** What a run of the lexer or the parser may end in: a result or an
    error of its own, never the exhaustion of its budget. *)
Definition halts {A} (r : result A) : Prop :=
  match r with
  | Err OutOfFuel => False
  | _ => True
  end.

(** The index just past the input, counted from the lexer's state. *)
Definition inputEnd (l : Lexer.t) : nat := Lexer.position l + length (Lexer.rest l).

(** Characters that stand for themselves inside a string literal opened
    by [quote]. *)
Definition plainIn (quote : ascii) (s : list ascii) : Prop :=
  Forall (fun c => c <> quote /\ c <> "\"%char) s.

(** An input made of white space alone. *)
Definition blank (sql : string) : bool :=
  forallb Lexer.isSpace (list_ascii_of_string sql).

(** A token list as the lexer returns it: not empty, its last token EOF. *)
Definition endsWithEOF (tokens : list Token) : Prop :=
  tokens <> [] /\ type (last tokens (mkToken EOF VNull 0)) = EOF.

(** A parsing method called at some index ends, and when it returns it
    leaves the index at [lo] or beyond. *)
Definition advances {A} (lo : nat) (r : result (A * nat)) : Prop :=
  match r with
  | Ok (_, currentToken) => lo <= currentToken
  | Err OutOfFuel => False
  | Err _ => True
  end.

(** The syntax error [consume] raises at [cur] when it expects
    [expected]. *)
Definition unexpectedToken (tokens : list Token) (cur : nat) (expected : TokenType) : error :=
  let token := Parser.getCurrentToken tokens cur in
  Thrown ("Erro de sintaxe na posição " ++ natToString (position token)
          ++ ": Esperado " ++ TokenType_name expected ++ ", encontrado "
          ++ TokenType_name (type token)).

Create HintDb adv.

(** The steps the proofs about the parser's progress repeat, given the
    lemmas on sequencing and on weakening: follow the calls in sequence,
    split on the tests, and close a return by arithmetic. *)
Ltac advance_with sequencing weakening :=
  repeat first
    [ exact I
    | progress cbv beta iota zeta
    | match goal with
      | |- advances _ (Ok _) => simpl; lia
      | |- advances _ (bind _ _) =>
          eapply sequencing; [ solve [eauto with adv] | intros ? ? ? ]
      | |- advances _ (if ?b then _ else _) => destruct b eqn:?
      | |- advances _ (match ?x with (_, _) => _ end) => destruct x
      end
    | solve [eauto with adv]
    | solve [eapply weakening; [ | solve [eauto with adv] ]; lia] ].

(** The step for a comma-separated list of [item]s. *)
Ltac items_with sequencing weakening list_lemma nonempty_lemma item :=
  eapply sequencing;
  [ apply list_lemma;
    [ intros; eapply weakening; [ | apply item ]; lia
    | pose proof nonempty_lemma; lia ]
  | intros ? ? ? ].

(** *** Replies *)

(** The reply of the executor to a statement that raised [message]. *)
Definition failure (message : string) : Resposta.t :=
  Resposta.mk false ("❌ Erro na execução: " ++ message) None.

(** The reply to a program that is not a single statement. *)
Definition notOneStatement : Resposta.t :=
  failure "Tipo de comando não implementado: Array".

Definition databaseCreated (databaseName : string) : Resposta.t :=
  Resposta.mk true ("✅ Banco '" ++ databaseName ++ "' criado com sucesso") None.

Definition databaseExistsAlready (databaseName : string) : Resposta.t :=
  Resposta.mk false ("❌ Banco '" ++ databaseName ++ "' já existe") None.

Definition tableCreated (tableName : string) : Resposta.t :=
  Resposta.mk true ("✅ Tabela '" ++ tableName ++ "' criada com sucesso") None.

Definition tableExistsAlready (tableName : string) : Resposta.t :=
  Resposta.mk false ("❌ Tabela '" ++ tableName ++ "' já existe") None.

Definition recordInserted (tableName : string) : Resposta.t :=
  Resposta.mk true ("✅ Registro inserido na tabela '" ++ tableName ++ "' com sucesso") None.

(** The reply to a DELETE that removed [n] records. *)
Definition recordsRemoved (n : nat) (tableName : string) : Resposta.t :=
  Resposta.mk true
    ("✅ " ++ natToString n ++ " registro(s) removido(s) da tabela '" ++ tableName ++ "'")
    None.

(** *** Computations and the store *)

(** A computation that leaves the world as it found it. *)
Definition readOnly {A} (m : M A) : Prop := forall w, snd (m w) = w.

(** A computation that leaves the stored data as it found them. *)
Definition keepsData {A} (m : M A) : Prop := forall w, dados (snd (m w)) = dados w.

(** A command that changes the world only when it reports success. *)
Definition allOrNothing (m : M Resposta.t) : Prop :=
  forall w,
    match m w with
    | (Ok reply, w') => Resposta.sucesso reply = false -> w' = w
    | (Err _, w') => w' = w
    end.

Definition isCreateDatabase (statement : Statement) : bool :=
  match statement with CreateDatabase _ => true | _ => false end.

(** The table constraints as [createTable] stores them. *)
Definition storedConstraints (tableConstraints : list TableConstraint.t)
  : option (list TableConstraint.t) :=
  match tableConstraints with [] => None | _ => Some tableConstraints end.

(** *** Conditions, joins and orderings *)

(** The four operators [evaluateExpression] computes. *)
Definition isArithmetic (operator : string) : bool :=
  (operator =? "+") || (operator =? "-") || (operator =? "*") || (operator =? "/").

(** The rows an inner join pairs: every left row with every right row
    on which the condition holds, left rows outermost. *)
Definition matchingPairs (hit : Record_ -> Record_ -> bool)
    (leftResultSet rightResultSet : list Record_) : list Record_ :=
  flat_map (fun leftRow => map (assign leftRow) (filter (hit leftRow) rightResultSet))
    leftResultSet.

(** The same join with another join type. *)
Definition withJoinType (joinType : TokenType) (joinClause : JoinClause.t) : JoinClause.t :=
  JoinClause.mk joinType (JoinClause.tableName joinClause)
    (JoinClause.onCondition joinClause) (JoinClause.alias joinClause).

(** An ORDER BY clause of one ordering term. *)
Definition orderBy (expression : Expr) (direction : string) : OrderByClause.t :=
  OrderByClause.mk [OrderByExpression.mk expression direction].

(** The ordering term has the number [key row] on [row]. *)
Definition keyedBy (expression : Expr) (key : Record_ -> Z) (row : Record_) : Prop :=
  evaluateExpression expression row = Ok (VNum (key row)).

(** The order of two rows under one ordering term whose values are the
    numbers [key] gives. *)
Definition inOrder (key : Record_ -> Z) (direction : string) (a b : Record_) : Prop :=
  if direction =? "DESC" then (key b <= key a)%Z else (key a <= key b)%Z.

(** No character of the text ends a line. *)
Definition singleLine (s : string) : bool :=
  forallb (fun c => negb (isLineTerminator c)) (list_ascii_of_string s).

(** The name a column goes by in a result row, next to its bare name. *)
Definition qualified (effectiveName campo : string) : string :=
  effectiveName ++ "." ++ campo.

(** No column of the record bears a name that is itself qualified with
    [effectiveName]. *)
Definition plainColumns (effectiveName : string) (registro : Record_) : Prop :=
  forall campo, In campo (keys registro) -> startsWith campo (effectiveName ++ ".") = false.

(** A select list of two columns of the same name. *)
Definition twoColumns (name : string) (first second : option string)
  : list ColumnExpression.t :=
  [ColumnExpression.mk (IdentifierExpression name first) None;
   ColumnExpression.mk (IdentifierExpression name second) None].

(** *** Constraints *)

(** A text without the comma that separates the stored constraints. *)
Definition noComma (s : string) : bool :=
  forallb (fun c => negb (Ascii.eqb c ",")) (list_ascii_of_string s).

(** [0-9a-f] *)
Definition isHexDigit (c : ascii) : bool :=
  let n := nat_of_ascii c in isDigit c || ((97 <=? n) && (n <=? 102))%nat.

Definition uuidTemplate : list ascii :=
  list_ascii_of_string "xxxxxxxx-xxxx-4xxx-yxxx-xxxxxxxxxxxx".

(** What the identifier holds where the template holds [t]. *)
Definition fillsTemplate (t c : ascii) : Prop :=
  if Ascii.eqb t "x" then isHexDigit c = true
  else if Ascii.eqb t "y" then In c ["8"; "9"; "a"; "b"]%char
  else c = t.

(** The DEFAULT among the constraints of a column, if there is one. *)
Definition defaultOf (columnDef : Coluna.t) : option string :=
  find (fun c => startsWith c "DEFAULT:") (parseConstraints (Coluna.constraints columnDef)).

(** The text of a DEFAULT as the validator reads it back. *)
Definition upToColon (text : string) : string := hd "" (split ":" text).

(** What [validateInsert] holds against the value of one column: a null
    where NOT NULL or PRIMARY KEY forbids it, or a value some stored
    record already has in a PRIMARY KEY or UNIQUE column. *)
Definition violates (tableData : Tabela.t) (columnName : string) (columnDef : Coluna.t)
    (value : jsval) : bool :=
  let constraints := parseConstraints (Coluna.constraints columnDef) in
  if nullish value
  then includes "NOT_NULL" constraints || includes "PRIMARY_KEY" constraints
  else (includes "PRIMARY_KEY" constraints || includes "UNIQUE" constraints)
       && someRecordHas (Tabela.registros tableData) columnName value.


(** *** Examples *)

(** The rows of the users of the blog once only the name is selected. *)
Definition namesOnly : list Record_ := [[("nome", VStr "ana")]; [("nome", VStr "bia")]].

(** A posts table declared with a foreign key, and the statement the
    parser makes of the declaration. *)
Definition postsWithForeignKey : string :=
  "criar tabela posts (id:numero, usuario_id:numero, estrangeira chave (usuario_id) referencia usuarios (id))".

Definition postsStatement : Statement :=
  CreateTableStatement "posts"
    [ColumnDefinition.mk "id" "numero" [] None false;
     ColumnDefinition.mk "usuario_id" "numero" [] None false]
    [TableConstraint.mk "FOREIGN_KEY" "usuario_id" (Some ("usuarios", "id"))].

Definition emptyBlog : World :=
  worldAfter "2024" [Run "criar banco blog"; Use "blog"; Run "criar tabela usuarios (id:numero)"].




(** A table with one text column whose default has a colon in it. *)
Definition agenda : Tabela.t :=
  Tabela.mk "2024" [("hora", Coluna.mk "texto" "DEFAULT:12:30")] [] None.

(* ------------------------------------------------------------------ *)
(** * Properties *)

(** ** Objects *)

Section ObjectFacts.

Context {A : Type}.
Implicit Types (o : obj A) (k : string) (v : A).

Lemma has_true_iff o k : has o k = true <-> In k (keys o).
Proof.
  unfold has. induction o as [|[k' v'] o IH]; simpl.
  - split; [discriminate | tauto].
  - destruct (String.eqb_spec k k') as [->|Hne].
    + split; auto.
    + rewrite IH. split; [auto | intros [Heq|H]; [congruence | exact H]].
Qed.

Lemma has_false_iff o k : has o k = false <-> ~ In k (keys o).
Proof.
  rewrite <- has_true_iff. destruct (has o k); split; congruence.
Qed.

Lemma lookup_replace o k v k' :
  lookup (replace o k v) k' =
  if has o k && (k =? k') then Some v else lookup o k'.
Proof.
  unfold has. induction o as [|[k0 v0] o IH]; simpl; [reflexivity|].
  destruct (String.eqb_spec k k0) as [->|Hne]; simpl.
  - destruct (String.eqb_spec k' k0) as [->|Hne'].
    + rewrite String.eqb_refl. reflexivity.
    + destruct (String.eqb_spec k0 k'); [congruence | reflexivity].
  - destruct (String.eqb_spec k' k0) as [->|Hne'].
    + destruct (String.eqb_spec k k0); [congruence|].
      rewrite andb_false_r. reflexivity.
    + exact IH.
Qed.

Lemma keys_replace o k v : keys (replace o k v) = keys o.
Proof.
  induction o as [|[k0 v0] o IH]; simpl; [reflexivity|].
  destruct (k =? k0); simpl; [reflexivity | now rewrite IH].
Qed.

Lemma lookup_insertIndex n o k v k' :
  lookup o k = None ->
  lookup (insertIndex n k v o) k' = if k =? k' then Some v else lookup o k'.
Proof.
  induction o as [|[k0 v0] o IH]; simpl; intros Hno.
  - rewrite String.eqb_sym. reflexivity.
  - destruct (String.eqb_spec k k0) as [->|Hne]; [discriminate|].
    assert (Hhead : lookup ((k, v) :: (k0, v0) :: o) k'
                    = if k =? k' then Some v else lookup ((k0, v0) :: o) k').
    { simpl. rewrite (String.eqb_sym k' k). reflexivity. }
    destruct (arrayIndex k0) as [m|]; [|exact Hhead].
    destruct (m <? n)%N; [|exact Hhead].
    simpl. destruct (String.eqb_spec k' k0) as [->|Hne'].
    + destruct (String.eqb_spec k k0); [congruence | reflexivity].
    + apply IH, Hno.
Qed.

Lemma lookup_app_single o k v k' :
  lookup o k = None ->
  lookup (o ++ [(k, v)]) k' = if k =? k' then Some v else lookup o k'.
Proof.
  induction o as [|[k0 v0] o IH]; simpl; intros Hno.
  - rewrite String.eqb_sym. reflexivity.
  - destruct (String.eqb_spec k k0) as [->|Hne]; [discriminate|].
    destruct (String.eqb_spec k' k0) as [->|Hne'].
    + destruct (String.eqb_spec k k0); [congruence | reflexivity].
    + apply IH, Hno.
Qed.

(** Reading a property after a write. *)
Lemma lookup_set o k v k' :
  lookup (set o k v) k' = if k =? k' then Some v else lookup o k'.
Proof.
  unfold set. destruct (has o k) eqn:Hhas.
  - rewrite lookup_replace, Hhas. reflexivity.
  - assert (Hno : lookup o k = None).
    { unfold has in Hhas. destruct (lookup o k); [discriminate | reflexivity]. }
    destruct (arrayIndex k).
    + apply lookup_insertIndex, Hno.
    + apply lookup_app_single, Hno.
Qed.

(** Writing an existing property keeps the property names and their order. *)
Lemma keys_set_present o k v : In k (keys o) -> keys (set o k v) = keys o.
Proof.
  intros Hin. apply has_true_iff in Hin. unfold set. rewrite Hin.
  apply keys_replace.
Qed.

(** A new name that is not an array index goes last. *)
Lemma set_fresh o k v :
  ~ In k (keys o) -> arrayIndex k = None -> set o k v = o ++ [(k, v)].
Proof.
  intros Hnin Hidx. apply has_false_iff in Hnin. unfold set.
  rewrite Hnin, Hidx. reflexivity.
Qed.



Lemma assign_nil (target : obj A) : assign target [] = target.
Proof. reflexivity. Qed.


End ObjectFacts.

Lemma getv_set (o : obj jsval) k v k' :
  getv (set o k v) k' = if k =? k' then v else getv o k'.
Proof.
  unfold getv. rewrite lookup_set. destruct (k =? k'); reflexivity.
Qed.

(* ------------------------------------------------------------------ *)
(** ** The contextual keyword [em] *)

Section TokenWindow.

Import Lexer.

Lemma lastN_short {A} n (l : list A) : length l <= n -> lastN n l = l.
Proof.
  intros H. unfold lastN. replace (length l - n) with 0 by lia. reflexivity.
Qed.








(** The two statements of the test drivers, lexed from text. *)
Example em_after_inserir :
  tokenTypes (tokenize (Lexer.new "inserir em usuarios (nome) valores ('ana')"))
  = Ok [INSERT; INTO; IDENTIFIER; OPEN_PAREN; IDENTIFIER; CLOSE_PAREN; VALUES;
        OPEN_PAREN; STRING; CLOSE_PAREN; EOF].
Proof. reflexivity. Qed.

Example em_after_juntar :
  tokenTypes (tokenize (Lexer.new "selecionar * de usuarios u juntar posts p em u.id = p.usuario_id"))
  = Ok [SELECT; ASTERISK; FROM; IDENTIFIER; IDENTIFIER; JOIN; IDENTIFIER; IDENTIFIER;
        ON; IDENTIFIER; DOT; IDENTIFIER; EQUALS; IDENTIFIER; DOT; IDENTIFIER; EOF].
Proof. reflexivity. Qed.

End TokenWindow.

(* ------------------------------------------------------------------ *)
(** ** LIKE *)

Example like_prefix_pattern :
  evaluateLike (VStr "joao") (VStr "jo%") = true
  /\ evaluateLike (VStr "john") (VStr "jo%") = true
  /\ evaluateLike (VStr "maria") (VStr "jo%") = false
  /\ evaluateLike (VStr "JOAO") (VStr "j_a%") = true
  /\ evaluateLike (VStr "a.c") (VStr "a.c") = true
  /\ evaluateLike (VStr "abc") (VStr "a.c") = false.
Proof. repeat split. Qed.

(** C10.  LIKE never raises: when the matched value or the pattern is
    not a string (null from a LEFT join, a number, ...) it is false, and
    inside a condition whose operands evaluate it always yields a
    boolean. *)
Theorem evaluateLike_non_string :
  forall value pattern : jsval,
    typeOf value <> TString \/ typeOf pattern <> TString ->
    evaluateLike value pattern = false
    /\ (forall l r operator row,
          operator = "like" \/ operator = "como" ->
          evaluateExpression l row = Ok value ->
          evaluateExpression r row = Ok pattern ->
          evaluateCondition (BinaryExpression l operator r) row = Ok false).
Proof.
  intros value pattern Hns.
  assert (Hfalse : evaluateLike value pattern = false).
  { destruct value, pattern; simpl in *; try reflexivity.
    destruct Hns as [H|H]; congruence. }
  split; [exact Hfalse|].
  intros l r operator row Hop Hl Hr. simpl. rewrite Hl, Hr. simpl.
  destruct Hop as [-> | ->]; simpl; now rewrite Hfalse.
Qed.

Lemma evaluateLike_non_string_witness :
  (typeOf VNull <> TString \/ typeOf (VStr "jo%") <> TString)
  /\ evaluateLike VNull (VStr "jo%") = false
  /\ evaluateCondition
       (BinaryExpression (IdentifierExpression "titulo" (Some "p")) "como"
          (LiteralExpression (VStr "jo%") "STRING"))
       [("p.titulo", VNull)] = Ok false.
Proof.
  assert (H : typeOf VNull <> TString \/ typeOf (VStr "jo%") <> TString)
    by (left; discriminate).
  destruct (evaluateLike_non_string VNull (VStr "jo%") H) as [Hlike Hcond].
  split; [exact H|]. split; [exact Hlike|].
  apply Hcond; [right; reflexivity | reflexivity | reflexivity].
Defined.

(* ------------------------------------------------------------------ *)
(** ** GROUP BY *)

Section GroupBy.

Variable groupByClause : GroupByClause.t.

Lemma firsts_of_groups groups :
  nonEmptyGroups groups ->
  mapM firstOfGroup (map snd groups) = Ok (map headOf groups).
Proof.
  induction 1 as [|[k g] groups Hg _ IH]; simpl; [reflexivity|].
  destruct g as [|row g]; [now elim Hg|]. simpl. rewrite IH. reflexivity.
Qed.

Lemma pushToGroup_known groups key row :
  nonEmptyGroups groups ->
  includes key (map fst groups) = true ->
  map fst (pushToGroup groups key row) = map fst groups
  /\ map headOf (pushToGroup groups key row) = map headOf groups
  /\ nonEmptyGroups (pushToGroup groups key row).
Proof.
  unfold includes.
  induction 1 as [|[k g] groups Hg Hrest IH]; simpl; [discriminate|].
  destruct (String.eqb_spec key k) as [->|Hne]; simpl.
  - intros _. repeat split.
    + unfold headOf. simpl. destruct g; [now elim Hg | reflexivity].
    + constructor; [|exact Hrest]. simpl. now destruct g.
  - intros Hin. destruct (IH Hin) as (Hk & Hh & Hn). repeat split.
    + now rewrite Hk.
    + now rewrite Hh.
    + constructor; assumption.
Qed.

Lemma pushToGroup_new groups key row :
  includes key (map fst groups) = false ->
  pushToGroup groups key row = groups ++ [(key, [row])].
Proof.
  unfold includes.
  induction groups as [|[k g] groups IH]; simpl; [reflexivity|].
  destruct (String.eqb_spec key k) as [->|Hne]; simpl; [discriminate|].
  intros Hin. now rewrite IH.
Qed.

(** The loop over the rows, started from any collection of groups. *)
Lemma collectGroups_firstRowPerKey resultSet :
  forall groups,
    nonEmptyGroups groups ->
    (gs <- collectGroups groupByClause resultSet groups ;;
     mapM firstOfGroup (map snd gs))
    = (ks <- mapM (groupKey groupByClause) resultSet ;;
       Ok (map headOf groups
           ++ firstRowPerKey (map fst groups) (combine ks resultSet))).
Proof.
  induction resultSet as [|row rest IH]; intros groups Hgood; simpl.
  - rewrite firsts_of_groups by exact Hgood. now rewrite app_nil_r.
  - destruct (groupKey groupByClause row) as [key|e]; simpl; [|reflexivity].
    destruct (includes key (map fst groups)) eqn:Hknown.
    + destruct (pushToGroup_known groups key row Hgood Hknown) as (Hk & Hh & Hn).
      rewrite (IH _ Hn), Hk, Hh.
      destruct (mapM (groupKey groupByClause) rest); simpl; [|reflexivity].
      now rewrite Hknown.
    + rewrite (pushToGroup_new _ _ _ Hknown).
      assert (Hn : nonEmptyGroups (groups ++ [(key, [row])])).
      { apply Forall_app. split; [exact Hgood|]. constructor; [discriminate | constructor]. }
      rewrite (IH _ Hn), !map_app. simpl.
      destruct (mapM (groupKey groupByClause) rest); simpl; [|reflexivity].
      rewrite Hknown, <- app_assoc. reflexivity.
Qed.

End GroupBy.

Lemma includes_true_iff x l : includes x l = true <-> In x l.
Proof.
  unfold includes. rewrite existsb_exists. split.
  - intros (y & Hin & Heq). apply String.eqb_eq in Heq. now subst.
  - intros Hin. exists x. split; [exact Hin | apply String.eqb_refl].
Qed.

Lemma firstRowPerKey_keptEntries keyed :
  forall seen, firstRowPerKey seen keyed = map snd (keptEntries seen keyed).
Proof.
  induction keyed as [|[key row] keyed IH]; intros seen; simpl; [reflexivity|].
  destruct (includes key seen); simpl; now rewrite IH.
Qed.

(** The entries kept are one per key, cover every key, and each is the
    first entry of the input with its key. *)
Lemma keptEntries_spec keyed :
  forall seen,
    let kept := keptEntries seen keyed in
    NoDup (map fst kept)
    /\ (forall k, In k (map fst kept) -> ~ In k seen)
    /\ (forall k, In k (map fst keyed) -> In k seen \/ In k (map fst kept))
    /\ (forall k r, In (k, r) kept ->
          exists before after,
            keyed = before ++ (k, r) :: after /\ ~ In k (map fst before)).
Proof.
  induction keyed as [|[key row] keyed IH]; intros seen; simpl.
  - repeat split; try constructor; intros; contradiction.
  - destruct (includes key seen) eqn:Hseen.
    + apply includes_true_iff in Hseen.
      destruct (IH seen) as (Hnd & Hout & Hcover & Hfirst).
      repeat split; auto.
      * intros k [<-|Hk]; auto.
      * intros k r Hin. destruct (Hfirst k r Hin) as (before & after & -> & Hbefore).
        exists ((key, row) :: before), after. split; [reflexivity|].
        simpl. intros [<-|H]; [|contradiction].
        apply (Hout key); [|exact Hseen].
        apply in_map_iff. now exists (key, r).
    + assert (Hnew : ~ In key seen).
      { intros H. apply includes_true_iff in H. congruence. }
      destruct (IH (seen ++ [key])) as (Hnd & Hout & Hcover & Hfirst).
      assert (Hlater : forall k, In k (map fst (keptEntries (seen ++ [key]) keyed)) ->
                ~ In k seen /\ k <> key).
      { intros k Hk. specialize (Hout k Hk). split.
        - intros H. apply Hout, in_or_app. now left.
        - intros ->. apply Hout, in_or_app. right. now left. }
      simpl. repeat split.
      * constructor; [|exact Hnd]. intros H. now destruct (Hlater key H).
      * intros k [<-|Hk]; [exact Hnew | now destruct (Hlater k Hk)].
      * intros k [<-|Hk]; [right; now left|].
        destruct (Hcover k Hk) as [H|H]; [|right; now right].
        apply in_app_or in H. destruct H as [H|[<-|[]]]; [now left | right; now left].
      * intros k r [Heq|Hin].
        -- inversion Heq; subst. exists [], keyed. split; [reflexivity | intros []].
        -- destruct (Hfirst k r Hin) as (before & after & -> & Hbefore).
           exists ((key, row) :: before), after. split; [reflexivity|].
           simpl. intros [<-|H]; [|contradiction].
           assert (Hk : In key (map fst (keptEntries (seen ++ [key]) (before ++ (key, r) :: after)))).
           { apply in_map_iff. now exists (key, r). }
           now destruct (Hlater key Hk).
Qed.

(** C7, as the code has it.  Grouping keeps exactly one row per distinct
    group key, the key of a row being the string forms of its group
    values joined with a bar, and the row kept is the first one in input
    order with that key; it fails exactly when a group expression fails
    on some row.  The second part spells out what keeping the first row
    per key means: the kept keys are pairwise distinct, they are the keys
    of the input, and no entry in front of a kept entry has its key. *)
Theorem applyGroupBy_first_row_per_key :
  forall (resultSet : list Record_) (groupByClause : GroupByClause.t),
    applyGroupBy resultSet groupByClause
    = (ks <- mapM (groupKey groupByClause) resultSet ;;
       Ok (firstRowPerKey [] (combine ks resultSet)))
    /\ (forall keyed : list (string * Record_),
          let kept := keptEntries [] keyed in
          firstRowPerKey [] keyed = map snd kept
          /\ NoDup (map fst kept)
          /\ (forall k, In k (map fst keyed) <-> In k (map fst kept))
          /\ (forall k r, In (k, r) kept ->
                exists before after,
                  keyed = before ++ (k, r) :: after /\ ~ In k (map fst before))).
Proof.
  intros resultSet groupByClause. split.
  - unfold applyGroupBy.
    apply (collectGroups_firstRowPerKey groupByClause resultSet []). constructor.
  - intros keyed kept.
    destruct (keptEntries_spec keyed []) as (Hnd & _ & Hcover & Hfirst).
    split; [apply firstRowPerKey_keptEntries|]. split; [exact Hnd|]. split; [|exact Hfirst].
    intros k. split.
    + intros Hk. destruct (Hcover k Hk) as [[]|H]. exact H.
    + intros Hk. apply in_map_iff in Hk. destruct Hk as ([k' r] & <- & Hin).
      destruct (Hfirst k' r Hin) as (before & after & -> & _).
      rewrite map_app. apply in_or_app. right. now left.
Qed.

(** C7, as stated, fails: two rows whose value tuples differ share the
    key [x|y|z] and are merged into one group. *)
Lemma applyGroupBy_merges_distinct_tuples :
  let groupByClause :=
    GroupByClause.mk [IdentifierExpression "a" None; IdentifierExpression "b" None] in
  let r1 : Record_ := [("a", VStr "x|y"); ("b", VStr "z")] in
  let r2 : Record_ := [("a", VStr "x"); ("b", VStr "y|z")] in
  groupTuple groupByClause r1 = Ok [VStr "x|y"; VStr "z"]
  /\ groupTuple groupByClause r2 = Ok [VStr "x"; VStr "y|z"]
  /\ groupTuple groupByClause r1 <> groupTuple groupByClause r2
  /\ applyGroupBy [r1; r2] groupByClause = Ok [r1].
Proof.
  cbv zeta. repeat split. discriminate.
Qed.

(* ------------------------------------------------------------------ *)
(** ** LEFT JOIN *)

Lemma append_assoc (a b c : string) : ((a ++ b) ++ c = a ++ (b ++ c))%string.
Proof. induction a as [|x a IH]; simpl; [reflexivity | now rewrite IH]. Qed.

Lemma startsWith_prefix p s : startsWith (p ++ s) p = true.
Proof.
  induction p as [|c p IH]; simpl; [now destruct s|].
  now rewrite Ascii.eqb_refl, IH.
Qed.

Section ConvertRecord.

Variable effectiveName : string.



End ConvertRecord.

Section NullKeys.

Variable prefix : string.





End NullKeys.

Section LeftJoin.

Variable rightResultSet : list Record_.
Variable joinClause : JoinClause.t.




End LeftJoin.


(** The LEFT JOIN of users with posts when one user has a post and the
    other has none: the second gets one row, its title null. *)
Example left_join_with_posts :
  rowsOf "2024" "blog" leftJoinQuery blogWithOnePost
  = Ok (Some [[("nome", VStr "ana"); ("titulo", VStr "ola")];
              [("nome", VStr "bia"); ("titulo", VNull)]]).
Proof. vm_compute. reflexivity. Qed.


(* ------------------------------------------------------------------ *)
(** ** AUTO INCREMENT *)

Section NextValue.

Local Open Scope Z_scope.






End NextValue.

Section AutoValues.

Variable random : nat -> nat.
Variable tableData : Tabela.t.

Lemma generateUUID_ok w : exists u w', generateUUID random w = (Ok u, w').
Proof.
  unfold generateUUID. destruct (uuidFill random _ (drawn w)) as [out k]. eauto.
Qed.

Lemma parseDefaultValue_neverThrows defaultValue type w :
  neverThrows (parseDefaultValue random defaultValue type w).
Proof.
  destruct (generateUUID_ok w) as (u & w' & Hu).
  unfold parseDefaultValue, lift, ret, bindM, Lexer.parseFloat.
  repeat match goal with
         | |- context [if ?b then _ else _] => destruct b
         end; cbv beta; rewrite ?Hu; exact I.
Qed.

Lemma applyAutoColumn_spec record columnName columnDef w :
  match applyAutoColumn random tableData record (columnName, columnDef) w with
  | (Ok record', _) =>
      (forall k, k <> columnName -> getv record' k = getv record k)
      /\ (includes "AUTO_INCREMENT" (parseConstraints (Coluna.constraints columnDef)) = true ->
          truthy (getv record columnName) = false ->
          autoOutcome tableData columnDef columnName (getv record' columnName))
  | (Err (OutsideModel _), _) => True
  | _ => False
  end.
Proof.
  unfold applyAutoColumn, bindM, ret, autoOutcome.
  set (constraints := parseConstraints (Coluna.constraints columnDef)).
  set (next := getNextAutoIncrementValue tableData columnName).
  set (record1 := if includes "AUTO_INCREMENT" constraints && negb (truthy (getv record columnName))
                  then set record columnName (VNum next) else record).
  assert (H1 : forall k, k <> columnName -> getv record1 k = getv record k).
  { intros k Hk. unfold record1. destruct (_ && _); [|reflexivity].
    rewrite getv_set. destruct (String.eqb_spec columnName k); [congruence | reflexivity]. }
  assert (H1' : includes "AUTO_INCREMENT" constraints = true ->
                truthy (getv record columnName) = false ->
                getv record1 columnName = VNum next).
  { intros Ha Hf. unfold record1. rewrite Ha, Hf. simpl.
    now rewrite getv_set, String.eqb_refl. }
  assert (Hother : forall v k, k <> columnName ->
            getv (set record1 columnName v) k = getv record k).
  { intros v k Hk. rewrite getv_set.
    destruct (String.eqb_spec columnName k); [congruence | now apply H1]. }
  destruct (generateUUID_ok w) as (u & w1 & Hu).
  destruct ((Coluna.tipo columnDef =? "uuid") && negb (truthy (getv record1 columnName)))
    eqn:Huuid; cbv beta.
  - (* the uuid rule writes over the column *)
    rewrite Hu.
    assert (Hnn : nullish (getv (set record1 columnName (VStr u)) columnName) = false)
      by now rewrite getv_set, String.eqb_refl.
    assert (Hgoal :
      (forall k, k <> columnName ->
         getv (set record1 columnName (VStr u)) k = getv record k)
      /\ (includes "AUTO_INCREMENT" constraints = true ->
          truthy (getv record columnName) = false ->
          getv (set record1 columnName (VStr u)) columnName = VNum next
          \/ (Coluna.tipo columnDef = "uuid" /\ next = 0%Z
              /\ exists u0, getv (set record1 columnName (VStr u)) columnName = VStr u0))).
    { split; [intros k Hk; now apply Hother|].
      intros Ha Hf. right.
      apply andb_prop in Huuid. destruct Huuid as [Ht Hfalsy].
      rewrite (H1' Ha Hf) in Hfalsy. simpl in Hfalsy.
      repeat split.
      - now apply String.eqb_eq.
      - apply negb_true_iff, negb_false_iff, Z.eqb_eq in Hfalsy. exact Hfalsy.
      - exists u. now rewrite getv_set, String.eqb_refl. }
    destruct (find _ constraints); [rewrite Hnn|]; exact Hgoal.
  - (* the column keeps what the auto-increment rule left *)
    destruct (find _ constraints) as [defaultConstraint|].
    + destruct (nullish (getv record1 columnName)) eqn:Hnull.
      * pose proof (parseDefaultValue_neverThrows
                      (nth 1 (split ":" defaultConstraint) "undefined")
                      (Coluna.tipo columnDef) w) as Hd.
        destruct (parseDefaultValue random _ _ w) as [[v|[]] w2]; try exact Hd.
        split; [intros k Hk; now apply Hother|].
        intros Ha Hf. rewrite (H1' Ha Hf) in Hnull. discriminate.
      * split; [exact H1 | intros Ha Hf; left; now apply H1'].
    + split; [exact H1 | intros Ha Hf; left; now apply H1'].
Qed.

Lemma forEachM_cons {A S} (body : S -> A -> M S) a l s :
  forEachM body (a :: l) s = bindM (body s a) (fun s' => forEachM body l s').
Proof. reflexivity. Qed.

(** The loop over the columns: the columns other than [columnName] leave
    its value alone. *)
Lemma applyAutoValues_other columnName columns :
  ~ In columnName (keys columns) ->
  forall record w,
    match forEachM (applyAutoColumn random tableData) columns record w with
    | (Ok record', _) => getv record' columnName = getv record columnName
    | (Err (OutsideModel _), _) => True
    | _ => False
    end.
Proof.
  induction columns as [|[c def] columns IH]; intros Hnin record w; [reflexivity|].
  rewrite forEachM_cons. unfold bindM.
  pose proof (applyAutoColumn_spec record c def w) as Hc.
  destruct (applyAutoColumn random tableData record (c, def) w) as [[record1|[]] w1];
    try exact Hc.
  destruct Hc as [Hkeep _].
  assert (Hrest : ~ In columnName (keys columns)) by (simpl in Hnin; tauto).
  specialize (IH Hrest record1 w1).
  destruct (forEachM _ columns record1 w1) as [[record2|[]] w2]; try exact IH.
  rewrite IH. apply Hkeep. simpl in Hnin. intros ->. tauto.
Qed.


End AutoValues.




(* ------------------------------------------------------------------ *)
(** ** Record keys *)

Section Worlds.

Variables (databaseName tableName : string).
Hypothesis named : databaseName <> "".

Lemma run_selectedDatabase w :
  selectedDatabase (Some databaseName) w = (Ok databaseName, w).
Proof.
  unfold selectedDatabase, present, orElse.
  destruct (String.eqb_spec databaseName ""); [contradiction | reflexivity].
Qed.

Lemma run_loadTable w :
  loadTable databaseName tableName w = (Ok (tableAt w databaseName tableName), w).
Proof.
  unfold loadTable, loadDatabase, bindM, tableAt, ret.
  destruct (lookup (dados w) databaseName); reflexivity.
Qed.

Lemma run_requireTable w tableData :
  tableAt w databaseName tableName = Some tableData ->
  requireTable databaseName tableName w = (Ok tableData, w).
Proof.
  intros H. unfold requireTable, bindM. rewrite run_loadTable, H. reflexivity.
Qed.

Lemma run_saveTable w old tableData :
  tableAt w databaseName tableName = Some old ->
  exists w',
    saveTable databaseName tableName tableData w = (Ok tt, w')
    /\ tableAt w' databaseName tableName = Some tableData.
Proof.
  unfold tableAt, saveTable, loadDatabase, saveDatabase, bindM. intros H.
  destruct (lookup (dados w) databaseName) as [db|]; [|discriminate].
  eexists. split; [reflexivity|].
  cbn [dados]. rewrite lookup_set, String.eqb_refl. cbn [Banco.tabelas].
  now rewrite lookup_set, String.eqb_refl.
Qed.

Lemma run_executeDelete w tableData whereClause remainingRecords deletedCount :
  tableAt w databaseName tableName = Some tableData ->
  deleteRecords whereClause (Tabela.registros tableData) [] 0
    = Ok (remainingRecords, deletedCount) ->
  exists r w',
    executeDelete (Some databaseName) tableName whereClause w = (Ok r, w')
    /\ Resposta.sucesso r = true
    /\ tableAt w' databaseName tableName
       = Some (Tabela.withRegistros remainingRecords tableData).
Proof.
  intros Ht Hd. unfold executeDelete, bindM.
  rewrite run_selectedDatabase, (run_requireTable _ _ Ht).
  unfold lift. rewrite Hd.
  destruct (run_saveTable w tableData (Tabela.withRegistros remainingRecords tableData) Ht)
    as (w' & -> & Hw').
  do 2 eexists. split; [reflexivity|]. split; [reflexivity | exact Hw'].
Qed.

Lemma run_executeInsert w tableData columns values newRecord :
  tableAt w databaseName tableName = Some tableData ->
  let effective :=
    match columns with
    | Some cs => cs
    | None => keys (Tabela.colunas tableData)
    end in
  length values = length effective ->
  buildRecord tableData effective values [] = Ok newRecord ->
  exists r w',
    executeInsert (Some databaseName) tableName columns values w = (Ok r, w')
    /\ Resposta.sucesso r = true
    /\ tableAt w' databaseName tableName
       = Some (Tabela.withRegistros
                 (set (Tabela.registros tableData)
                    (nextRecordKey (Tabela.registros tableData)) newRecord)
                 tableData).
Proof.
  intros Ht effective Hlen Hb. unfold executeInsert, bindM.
  rewrite run_selectedDatabase, (run_requireTable _ _ Ht).
  fold effective. rewrite Hlen, Nat.eqb_refl. cbn [negb].
  unfold lift. rewrite Hb.
  match goal with
  | |- context [saveTable _ _ ?t w] =>
      destruct (run_saveTable w tableData t Ht) as (w' & -> & Hw')
  end.
  do 2 eexists. split; [reflexivity|]. split; [reflexivity | exact Hw'].
Qed.

End Worlds.

(** Deleting the record stored under [target] and no other leaves the
    other records, in their order. *)
Lemma deleteRecords_one whereClause target entries :
  (forall key record, In (key, record) entries ->
     matchesWhere whereClause record = Ok (key =? target)) ->
  (forall key, In key (keys entries) -> arrayIndex key = None) ->
  forall remainingRecords deletedCount,
    NoDup (keys remainingRecords ++ keys entries) ->
    exists deleted,
      deleteRecords whereClause entries remainingRecords deletedCount
      = Ok (remainingRecords ++ filter (fun e => negb (fst e =? target)) entries, deleted).
Proof.
  induction entries as [|[key record] entries IH]; intros Hsel Hidx remainingRecords deletedCount Hnd.
  - simpl. rewrite app_nil_r. eauto.
  - cbn [deleteRecords]. rewrite (Hsel key record) by now left. cbn [bind fst filter].
    assert (Hsel' : forall k r, In (k, r) entries ->
              matchesWhere whereClause r = Ok (k =? target))
      by (intros k r H; apply Hsel; now right).
    assert (Hidx' : forall k, In k (keys entries) -> arrayIndex k = None)
      by (intros k H; apply Hidx; now right).
    destruct (key =? target); cbn [negb].
    + apply IH; auto. simpl in Hnd. now apply NoDup_remove_1 in Hnd.
    + assert (Hfresh : ~ In key (keys remainingRecords)).
      { simpl in Hnd. apply NoDup_remove_2 in Hnd. intros H. apply Hnd.
        apply in_or_app. now left. }
      rewrite set_fresh by (auto; apply Hidx; now left).
      destruct (IH Hsel' Hidx' (remainingRecords ++ [(key, record)]) deletedCount)
        as (deleted & ->).
      * unfold keys. rewrite map_app. simpl. rewrite <- app_assoc. exact Hnd.
      * rewrite <- app_assoc. eauto.
Qed.

Lemma filter_other_length {A} (target : string) (entries : obj A) :
  NoDup (keys entries) -> In target (keys entries) ->
  length (filter (fun e => negb (fst e =? target)) entries) = length entries - 1.
Proof.
  induction entries as [|[key v] entries IH]; simpl; intros Hnd Hin; [destruct Hin|].
  inversion Hnd as [|? ? Hfresh Hnd']; subst.
  destruct (String.eqb_spec key target) as [->|Hne]; simpl.
  - rewrite Nat.sub_0_r. clear IH Hin Hnd.
    induction entries as [|[k v'] entries IH]; simpl; [reflexivity|].
    simpl in Hfresh. inversion Hnd'; subst.
    destruct (String.eqb_spec k target) as [->|_]; [tauto|]. simpl. f_equal.
    apply IH; tauto.
  - destruct Hin as [Heq|Hin]; [contradiction|].
    rewrite IH by assumption.
    destruct entries; [destruct Hin | simpl; lia].
Qed.

Lemma lookup_filter_other {A} (target key : string) (entries : obj A) :
  key <> target ->
  lookup (filter (fun e => negb (fst e =? target)) entries) key = lookup entries key.
Proof.
  intros Hne. induction entries as [|[k v] entries IH]; simpl; [reflexivity|].
  destruct (String.eqb_spec k target) as [->|Hk]; simpl.
  - destruct (String.eqb_spec key target); [contradiction | exact IH].
  - now rewrite IH.
Qed.

Lemma NoDup_map_injective {A B} (f : A -> B) (l : list A) a b :
  NoDup (map f l) -> In a l -> In b l -> f a = f b -> a = b.
Proof.
  induction l as [|x l IH]; simpl; intros Hnd Ha Hb Hf; [destruct Ha|].
  inversion Hnd as [|? ? Hfresh Hnd']; subst.
  destruct Ha as [->|Ha], Hb as [->|Hb]; auto.
  - elim Hfresh. rewrite Hf. now apply in_map.
  - elim Hfresh. rewrite <- Hf. now apply in_map.
Qed.

Lemma arrayIndex_regKey i : arrayIndex (regKey i) = None.
Proof. reflexivity. Qed.

(** Only the column declarations of the table matter to the new record. *)
Lemma buildRecord_colunas t1 t2 columns :
  Tabela.colunas t1 = Tabela.colunas t2 ->
  forall values newRecord,
    buildRecord t1 columns values newRecord = buildRecord t2 columns values newRecord.
Proof.
  intros Heq. induction columns as [|c columns IH]; intros [|v values] newRecord;
    simpl; try reflexivity.
  rewrite Heq. destruct (evaluateExpression v []); simpl; [|reflexivity].
  destruct (_ && _); [reflexivity | apply IH].
Qed.

(** C8, as the code has it.  An INSERT stores the new record under
    [reg_] followed by the number of records plus one.  Hence, in a table
    whose records are keyed [reg_1] to [reg_n], as n inserts leave it,
    once exactly one record other than [reg_n] has been deleted the next
    insert generates [reg_n] again: the key is taken, the record stored
    there is replaced by the new one, no key is added and the number of
    records stays n - 1. *)
Theorem insert_after_single_delete_reuses_key :
  forall (databaseName tableName : string) (tableData : Tabela.t) (n k : nat)
         (whereClause : option WhereClause.t) (columns : option (list string))
         (values : list Expr) (newRecord : Record_) (w : World),
    databaseName <> "" ->
    tableAt w databaseName tableName = Some tableData ->
    wellFormed (Tabela.registros tableData) ->
    keys (Tabela.registros tableData) = map regKey (seq 1 n) ->
    1 <= k < n ->
    (forall key record, In (key, record) (Tabela.registros tableData) ->
       matchesWhere whereClause record = Ok (key =? regKey k)) ->
    let effective :=
      match columns with
      | Some cs => cs
      | None => keys (Tabela.colunas tableData)
      end in
    length values = length effective ->
    buildRecord tableData effective values [] = Ok newRecord ->
    (exists r w',
        executeInsert (Some databaseName) tableName columns values w = (Ok r, w')
        /\ tableAt w' databaseName tableName
           = Some (Tabela.withRegistros
                     (set (Tabela.registros tableData)
                        (regKey (length (Tabela.registros tableData) + 1)) newRecord)
                     tableData))
    /\ exists r1 w1 r2 w2 remaining stored last,
      executeDelete (Some databaseName) tableName whereClause w = (Ok r1, w1)
      /\ tableAt w1 databaseName tableName = Some (Tabela.withRegistros remaining tableData)
      /\ length remaining = n - 1
      /\ nextRecordKey remaining = regKey n
      /\ lookup remaining (regKey n) = Some last
      /\ executeInsert (Some databaseName) tableName columns values w1 = (Ok r2, w2)
      /\ Resposta.sucesso r2 = true
      /\ tableAt w2 databaseName tableName = Some (Tabela.withRegistros stored tableData)
      /\ stored = set remaining (nextRecordKey remaining) newRecord
      /\ keys stored = keys remaining
      /\ length stored = n - 1
      /\ lookup stored (regKey n) = Some newRecord.
Proof.
  intros databaseName tableName tableData n k whereClause columns values newRecord w
         Hdb Ht Hwf Hkeys Hk Hsel effective Hlen Hbuild.
  split.
  { destruct (run_executeInsert databaseName tableName Hdb w tableData columns values
                newRecord Ht Hlen Hbuild) as (r & w' & Hrun & _ & Hw').
    exists r, w'. split; [exact Hrun|]. rewrite Hw'.
    unfold nextRecordKey, regKey, keys. now rewrite length_map. }
  set (entries := Tabela.registros tableData) in *.
  set (remaining := filter (fun e => negb (fst e =? regKey k)) entries).
  assert (Hcount : length entries = n).
  { rewrite <- (length_map fst entries). fold (keys entries).
    now rewrite Hkeys, length_map, length_seq. }
  assert (Hin : forall i, 1 <= i <= n -> In (regKey i) (keys entries)).
  { intros i Hi. rewrite Hkeys. apply in_map, in_seq. lia. }
  assert (Hdistinct : regKey n <> regKey k).
  { intros Heq. unfold wellFormed in Hwf. fold entries in Hwf. rewrite Hkeys in Hwf.
    assert (n = k); [|lia].
    apply (NoDup_map_injective regKey (seq 1 n)); auto; apply in_seq; lia. }
  (* the delete *)
  destruct (deleteRecords_one whereClause (regKey k) entries Hsel) with
    (remainingRecords := @nil (string * Record_)) (deletedCount := 0)
    as (deleted & Hdel).
  { intros key Hkey. rewrite Hkeys in Hkey. apply in_map_iff in Hkey.
    destruct Hkey as (i & <- & _). apply arrayIndex_regKey. }
  { exact Hwf. }
  simpl in Hdel. fold remaining in Hdel.
  destruct (run_executeDelete databaseName tableName Hdb w tableData whereClause
              remaining deleted Ht Hdel) as (r1 & w1 & Hrun1 & _ & Ht1).
  assert (Hlen1 : length remaining = n - 1).
  { unfold remaining. rewrite filter_other_length; [lia | exact Hwf | apply Hin; lia]. }
  assert (Hnext : nextRecordKey remaining = regKey n).
  { unfold nextRecordKey, keys. rewrite length_map, Hlen1. unfold regKey.
    do 2 f_equal. lia. }
  assert (Hlast : lookup remaining (regKey n) = lookup entries (regKey n)).
  { apply lookup_filter_other, Hdistinct. }
  assert (Hhas : In (regKey n) (keys remaining)).
  { apply has_true_iff. unfold has. rewrite Hlast.
    assert (H : In (regKey n) (keys entries)) by (apply Hin; lia).
    apply has_true_iff in H. exact H. }
  destruct (lookup remaining (regKey n)) as [last|] eqn:Hlookup.
  2:{ apply has_true_iff in Hhas. unfold has in Hhas. rewrite Hlookup in Hhas. discriminate. }
  (* the insert *)
  destruct (run_executeInsert databaseName tableName Hdb w1
              (Tabela.withRegistros remaining tableData) columns values newRecord Ht1
              Hlen) as (r2 & w2 & Hrun2 & Hok & Ht2).
  { rewrite <- Hbuild. now apply buildRecord_colunas. }
  cbn [Tabela.withRegistros Tabela.registros Tabela.colunas Tabela.criada
       Tabela.constraints] in Ht2.
  exists r1, w1, r2, w2, remaining, (set remaining (nextRecordKey remaining) newRecord), last.
  rewrite Hnext in *.
  assert (Hsame : keys (set remaining (regKey n) newRecord) = keys remaining)
    by now apply keys_set_present.
  assert (Hlen2 : length (set remaining (regKey n) newRecord) = n - 1).
  { rewrite <- Hlen1, <- (length_map fst), <- (length_map fst remaining).
    fold (keys (set remaining (regKey n) newRecord)). fold (keys remaining).
    now rewrite Hsame. }
  repeat split; auto.
  now rewrite lookup_set, String.eqb_refl.
Qed.

Lemma insert_after_single_delete_reuses_key_witness :
  keys (Tabela.registros itemsTable) = map regKey (seq 1 3)
  /\ (exists w1 w2 remaining stored,
        snd (executeDelete (Some "loja") "itens" (whereIdIs 1) threeItems) = w1
        /\ tableAt w1 "loja" "itens" = Some (Tabela.withRegistros remaining itemsTable)
        /\ length remaining = 2
        /\ snd (executeInsert (Some "loja") "itens" (Some ["id"])
                  [LiteralExpression (VNum 4) "NUMBER"] w1) = w2
        /\ tableAt w2 "loja" "itens" = Some (Tabela.withRegistros stored itemsTable)
        /\ length stored = 2
        /\ lookup stored "reg_3" = Some [("id", VNum 4)])
  /\ storedItems
       (worldAfter "2024"
          (itemsSetup ++ [Run "remover de itens onde id = 1";
                          Run "inserir em itens (id) valores (4)"]))
     = Some [("reg_2", [("id", VNum 2)]); ("reg_3", [("id", VNum 4)])].
Proof.
  assert (Hkeys : keys (Tabela.registros itemsTable) = map regKey (seq 1 3))
    by (vm_compute; reflexivity).
  assert (Hdb : "loja" <> "") by discriminate.
  assert (Ht : tableAt threeItems "loja" "itens" = Some itemsTable)
    by (vm_compute; reflexivity).
  assert (Hwf : wellFormed (Tabela.registros itemsTable)).
  { vm_compute. repeat constructor; simpl; intuition discriminate. }
  assert (Hsel : forall key record, In (key, record) (Tabela.registros itemsTable) ->
            matchesWhere (whereIdIs 1) record = Ok (key =? regKey 1)).
  { intros key record Hin. vm_compute in Hin.
    destruct Hin as [H|[H|[H|[]]]]; inversion H; subst; reflexivity. }
  assert (Hbuild : buildRecord itemsTable ["id"] [LiteralExpression (VNum 4) "NUMBER"] []
                   = Ok [("id", VNum 4)]) by (vm_compute; reflexivity).
  assert (Hk : 1 <= 1 < 3) by lia.
  destruct (insert_after_single_delete_reuses_key "loja" "itens" itemsTable 3 1
              (whereIdIs 1) (Some ["id"]) [LiteralExpression (VNum 4) "NUMBER"]
              [("id", VNum 4)] threeItems Hdb Ht Hwf Hkeys Hk Hsel eq_refl Hbuild)
    as (_ & r1 & w1 & r2 & w2 & remaining & stored & last
        & Hrun1 & Ht1 & Hlen1 & Hnext & Hlast & Hrun2 & Hok & Ht2 & Hstored & Hsame & Hlen2 & Hnew).
  split; [exact Hkeys|]. split.
  - exists w1, w2, remaining, stored.
    rewrite Hrun1, Hrun2. cbn [snd].
    split; [reflexivity|]. split; [exact Ht1|]. split; [exact Hlen1|].
    split; [reflexivity|].
    split; [exact Ht2|]. split; [exact Hlen2 | exact Hnew].
  - vm_compute. reflexivity.
Defined.

(** C8, as stated, fails once the keys have gaps: after [reg_1] and then
    [reg_2] have been deleted from three records, each of them another
    record than the last-numbered one, the only record left is [reg_3];
    the next insert generates [reg_2], which is free, and the table
    grows from one record to two. *)
Lemma insert_after_two_deletes_appends :
  let deletes := [Run "remover de itens onde id = 1"; Run "remover de itens onde id = 2"] in
  let before := worldAfter "2024" (itemsSetup ++ deletes) in
  let after :=
    worldAfter "2024" (itemsSetup ++ deletes ++ [Run "inserir em itens (id) valores (4)"]) in
  storedItems (worldAfter "2024" (itemsSetup ++ [Run "remover de itens onde id = 1"]))
    = Some [("reg_2", [("id", VNum 2)]); ("reg_3", [("id", VNum 3)])]
  /\ storedItems before = Some [("reg_3", [("id", VNum 3)])]
  /\ nextRecordKey [("reg_3", [("id", VNum 3)])] = "reg_2"
  /\ has [("reg_3", [("id", VNum 3)])] "reg_2" = false
  /\ storedItems after
     = Some [("reg_3", [("id", VNum 3)]); ("reg_2", [("id", VNum 4)])]
  /\ option_map (@length _) (storedItems after)
     <> option_map (@length _) (storedItems before).
Proof. vm_compute. repeat split. discriminate. Qed.

(* ------------------------------------------------------------------ *)
(** ** ORDER BY and its direction word *)

Section DirectionWord.

Import Parser.

Variable tokens : list Token.

Lemma matches_type kinds cur :
  matches tokens kinds cur
  = existsb (TokenType_beq (type (getCurrentToken tokens cur))) kinds.
Proof. reflexivity. Qed.

(** A statement never starts at an identifier. *)
Lemma parseStatement_identifier cur :
  type (getCurrentToken tokens cur) = IDENTIFIER ->
  parseStatement tokens cur = Err (unrecognisedCommand tokens cur).
Proof.
  intros H. unfold parseStatement. rewrite H. reflexivity.
Qed.

(** A statement starts with one of the five command keywords. *)
Lemma parseStatement_starts cur statement c1 :
  parseStatement tokens cur = Ok (statement, c1) ->
  In (type (getCurrentToken tokens cur)) [SELECT; CREATE; INSERT; UPDATE; DELETE].
Proof.
  unfold parseStatement, error, throw.
  destruct (type (getCurrentToken tokens cur)); intros H; try discriminate H;
    simpl; tauto.
Qed.

Lemma single_token_everywhere t cur : tokens = [t] -> getCurrentToken tokens cur = t.
Proof.
  intros ->. unfold getCurrentToken. destruct cur as [|[|cur]]; reflexivity.
Qed.

(** C3, as the code has it.  An identifier outside the four direction
    words that follows an ordering term raises nothing while the ORDER BY
    clause is parsed: the term gets the direction ASC, the word is not
    consumed, and the clause ends in front of it.  The word is then what
    the parser takes for the start of the next statement, and since no
    statement starts with an identifier the parse as a whole is refused
    with the syntax error for an unrecognised command. *)
Theorem unknown_direction_word_is_left_over :
  forall (cur c1 : nat) (expression : Expr),
    parseExpression tokens cur = Ok (expression, c1) ->
    type (getCurrentToken tokens c1) = IDENTIFIER ->
    isDirectionWord (value (getCurrentToken tokens c1)) = false ->
    let term := OrderByExpression.mk expression "ASC" in
    parseOrderByTerm tokens cur = Ok (term, c1)
    /\ (forall n acc,
          commaList tokens (parseOrderByTerm tokens) (S n) acc cur = Ok (acc ++ [term], c1))
    /\ parseStatement tokens c1 = Err (unrecognisedCommand tokens c1)
    /\ (forall statement,
          parseStatement tokens 0 = Ok (statement, c1) ->
          parse tokens = Err (unrecognisedCommand tokens c1)).
Proof.
  intros cur c1 expression Hexpr Hident Hword term.
  assert (Hterm : parseOrderByTerm tokens cur = Ok (term, c1)).
  { unfold parseOrderByTerm. rewrite Hexpr. cbn [bind].
    rewrite matches_type, Hident. cbn [existsb TokenType_beq orb].
    unfold isDirectionWord in Hword.
    apply orb_false_elim in Hword. destruct Hword as [Hword Hd].
    apply orb_false_elim in Hword. destruct Hword as [Hword Hc].
    apply orb_false_elim in Hword. destruct Hword as [Ha Hb].
    rewrite Ha, Hb, Hc, Hd. reflexivity. }
  assert (Hstop : parseStatement tokens c1 = Err (unrecognisedCommand tokens c1))
    by now apply parseStatement_identifier.
  split; [exact Hterm|]. split; [|split; [exact Hstop|]].
  - intros n acc. cbn [commaList]. rewrite Hterm. cbn [bind].
    rewrite matches_type, Hident. reflexivity.
  - intros statement Hstmt.
    pose proof (parseStatement_starts 0 statement c1 Hstmt) as Hstart.
    unfold parse.
    destruct tokens as [|t0 [|t1 rest]] eqn:Htokens.
    + unfold getCurrentToken in Hident. destruct c1; discriminate Hident.
    + (* a single token would be a keyword and an identifier at once *)
      rewrite <- Htokens in *.
      rewrite (single_token_everywhere t0 0 Htokens) in Hstart.
      rewrite (single_token_everywhere t0 c1 Htokens) in Hident.
      rewrite Hident in Hstart. simpl in Hstart.
      repeat destruct Hstart as [Hstart|Hstart]; try discriminate Hstart. destruct Hstart.
    + rewrite <- Htokens in *.
      replace (length tokens) with (S (S (length rest))) by (rewrite Htokens; reflexivity).
      cbn [parseStatements].
      assert (Hnot : matches tokens [EOF] 0 = false).
      { rewrite matches_type. simpl in Hstart.
        repeat destruct Hstart as [Hstart|Hstart]; try (rewrite <- Hstart; reflexivity).
        destruct Hstart. }
      rewrite Hnot, Hstmt. cbn [bind].
      unfold matches. rewrite Hident. cbn [existsb TokenType_beq orb].
      rewrite Hident. cbn [existsb TokenType_beq orb].
      rewrite Hstop. reflexivity.
Qed.

End DirectionWord.

Lemma unknown_direction_word_is_left_over_witness :
  Parser.parseExpression strayWordTokens 6 = Ok (IdentifierExpression "preco" None, 7)
  /\ type (Parser.getCurrentToken strayWordTokens 7) = IDENTIFIER
  /\ value (Parser.getCurrentToken strayWordTokens 7) = VStr "foo"
  /\ Parser.parseOrderByTerm strayWordTokens 6
     = Ok (OrderByExpression.mk (IdentifierExpression "preco" None) "ASC", 7)
  /\ Parser.parse strayWordTokens
     = Err (Thrown "Erro de sintaxe na posição 46: Comando não reconhecido: foo").
Proof.
  assert (Hexpr : Parser.parseExpression strayWordTokens 6
                  = Ok (IdentifierExpression "preco" None, 7)) by (vm_compute; reflexivity).
  assert (Hident : type (Parser.getCurrentToken strayWordTokens 7) = IDENTIFIER)
    by (vm_compute; reflexivity).
  assert (Hvalue : value (Parser.getCurrentToken strayWordTokens 7) = VStr "foo")
    by (vm_compute; reflexivity).
  assert (Hword : isDirectionWord (value (Parser.getCurrentToken strayWordTokens 7)) = false)
    by (rewrite Hvalue; reflexivity).
  destruct (unknown_direction_word_is_left_over strayWordTokens 6 7
              (IdentifierExpression "preco" None) Hexpr Hident Hword)
    as (Hterm & _ & _ & Hparse).
  split; [exact Hexpr|]. split; [exact Hident|]. split; [exact Hvalue|].
  split; [exact Hterm|].
  assert (Hstmt : exists statement,
            Parser.parseStatement strayWordTokens 0 = Ok (statement, 7)).
  { eexists. vm_compute. reflexivity. }
  destruct Hstmt as (statement & Hstmt).
  rewrite (Hparse statement Hstmt).
  vm_compute. reflexivity.
Defined.

(** C3, as stated, fails: the statement is refused. *)
Lemma unknown_direction_word_is_refused :
  parseText strayWordQuery
  = Err (Thrown "Erro de sintaxe na posição 46: Comando não reconhecido: foo").
Proof. vm_compute. reflexivity. Qed.

(* ------------------------------------------------------------------ *)
(** ** The shop scenario *)

(** C2, as the code has it.  From an empty store, creating the database
    loja, selecting it, creating the table produtos, inserting
    (1, "Mouse", 50) and selecting every product dearer than 10 returns
    exactly one row.  The row holds 1, the lower-cased text mouse and 50,
    each under the bare column name and under the name qualified with
    the table. *)
Theorem scenarioA_returns_one_row :
  forall now : string,
    rowsOf now "loja" scenarioAQuery (worldAfter now scenarioA)
    = Ok (Some [[("produtos.id", VNum 1); ("id", VNum 1);
                 ("produtos.nome", VStr "mouse"); ("nome", VStr "mouse");
                 ("produtos.preco", VNum 50); ("preco", VNum 50)]]).
Proof. intros now. vm_compute. reflexivity. Qed.

(** C2, as stated, fails: the row returned is not the one announced, its
    name is in lower case and it carries the qualified keys as well;
    the statements in English keywords are refused by the parser; and
    without selecting the database the table is not even created. *)
Lemma scenarioA_row_is_not_the_announced_one :
  rowsOf "2024" "loja" scenarioAQuery (worldAfter "2024" scenarioA)
    <> Ok (Some [mouseRow])
  /\ (forall rows row,
        rowsOf "2024" "loja" scenarioAQuery (worldAfter "2024" scenarioA) = Ok (Some rows) ->
        In row rows ->
        getv row "nome" = VStr "mouse" /\ getv row "nome" <> getv mouseRow "nome"
        /\ getv row "produtos.id" = VNum 1 /\ getv mouseRow "produtos.id" = VUndef)
  /\ fst (executeCommand "2024" None "CREATE DATABASE loja" emptyWorld)
     = Err (Thrown "Erro de sintaxe na posição 6: Comando não reconhecido: create")
  /\ option_map Resposta.mensagem
       (nth_error
          (match fst (session "2024" None
                        [Run "criar banco loja";
                         Run "criar tabela produtos (id: numero, nome: texto, preco: numero)"]
                        emptyWorld) with
           | Ok replies => replies
           | Err _ => []
           end) 1)
     = Some "❌ Erro na execução: Nenhum banco selecionado".
Proof.
  assert (Hrun : rowsOf "2024" "loja" scenarioAQuery (worldAfter "2024" scenarioA)
                 = Ok (Some [[("produtos.id", VNum 1); ("id", VNum 1);
                              ("produtos.nome", VStr "mouse"); ("nome", VStr "mouse");
                              ("produtos.preco", VNum 50); ("preco", VNum 50)]]))
    by (vm_compute; reflexivity).
  rewrite Hrun. split; [discriminate|]. split; [|split].
  - intros rows row Hrows Hin. injection Hrows as <-.
    destruct Hin as [<-|[]]. repeat split. discriminate.
  - vm_compute. reflexivity.
  - vm_compute. reflexivity.
Qed.

(* ------------------------------------------------------------------ *)
(** ** INSERT and the constraint validator *)

(** C1 fails on the code: [executeInsert] checks the arity and the
    types, then stores the record without consulting the validator.  On
    the users table of the constraint test, the insert that leaves out
    the NOT NULL column email succeeds and is stored, although
    [validateInsert] reports the violation for that very record and
    [StorageManager.insertRecord] refuses it.  The arity and type checks
    do abort the statement and leave the table untouched. *)
Theorem executeInsert_skips_validation :
  let random := fun _ : nat => 0 in
  let candidate : Record_ := [("nome", VStr "sem email")] in
  let reply :=
    executeCommand "2024" (Some "constraint_test") insertWithoutEmail constraintWorld in
  option_map Resposta.sucesso
    (match fst reply with Ok r => Some r | Err _ => None end) = Some true
  /\ storedConstraintUsers constraintWorld = Some []
  /\ storedConstraintUsers (snd reply) = Some [("reg_1", candidate)]
  /\ option_map fst
       (match fst (validateInsert random "constraint_test" "usuarios" candidate
                     constraintTable constraintWorld) with
        | Ok checked => Some checked
        | Err _ => None
        end)
     = Some ["Coluna 'email' não pode ser nula"]
  /\ fst (insertRecord random "constraint_test" "usuarios" candidate constraintWorld)
     = Err (Thrown "Violação de constraints: Coluna 'email' não pode ser nula")
  /\ executeCommand "2024" (Some "constraint_test")
       "inserir em usuarios (nome) valores (1, 2)" constraintWorld
     = (Ok (Resposta.mk false
              "❌ Erro na execução: Número de valores não corresponde ao número de colunas"
              None), constraintWorld)
  /\ executeCommand "2024" (Some "constraint_test")
       "inserir em usuarios (nome) valores (7)" constraintWorld
     = (Ok (Resposta.mk false
              "❌ Erro na execução: Tipo inválido para coluna 'nome'. Esperado: texto"
              None), constraintWorld).
Proof. vm_compute. repeat split. Qed.

(* ------------------------------------------------------------------ *)
(** * Further properties of the lexer, the parser, the executor, the
      validator and the storage manager *)

(* ------------------------------------------------------------------ *)
(** ** The lexer comes to an end *)

Section LexerProgress.

Import Lexer.

Lemma spanChars_app p cs :
  cs = fst (spanChars p cs) ++ snd (spanChars p cs).
Proof.
  induction cs as [|c cs IH]; simpl; [reflexivity|].
  destruct (p c); [|reflexivity].
  destruct (spanChars p cs) as [a b]. simpl in *. now rewrite IH at 1.
Qed.

Lemma spanChars_head p c cs :
  p c = true -> exists a, fst (spanChars p (c :: cs)) = c :: a.
Proof.
  intros H. simpl. rewrite H. destruct (spanChars p cs) as [a b]. now exists a.
Qed.

Lemma consumeWhile_spec p l :
  let l' := snd (consumeWhile p l) in
  inputEnd l' = inputEnd l
  /\ length (rest l') <= length (rest l)
  /\ tokenHistory l' = tokenHistory l
  /\ (forall c cs, rest l = c :: cs -> p c = true -> length (rest l') < length (rest l)).
Proof.
  unfold consumeWhile, inputEnd.
  pose proof (spanChars_app p (rest l)) as Happ.
  destruct (spanChars p (rest l)) as [taken remaining] eqn:Hspan. simpl in *.
  assert (Hlen : length (rest l) = length taken + length remaining)
    by (rewrite Happ at 1; apply length_app).
  repeat split; try lia.
  intros c cs Hrest Hp. rewrite Hrest in Hspan.
  destruct (spanChars_head p c cs Hp) as (a & Ha). rewrite Hspan in Ha. simpl in Ha.
  subst taken. simpl in Hlen. lia.
Qed.

Lemma readStringLoop_spec quote n :
  forall cs acc used,
    length cs <= n ->
    let '(_, remaining, used') := readStringLoop quote cs acc used in
    used' + length remaining = used + length cs.
Proof.
  induction n as [|n IH]; intros cs acc used Hn.
  - destruct cs; [reflexivity | simpl in Hn; lia].
  - destruct cs as [|c cs]; [reflexivity|]. simpl in Hn. simpl.
    destruct (Ascii.eqb c quote); [simpl; lia|].
    destruct (Ascii.eqb c "\").
    + destruct cs as [|e cs]; [simpl; lia|].
      specialize (IH cs (acc ++ [unescape e]) (S (S used))).
      simpl in Hn.
      destruct (readStringLoop quote cs _ _) as [[t r] u]. simpl. 
      assert (length cs <= n) by lia. specialize (IH H). lia.
    + specialize (IH cs (acc ++ [c]) (S used)).
      destruct (readStringLoop quote cs _ _) as [[t r] u].
      assert (length cs <= n) by lia. specialize (IH H). simpl. lia.
Qed.

Lemma inputEnd_addToHistory token l : inputEnd (addToHistory token l) = inputEnd l.
Proof. reflexivity. Qed.

Lemma lookup_In {A} (o : obj A) k v : lookup o k = Some v -> In (k, v) o.
Proof.
  induction o as [|[k' v'] o IH]; simpl; [discriminate|].
  destruct (String.eqb_spec k k') as [->|_].
  - intros H. injection H as ->. now left.
  - intros H. right. now apply IH.
Qed.

Lemma keywords_never_EOF identifier :
  keywords identifier <> Some (Fixed EOF).
Proof.
  intros H. apply lookup_In in H. unfold keywordTable in H. simpl in H.
  repeat (destruct H as [H|H]; [discriminate H|]). exact H.
Qed.

Lemma detectContextualEm_never_EOF l : detectContextualEm l <> EOF.
Proof.
  unfold detectContextualEm.
  destruct (existsb _ _); [discriminate|]. destruct (existsb _ _); discriminate.
Qed.

Lemma singleCharTokens_never_EOF c : singleCharTokens c <> Some EOF.
Proof.
  destruct c as [[] [] [] [] [] [] [] []]; discriminate.
Qed.

Lemma keywords_contextual identifier resolve :
  keywords identifier = Some (Contextual resolve) -> resolve = detectContextualEm.
Proof.
  intros H. apply lookup_In in H. unfold keywordTable in H. simpl in H.
  repeat (destruct H as [H|H]; [try discriminate H; now injection H|]). destruct H.
Qed.

(** One call of [getNextToken]: it ends, and it either reports the end of
    the input or takes at least one character. *)
Lemma getNextToken_step l0 :
  match getNextToken l0 with
  | Ok (token, l') =>
      inputEnd l' = inputEnd l0
      /\ ((token = mkToken EOF VNull (inputEnd l0) /\ rest l' = [])
          \/ (type token <> EOF /\ length (rest l') < length (rest l0)))
  | Err OutOfFuel => False
  | Err _ => True
  end.
Proof.
  unfold getNextToken.
  destruct (consumeWhile_spec isSpace l0) as (Hend & Hle & _ & _).
  fold (skipWhitespace l0) in Hend, Hle.
  set (l := skipWhitespace l0) in *. cbv zeta.
  destruct (rest l) as [|c after] eqn:Hrest.
  { split; [exact Hend|]. left. split; [|exact Hrest].
    f_equal. rewrite <- Hend. unfold inputEnd. rewrite Hrest. simpl. lia. }
  assert (Hlen : length (rest l) = S (length after)) by now rewrite Hrest.
  cbn [length] in Hle.
  destruct (isDigit c) eqn:Hdigit.
  { (* a number *)
    unfold readNumber.
    destruct (consumeWhile_spec isDigit l) as (He1 & Hl1 & _ & Hp1).
    specialize (Hp1 c after Hrest Hdigit).
    destruct (consumeWhile isDigit l) as [intPart l1]. simpl in He1, Hl1, Hp1.
    destruct (currentChar l1) as [d|] eqn:Hcur.
    2:{ destruct (parseFloat intPart None) as [n|[]] eqn:Hn; simpl; try exact I.
        - rewrite inputEnd_addToHistory. split; [congruence|]. right. split; [discriminate | lia].
        - unfold parseFloat in Hn. destruct (_ && _); discriminate Hn. }
    destruct (Ascii.eqb_spec d ".") as [->|Hnd].
    - destruct (consumeWhile_spec isDigit (advance l1)) as (He2 & Hl2 & _ & _).
      destruct (consumeWhile isDigit (advance l1)) as [frac l2]. cbn [snd] in He2, Hl2.
      assert (Hadv : inputEnd (advance l1) = inputEnd l1 /\ length (rest (advance l1)) < length (rest l1)).
      { unfold inputEnd, advance, currentChar in *. simpl.
        destruct (rest l1); [discriminate Hcur | simpl; lia]. }
      destruct (parseFloat intPart (Some frac)) as [n|[]] eqn:Hn; simpl; try exact I.
      + rewrite inputEnd_addToHistory. split; [destruct Hadv; congruence|].
        right. split; [discriminate | lia].
      + unfold parseFloat in Hn. destruct (_ && _); discriminate Hn.
    - assert (Hsame :
        match d with
        | "."%char =>
            let '(frac, l2) := consumeWhile isDigit (advance l1) in
            n <- parseFloat intPart (Some frac) ;; Ok (n, l2)
        | _ => n <- parseFloat intPart None ;; Ok (n, l1)
        end = (n <- parseFloat intPart None ;; Ok (n, l1))).
      { destruct d as [[] [] [] [] [] [] [] []]; try reflexivity. now elim Hnd. }
      rewrite Hsame.
      destruct (parseFloat intPart None) as [n|[]] eqn:Hn; simpl; try exact I.
      + rewrite inputEnd_addToHistory. split; [congruence|]. right. split; [discriminate | lia].
      + unfold parseFloat in Hn. destruct (_ && _); discriminate Hn. }
  destruct (Ascii.eqb c "'" || Ascii.eqb c doubleQuote) eqn:Hquote.
  { (* a string *)
    unfold readString, currentChar. rewrite Hrest. cbn [hd_error].
    unfold advance at 1 2 3. rewrite Hrest. cbn [tl rest position tokenHistory].
    pose proof (readStringLoop_spec c (length after) after [] 0 (le_n _)) as Hloop.
    destruct (readStringLoop c after [] 0) as [[text remaining] used].
    cbn [rest hd_error].
    destruct remaining as [|q remaining]; cbn [hd_error].
    - unfold error, throw. exact I.
    - cbn [bind emit]. unfold emit. cbn [addToHistory advance rest position tl].
      unfold inputEnd in *. cbn [rest position]. simpl in Hloop.
      rewrite Hrest in Hend. simpl in Hend. simpl.
      split; [lia|]. right. split; [discriminate | lia]. }
  destruct (isIdentStart c) eqn:Hident.
  { (* a word *)
    unfold readIdentifier.
    assert (Hword : (fun c => isWord c || Ascii.eqb c "_") c = true).
    { unfold isWord. now rewrite Hident. }
    destruct (consumeWhile_spec (fun c => isWord c || Ascii.eqb c "_") l) as (He1 & Hl1 & _ & Hp1).
    specialize (Hp1 c after Hrest Hword).
    destruct (consumeWhile _ l) as [identifier l1]. simpl in He1, Hl1, Hp1.
    destruct ((identifier =? "constructor") || (identifier =? "__proto__")); [exact I|].
    unfold emit. rewrite inputEnd_addToHistory. split; [congruence|].
    right. split; [|simpl; lia].
    cbn [type].
    destruct (keywords identifier) as [[k|resolve]|] eqn:Hk.
    - intros ->. now apply (keywords_never_EOF identifier).
    - apply keywords_contextual in Hk. subst resolve. apply detectContextualEm_never_EOF.
    - discriminate. }
  assert (Htwo : forall k text,
            match twoChar l k text with
            | Ok (token, l') =>
                match after with
                | [] => True
                | _ :: _ =>
                  k <> EOF ->
                  inputEnd l' = inputEnd l0
                  /\ ((token = mkToken EOF VNull (inputEnd l0) /\ rest l' = [])
                      \/ (type token <> EOF /\ length (rest l') < length (rest l0)))
                end
            | Err OutOfFuel => False
            | Err _ => True
            end).
  { intros k text. unfold twoChar, emit. destruct after as [|d after']; [exact I|].
    intros Hk. unfold inputEnd in *. simpl. rewrite Hrest in *. simpl in *.
    split; [lia|]. right. split; [exact Hk | lia]. }
  assert (Hpeek : forall x, Ascii.eqb c x
                    && match after with d :: _ => Ascii.eqb d "=" | [] => false end = true ->
                    after <> []).
  { intros x H. destruct after; [now rewrite andb_false_r in H | discriminate]. }
  destruct (Ascii.eqb c "!" && _) eqn:H1.
  { specialize (Htwo NOT_EQUALS "!="). apply Hpeek in H1.
    destruct (twoChar l NOT_EQUALS "!=") as [[token l']|[]]; try exact Htwo.
    destruct after; [now elim H1 | apply Htwo; discriminate]. }
  destruct (Ascii.eqb c "<" && _) eqn:H2.
  { specialize (Htwo LESS_EQUAL "<="). apply Hpeek in H2.
    destruct (twoChar l LESS_EQUAL "<=") as [[token l']|[]]; try exact Htwo.
    destruct after; [now elim H2 | apply Htwo; discriminate]. }
  destruct (Ascii.eqb c ">" && _) eqn:H3.
  { specialize (Htwo GREATER_EQUAL ">="). apply Hpeek in H3.
    destruct (twoChar l GREATER_EQUAL ">=") as [[token l']|[]]; try exact Htwo.
    destruct after; [now elim H3 | apply Htwo; discriminate]. }
  destruct (singleCharTokens c) as [tokenType|] eqn:Hsingle; [|exact I].
  clear Htwo Hpeek. unfold emit, inputEnd in *.
  cbn [addToHistory advance rest position type]. rewrite Hrest in *. cbn [tl length] in *.
  split; [lia|]. right. split; [|lia].
  intros ->. now apply (singleCharTokens_never_EOF c).
Qed.

Lemma tokenizeLoop_spec fuel :
  forall l tokens,
    length (rest l) < fuel ->
    match tokenizeLoop fuel l tokens with
    | Ok all =>
        exists body,
          all = tokens ++ body ++ [mkToken EOF VNull (inputEnd l)]
          /\ Forall (fun token => type token <> EOF) body
          /\ length body <= length (rest l)
    | Err OutOfFuel => False
    | Err _ => True
    end.
Proof.
  induction fuel as [|fuel IH]; intros l tokens Hfuel; [lia|].
  cbn [tokenizeLoop].
  pose proof (getNextToken_step l) as Hstep.
  destruct (getNextToken l) as [[token l1]|e]; [|destruct e; exact Hstep].
  cbn [bind]. destruct Hstep as [Hend [[-> Hrest]|[Hkind Hless]]].
  - cbn [type TokenType_beq]. exists []. repeat split; [constructor | simpl; lia].
  - destruct (TokenType_beq (type token) EOF) eqn:Heof.
    { apply internal_TokenType_dec_bl in Heof. contradiction. }
    assert (Hfuel1 : length (rest l1) < fuel) by lia.
    specialize (IH l1 (tokens ++ [token]) Hfuel1).
    destruct (tokenizeLoop fuel l1 (tokens ++ [token])) as [all|[]]; try exact IH.
    destruct IH as (body & -> & Hbody & Hlen).
    exists (token :: body). rewrite Hend, <- app_assoc. repeat split.
    + now constructor.
    + simpl. lia.
Qed.

Lemma length_list_ascii_of_string s : length (list_ascii_of_string s) = String.length s.
Proof. induction s as [|c s IH]; simpl; [reflexivity | now rewrite IH]. Qed.

(** X1.  The lexer always comes to an end: on every input [tokenize]
    stops within its budget, with tokens or with an error of its own.
    The tokens it returns are at most one per character of the input,
    none of them of kind EOF, followed by exactly one EOF token that
    carries no value and whose position is the length of the input. *)
Theorem tokenize_ends_with_EOF :
  forall l : Lexer.t,
    halts (tokenize l)
    /\ (forall tokens,
          tokenize l = Ok tokens ->
          exists body,
            tokens = body ++ [mkToken EOF VNull (inputEnd l)]
            /\ Forall (fun token => type token <> EOF) body
            /\ length body <= length (rest l))
    /\ (forall input, inputEnd (Lexer.new input) = String.length input).
Proof.
  intros l. unfold tokenize.
  pose proof (tokenizeLoop_spec (S (length (rest l))) l [] (Nat.lt_succ_diag_r _)) as H.
  split; [|split].
  - destruct (tokenizeLoop _ l []) as [all|[]]; simpl; auto.
  - intros tokens Heq. rewrite Heq in H. exact H.
  - intros input. unfold inputEnd, Lexer.new. cbn [rest Lexer.position].
    now rewrite length_map, length_list_ascii_of_string.
Qed.

End LexerProgress.

(* ------------------------------------------------------------------ *)
(** ** String literals *)

Section StringLiteral.

Import Lexer.

Lemma readStringLoop_plain quote s tail :
  plainIn quote s ->
  match tail with [] => True | c :: _ => c = quote end ->
  forall acc used,
    readStringLoop quote (s ++ tail) acc used = (acc ++ s, tail, used + length s).
Proof.
  intros Hs Htail. induction Hs as [|c s [Hq Hb] Hs IH]; intros acc used.
  - rewrite app_nil_r, Nat.add_0_r. simpl.
    destruct tail as [|c tail]; [reflexivity|]. subst c. simpl.
    now rewrite Ascii.eqb_refl.
  - simpl.
    destruct (Ascii.eqb_spec c quote) as [|_]; [contradiction|].
    destruct (Ascii.eqb_spec c "\") as [|_]; [contradiction|].
    rewrite IH, <- app_assoc. simpl. f_equal. lia.
Qed.

Lemma skipWhitespace_none l c cs :
  rest l = c :: cs -> isSpace c = false ->
  skipWhitespace l = mk (c :: cs) (Lexer.position l + 0) (tokenHistory l).
Proof.
  intros Hrest Hc. unfold skipWhitespace, consumeWhile. rewrite Hrest. simpl.
  now rewrite Hc.
Qed.

(** X2.  A string literal whose characters are neither the quote that opened
    it nor a backslash is read as it stands, up to the closing quote;
    when the closing quote is missing the lexer raises the error of the
    unclosed string, at the end of the input. *)
Theorem readString_plain_literal :
  forall (l : Lexer.t) (quote : ascii) (s after : list ascii),
    plainIn quote s ->
    quote = "'"%char \/ quote = doubleQuote ->
    (rest l = quote :: s ++ quote :: after ->
     exists l',
       getNextToken l
       = Ok (mkToken STRING (VStr (string_of_list_ascii s))
               (Lexer.position l + length s + 2), l')
       /\ rest l' = after)
    /\ (rest l = quote :: s ->
        getNextToken l
        = Err (Thrown ("Erro léxico na posição "
                       ++ natToString (Lexer.position l + length s + 1)
                       ++ ": String não fechada"))).
Proof.
  intros l quote s after Hs Hquote.
  assert (Hq : isSpace quote = false /\ isDigit quote = false
               /\ Ascii.eqb quote "'" || Ascii.eqb quote doubleQuote = true).
  { destruct Hquote as [-> | ->]; repeat split. }
  destruct Hq as (Hspace & Hdigit & Hopen).
  split; intros Hrest.
  - unfold getNextToken. rewrite (skipWhitespace_none l _ _ Hrest Hspace). cbv zeta.
    cbn [rest]. rewrite Hdigit, Hopen.
    unfold readString, currentChar. cbn [rest hd_error advance tl Lexer.position tokenHistory].
    rewrite (readStringLoop_plain quote s (quote :: after) Hs eq_refl).
    cbn [rest hd_error bind advance tl Lexer.position tokenHistory app].
    unfold emit.
    replace (S (S (Lexer.position l + 0) + (0 + length s)))
      with (Lexer.position l + length s + 2) by lia.
    eexists. split; reflexivity.
  - unfold getNextToken. rewrite (skipWhitespace_none l _ _ Hrest Hspace). cbv zeta.
    cbn [rest]. rewrite Hdigit, Hopen.
    unfold readString, currentChar. cbn [rest hd_error advance tl Lexer.position tokenHistory].
    rewrite <- (app_nil_r s) at 1.
    rewrite (readStringLoop_plain quote s [] Hs I).
    cbn [rest hd_error bind app]. unfold error, throw. cbn [Lexer.position bind].
    replace (S (Lexer.position l + 0) + (0 + length s))
      with (Lexer.position l + length s + 1) by lia.
    reflexivity.
Qed.

End StringLiteral.

Lemma readString_plain_literal_witness :
  plainIn "'" (list_ascii_of_string "ana maria")
  /\ tokenTypes (Lexer.tokenize (Lexer.new "'ana maria'")) = Ok [STRING; EOF]
  /\ Lexer.getNextToken (Lexer.new "'ana maria")
     = Err (Thrown "Erro léxico na posição 10: String não fechada").
Proof.
  assert (Hplain : plainIn "'" (list_ascii_of_string "ana maria")).
  { repeat constructor; discriminate. }
  split; [exact Hplain|]. split; [reflexivity|].
  destruct (readString_plain_literal (Lexer.new "'ana maria") "'"
              (list_ascii_of_string "ana maria") [] Hplain (or_introl eq_refl))
    as [_ Hopen].
  exact (Hopen eq_refl).
Defined.

(* ------------------------------------------------------------------ *)
(** ** Blank input *)

Section BlankInput.

Import Lexer.

Lemma toLowerChar_space c : isSpace c = true -> toLowerChar c = c.
Proof.
  destruct c as [[] [] [] [] [] [] [] []]; vm_compute; intros H; try reflexivity; discriminate H.
Qed.

Lemma spanChars_all p cs : forallb p cs = true -> spanChars p cs = (cs, []).
Proof.
  induction cs as [|c cs IH]; simpl; [reflexivity|].
  intros H. apply andb_prop in H. destruct H as [Hc Hcs].
  now rewrite Hc, (IH Hcs).
Qed.

Lemma map_toLowerChar_blank cs :
  forallb isSpace cs = true -> map toLowerChar cs = cs.
Proof.
  induction cs as [|c cs IH]; simpl; [reflexivity|].
  intros H. apply andb_prop in H. destruct H as [Hc Hcs].
  now rewrite (toLowerChar_space c Hc), (IH Hcs).
Qed.

Lemma tokenize_blank sql :
  blank sql = true ->
  tokenize (Lexer.new sql) = Ok [mkToken EOF VNull (String.length sql)].
Proof.
  unfold blank. intros H.
  unfold tokenize, Lexer.new. cbn [rest tokenizeLoop].
  rewrite (map_toLowerChar_blank _ H).
  unfold getNextToken, skipWhitespace, consumeWhile. cbn [rest Lexer.position tokenHistory].
  rewrite (spanChars_all _ _ H). cbn [snd rest Lexer.position bind type TokenType_beq app].
  now rewrite length_list_ascii_of_string.
Qed.

End BlankInput.

(** X3.  A line of white space alone, the empty line included, lexes to the
    EOF token alone and parses to the empty list of statements; the
    executor refuses it, like every program that is not exactly one
    statement, and leaves the store as it is. *)
Theorem blank_input_is_refused :
  forall (now sql : string) (currentDatabase : option string) (w : World),
    blank sql = true ->
    Lexer.tokenize (Lexer.new sql) = Ok [mkToken EOF VNull (String.length sql)]
    /\ parseText sql = Ok (Many [])
    /\ executeCommand now currentDatabase sql w = (Ok notOneStatement, w)
    /\ (forall statements, execute now currentDatabase (Many statements) w = (Ok notOneStatement, w)).
Proof.
  intros now sql currentDatabase w Hblank.
  assert (Hparse : parseText sql = Ok (Many [])).
  { unfold parseText. rewrite (tokenize_blank sql Hblank). reflexivity. }
  split; [now apply tokenize_blank|]. split; [exact Hparse|]. split.
  - unfold executeCommand, bindM, lift. rewrite Hparse. reflexivity.
  - intros statements. reflexivity.
Qed.

Lemma blank_input_is_refused_witness :
  blank "   " = true
  /\ executeCommand "2024" (Some "loja") "   " emptyWorld = (Ok notOneStatement, emptyWorld).
Proof.
  split; [reflexivity|].
  apply (blank_input_is_refused "2024" "   " (Some "loja") emptyWorld eq_refl).
Defined.

(* ------------------------------------------------------------------ *)
(** ** The parser comes to an end *)

Lemma nth_past_last {A} (l : list A) :
  forall n d, length l <= S n -> nth n l (last l d) = last l d.
Proof.
  induction l as [|a l IH]; intros n d H.
  - destruct n; reflexivity.
  - destruct l as [|b l].
    + destruct n as [|[|n]]; reflexivity.
    + destruct n as [|n]; [simpl in H; lia|].
      change (nth n (b :: l) (last (b :: l) d) = last (b :: l) d).
      apply IH. simpl in *. lia.
Qed.

Lemma parse_nonempty tokens :
  tokens <> [] ->
  Parser.parse tokens
  = ('(statements, _) <- Parser.parseStatements tokens (length tokens) [] 0 ;;
     match statements with
     | [statement] => Ok (One statement)
     | _ => Ok (Many statements)
     end).
Proof. destruct tokens; [congruence | reflexivity]. Qed.

Section ParserTotal.

Import Parser.

Variable tokens : list Token.
Hypothesis lexed : endsWithEOF tokens.

Lemma advances_bind {A B} lo mid (r : result (A * nat)) (k : A * nat -> result (B * nat)) :
  advances mid r ->
  (forall a c, mid <= c -> advances lo (k (a, c))) ->
  advances lo (bind r k).
Proof.
  destruct r as [[a c]|e]; simpl; [|now destruct e].
  intros Hr Hk. now apply Hk.
Qed.

Lemma advances_mono {A} lo lo' (r : result (A * nat)) :
  lo <= lo' -> advances lo' r -> advances lo r.
Proof.
  destruct r as [[a c]|e]; simpl; [lia | now destruct e].
Qed.

(** Where the current token is not EOF there is a token after it. *)
Lemma not_EOF_inside cur :
  type (getCurrentToken tokens cur) <> EOF -> S cur < length tokens.
Proof.
  intros H. destruct (Nat.lt_ge_cases (S cur) (length tokens)) as [|Hge]; [assumption|].
  elim H. unfold getCurrentToken. rewrite nth_past_last by exact Hge. apply lexed.
Qed.

Lemma matches_inside kinds cur :
  matches tokens kinds cur = true -> ~ In EOF kinds -> S cur < length tokens.
Proof.
  unfold matches. intros H Hno. apply not_EOF_inside. intros Heof.
  apply existsb_exists in H. destruct H as (k & Hin & Hk).
  rewrite Heof in Hk. apply internal_TokenType_dec_bl in Hk. subst k. contradiction.
Qed.

Lemma consume_advances expected cur : advances (S cur) (consume tokens expected cur).
Proof.
  unfold consume. destruct expected as [k|]; [|simpl; lia].
  destruct (TokenType_beq _ k); simpl; [lia | exact I].
Qed.

#[local] Hint Resolve consume_advances : adv.
#[local] Hint Extern 1 (_ <= _) => lia : adv.
#[local] Hint Extern 1 (_ < _) => lia : adv.

Tactic Notation "adv" := advance_with @advances_bind @advances_mono.

Lemma parseIdentifierExpression_advances cur :
  advances (S cur) (parseIdentifierExpression tokens cur).
Proof. unfold parseIdentifierExpression. adv. Qed.

#[local] Hint Resolve parseIdentifierExpression_advances : adv.

Section ExpressionProgress.

Variable expr : parsing Expr.
Variable cur0 : nat.
Hypothesis expr_advances :
  forall c, cur0 < c -> c < length tokens -> advances c (expr c).

Lemma parsePrimaryExpression_advances cur :
  cur0 <= cur -> advances (S cur) (parsePrimaryExpression tokens expr cur).
Proof.
  intros Hcur. unfold parsePrimaryExpression. cbv zeta.
  destruct (type (getCurrentToken tokens cur)) eqn:Hkind; try exact I.
  1:{ assert (Hin : S cur < length tokens).
      { apply not_EOF_inside. rewrite Hkind. discriminate. }
      unfold consume at 1. cbn [bind].
      eapply advances_bind; [apply expr_advances; lia | intros ? ? ?]. adv. }
  all: adv.
Qed.

#[local] Hint Resolve parsePrimaryExpression_advances : adv.

Lemma parseComparisonExpression_advances cur :
  cur0 <= cur -> advances (S cur) (parseComparisonExpression tokens expr cur).
Proof. intros Hcur. unfold parseComparisonExpression. adv. Qed.

Lemma binaryLoop_advances kind (operand : parsing Expr) :
  (forall cur, cur0 <= cur -> advances (S cur) (operand cur)) ->
  kind <> EOF ->
  forall n left cur,
    cur0 <= cur -> length tokens - 1 - cur <= n ->
    advances cur (binaryLoop tokens kind operand n left cur).
Proof.
  intros Hoperand Hkind.
  induction n as [|n IH]; intros left cur Hcur Hfuel; cbn [binaryLoop];
    destruct (matches tokens [kind] cur) eqn:Hm; try (simpl; lia);
    assert (Hin : S cur < length tokens)
      by (apply (matches_inside [kind]); [exact Hm | intros [H|[]]; congruence]);
    [lia|].
  unfold consume. cbn [bind].
  eapply advances_bind; [apply Hoperand; lia | intros rhs c2 Hc2]. cbv beta iota.
  eapply advances_mono; [|apply IH; lia]. lia.
Qed.

#[local] Hint Resolve parseComparisonExpression_advances : adv.

Lemma parseAndExpression_advances cur :
  cur0 <= cur -> advances (S cur) (parseAndExpression tokens expr cur).
Proof.
  intros Hcur. unfold parseAndExpression.
  eapply advances_bind; [apply parseComparisonExpression_advances; lia | intros lhs c1 Hc1].
  cbv beta iota.
  eapply advances_mono; [|apply binaryLoop_advances]; try lia; try discriminate.
  intros c Hc. apply parseComparisonExpression_advances. exact Hc.
Qed.

Lemma parseOrExpression_advances cur :
  cur0 <= cur -> advances (S cur) (parseOrExpression tokens expr cur).
Proof.
  intros Hcur. unfold parseOrExpression.
  eapply advances_bind; [apply parseAndExpression_advances; lia | intros lhs c1 Hc1].
  cbv beta iota.
  eapply advances_mono; [|apply binaryLoop_advances]; try lia; try discriminate.
  intros c Hc. apply parseAndExpression_advances. exact Hc.
Qed.

End ExpressionProgress.

Lemma parseExpressionAt_advances depth :
  forall cur,
    length tokens - 1 - cur < depth ->
    advances (S cur) (parseExpressionAt tokens depth cur).
Proof.
  induction depth as [|depth IH]; intros cur Hdepth; [lia|].
  cbn [parseExpressionAt].
  apply (parseOrExpression_advances (parseExpressionAt tokens depth) cur); [|lia].
  intros c Hlow Hhigh. eapply advances_mono; [|apply IH]; lia.
Qed.

Lemma parseExpression_advances cur : advances (S cur) (parseExpression tokens cur).
Proof. apply parseExpressionAt_advances. lia. Qed.

#[local] Hint Resolve parseExpression_advances : adv.

Lemma commaList_advances {A} (item : parsing A) :
  (forall cur, advances cur (item cur)) ->
  forall n acc cur,
    length tokens - 1 - cur < n ->
    advances cur (commaList tokens item n acc cur).
Proof.
  intros Hitem. induction n as [|n IH]; intros acc cur Hfuel; [lia|].
  cbn [commaList].
  eapply advances_bind; [apply Hitem | intros a c1 Hc1]. cbv beta iota.
  destruct (matches tokens [COMMA] c1) eqn:Hm; [|simpl; lia].
  assert (Hin : S c1 < length tokens)
    by (apply (matches_inside [COMMA]); [exact Hm | intros [H|[]]; discriminate]).
  eapply advances_mono; [|apply IH]; lia.
Qed.

Lemma tokens_nonempty : 0 < length tokens.
Proof. destruct lexed as [Hne _]. destruct tokens; [congruence | simpl; lia]. Qed.

Tactic Notation "items" constr(item) :=
  items_with @advances_bind @advances_mono @commaList_advances tokens_nonempty item.

Lemma parseSelectColumn_advances cur : advances (S cur) (parseSelectColumn tokens cur).
Proof. unfold parseSelectColumn. adv. Qed.

Lemma parseSelectList_advances cur : advances cur (parseSelectList tokens cur).
Proof. unfold parseSelectList. items parseSelectColumn_advances. adv. Qed.

Lemma parseFromClause_advances cur : advances (S cur) (parseFromClause tokens cur).
Proof. unfold parseFromClause. adv. Qed.

Lemma parseJoinClause_advances cur : advances (S cur) (parseJoinClause tokens cur).
Proof.
  unfold parseJoinClause.
  eapply (advances_bind _ cur).
  { destruct (matches tokens [INNER; LEFT; RIGHT] cur); adv. }
  intros a c Hc. adv.
  eapply advances_bind.
  { instantiate (1 := c1). destruct (_ && _); adv. }
  intros. adv.
Qed.

#[local] Hint Resolve parseSelectList_advances parseFromClause_advances parseJoinClause_advances : adv.

Lemma parseJoinClauses_advances n :
  forall acc cur,
    length tokens - 1 - cur <= n ->
    advances cur (parseJoinClauses tokens n acc cur).
Proof.
  induction n as [|n IH]; intros acc cur Hfuel; cbn [parseJoinClauses];
    destruct (matches tokens [JOIN; INNER; LEFT; RIGHT] cur) eqn:Hm; try (simpl; lia);
    assert (Hin : S cur < length tokens)
      by (apply (matches_inside [JOIN; INNER; LEFT; RIGHT]);
          [exact Hm | simpl; intuition discriminate]);
    [lia|].
  eapply advances_bind; [apply parseJoinClause_advances | intros j c1 Hc1]. cbv beta iota.
  eapply advances_mono; [|apply IH]; lia.
Qed.

Lemma parseWhereClause_advances cur : advances (S cur) (parseWhereClause tokens cur).
Proof. unfold parseWhereClause. adv. Qed.

Lemma parseOrderByTerm_advances cur : advances (S cur) (parseOrderByTerm tokens cur).
Proof. unfold parseOrderByTerm. adv. Qed.

Lemma parseOrderByClause_advances cur : advances (S cur) (parseOrderByClause tokens cur).
Proof.
  unfold parseOrderByClause. adv. items parseOrderByTerm_advances. adv.
Qed.

Lemma parseGroupByClause_advances cur : advances (S cur) (parseGroupByClause tokens cur).
Proof.
  unfold parseGroupByClause. adv. items parseExpression_advances. adv.
Qed.

Lemma optionalClause_advances {A} kind (clause : parsing A) cur :
  (forall c, advances (S c) (clause c)) ->
  advances cur (optionalClause tokens kind clause cur).
Proof.
  intros Hclause. unfold optionalClause.
  destruct (matches tokens [kind] cur); [|simpl; lia].
  eapply advances_bind; [apply Hclause | intros ? ? ?]. adv.
Qed.

#[local] Hint Resolve parseWhereClause_advances parseOrderByClause_advances
  parseGroupByClause_advances optionalClause_advances : adv.

Lemma parseSelectStatement_advances cur : advances (S cur) (parseSelectStatement tokens cur).
Proof.
  unfold parseSelectStatement. adv.
  eapply advances_bind; [apply parseJoinClauses_advances; lia | intros ? ? ?]. adv.
Qed.

Lemma parseCreateDatabaseStatement_advances cur :
  advances (S cur) (parseCreateDatabaseStatement tokens cur).
Proof. unfold parseCreateDatabaseStatement. adv. Qed.

Lemma parseColumnType_advances cur : advances (S cur) (parseColumnType tokens cur).
Proof. unfold parseColumnType. adv. Qed.

#[local] Hint Resolve parseCreateDatabaseStatement_advances parseColumnType_advances : adv.

Lemma parseColumnConstraints_advances n :
  forall constraints defaultValue autoIncrement cur,
    length tokens - 1 - cur <= n ->
    advances cur
      (parseColumnConstraints tokens n constraints defaultValue autoIncrement cur).
Proof.
  induction n as [|n IH]; intros constraints defaultValue autoIncrement cur Hfuel;
    cbn [parseColumnConstraints];
    destruct (matches tokens [PRIMARY; UNIQUE; NOT; AUTO; DEFAULT] cur) eqn:Hm;
    try (simpl; lia);
    assert (Hin : S cur < length tokens)
      by (apply (matches_inside [PRIMARY; UNIQUE; NOT; AUTO; DEFAULT]);
          [exact Hm | simpl; intuition discriminate]);
    [lia|].
  assert (Hloop : forall cs d a c, S cur <= c ->
            advances cur (parseColumnConstraints tokens n cs d a c)).
  { intros cs d a c Hc. eapply advances_mono; [|apply IH]; lia. }
  repeat match goal with
         | |- advances _ (if ?b then _ else _) => destruct b
         end; adv; apply Hloop; lia.
Qed.

Lemma parseColumnDefinition_advances cur :
  advances (S cur) (parseColumnDefinition tokens cur).
Proof.
  unfold parseColumnDefinition. adv.
  eapply advances_bind; [apply parseColumnConstraints_advances; lia | intros ? ? ?]. adv.
Qed.

Lemma parseTableConstraint_advances cur :
  advances (S cur) (parseTableConstraint tokens cur).
Proof. unfold parseTableConstraint. adv. Qed.

#[local] Hint Resolve parseColumnDefinition_advances parseTableConstraint_advances : adv.

Lemma parseTableEntry_advances cur : advances (S cur) (parseTableEntry tokens cur).
Proof. unfold parseTableEntry. adv. Qed.

Lemma parseCreateTableStatement_advances cur :
  advances (S cur) (parseCreateTableStatement tokens cur).
Proof.
  unfold parseCreateTableStatement. adv. items parseTableEntry_advances. adv.
Qed.

#[local] Hint Resolve parseCreateTableStatement_advances : adv.

Lemma parseCreateStatement_advances cur :
  advances (S cur) (parseCreateStatement tokens cur).
Proof. unfold parseCreateStatement. adv. Qed.

Lemma parseName_advances cur : advances (S cur) (parseName tokens cur).
Proof. unfold parseName. adv. Qed.

#[local] Hint Resolve parseName_advances : adv.

Lemma parseInsertStatement_advances cur :
  advances (S cur) (parseInsertStatement tokens cur).
Proof.
  unfold parseInsertStatement. adv.
  eapply (advances_bind _ c1).
  { destruct (matches tokens [OPEN_PAREN] c1); adv.
    items parseName_advances. adv. }
  intros ? ? ?. adv. items parseExpression_advances. adv.
Qed.

Lemma parseAssignment_advances cur : advances (S cur) (parseAssignment tokens cur).
Proof. unfold parseAssignment. adv. Qed.

Lemma parseUpdateStatement_advances cur :
  advances (S cur) (parseUpdateStatement tokens cur).
Proof.
  unfold parseUpdateStatement. adv. items parseAssignment_advances. adv.
Qed.

Lemma parseDeleteStatement_advances cur :
  advances (S cur) (parseDeleteStatement tokens cur).
Proof. unfold parseDeleteStatement. adv. Qed.

Lemma parseStatement_advances cur : advances (S cur) (parseStatement tokens cur).
Proof.
  unfold parseStatement. cbv zeta.
  destruct (type (getCurrentToken tokens cur)); try exact I.
  - apply parseSelectStatement_advances.
  - apply parseInsertStatement_advances.
  - apply parseUpdateStatement_advances.
  - apply parseDeleteStatement_advances.
  - apply parseCreateStatement_advances.
Qed.

Lemma parseStatements_advances n :
  forall statements cur,
    length tokens - 1 - cur <= n ->
    advances cur (parseStatements tokens n statements cur).
Proof.
  induction n as [|n IH]; intros statements cur Hfuel; cbn [parseStatements];
    destruct (matches tokens [EOF] cur) eqn:Hm; try (simpl; lia);
    assert (Hin : S cur < length tokens)
      by (apply not_EOF_inside; unfold matches in Hm; simpl in Hm;
          intros Heof; rewrite Heof in Hm; discriminate Hm);
    [lia|].
  eapply advances_bind; [apply parseStatement_advances | intros statement c1 Hc1].
  cbv beta iota zeta.
  destruct (matches tokens [SEMICOLON] c1);
    (eapply advances_mono; [|apply IH]; lia).
Qed.

Lemma parse_halts : halts (parse tokens).
Proof.
  rewrite parse_nonempty by apply lexed.
  pose proof (parseStatements_advances (length tokens) [] 0) as H.
  destruct (parseStatements tokens (length tokens) [] 0) as [[statements c]|[]]; simpl;
    try exact I.
  - now destruct statements as [|s [|s' rest]].
  - apply H. lia.
Qed.

End ParserTotal.

(** X4.  The parser always comes to an end.  On the text of any input,
    and on any token list that ends with EOF, parsing stops within its
    budget, with a program or with an error of its own; and every
    statement it parses takes at least one token, so the loop over the
    statements moves on. *)
Theorem parser_always_halts :
  forall sql : string,
    halts (parseText sql)
    /\ (forall tokens : list Token,
          endsWithEOF tokens ->
          halts (Parser.parse tokens)
          /\ forall cur, advances (S cur) (Parser.parseStatement tokens cur)).
Proof.
  intros sql. split.
  - unfold parseText, Lexer.tokenize.
    pose proof (tokenizeLoop_spec (S (length (Lexer.rest (Lexer.new sql))))
                  (Lexer.new sql) [] (Nat.lt_succ_diag_r _)) as Hlex.
    destruct (Lexer.tokenizeLoop _ (Lexer.new sql) []) as [tokens|[]];
      try exact I; try contradiction.
    destruct Hlex as (body & -> & _ & _). cbn [bind app].
    apply parse_halts. split.
    + now destruct body.
    + now rewrite last_last.
  - intros tokens Hlexed. split.
    + now apply parse_halts.
    + intros cur. now apply parseStatement_advances.
Qed.

(* ------------------------------------------------------------------ *)
(** ** Select lists *)

Section Star.

Import Parser.

Variable tokens : list Token.

Lemma typeIs_both x : typeIs IDENTIFIER x && typeIs DOT x = false.
Proof. destruct x as [[]|]; reflexivity. Qed.

(** X5.  In a select list the star always stands for every column of the
    row: the test for a star qualified with a table looks for one token
    that is both an identifier and a dot, so a qualified star is never
    built; and written out, [tabela.*] is refused, because after the dot
    the parser insists on an identifier. *)
Theorem select_star_is_never_qualified :
  forall cur : nat,
    (matches tokens [ASTERISK] cur = true ->
     parseSelectColumn tokens cur
     = Ok (ColumnExpression.mk (AllColumnsExpression None) None, S cur))
    /\ (type (getCurrentToken tokens cur) = IDENTIFIER ->
        type (getCurrentToken tokens (S cur)) = DOT ->
        type (getCurrentToken tokens (S (S cur))) = ASTERISK ->
        parseSelectColumn tokens cur = Err (unexpectedToken tokens (S (S cur)) IDENTIFIER))
    /\ parseText "selecionar u.* de usuarios u"
       = Err (Thrown "Erro de sintaxe na posição 13: Esperado IDENTIFIER, encontrado *").
Proof.
  intros cur. split; [|split].
  - intros Hstar. unfold parseSelectColumn. rewrite Hstar. unfold consume. cbn [bind].
    rewrite <- andb_assoc, typeIs_both, andb_false_r. reflexivity.
  - intros Hident Hdot Hstar.
    assert (Hexpr : parseExpression tokens cur
                    = Err (unexpectedToken tokens (S (S cur)) IDENTIFIER)).
    { unfold parseExpression. cbn [parseExpressionAt].
      unfold parseOrExpression, parseAndExpression, parseComparisonExpression,
        parsePrimaryExpression. cbv zeta. rewrite Hident.
      unfold parseIdentifierExpression, consume. rewrite Hident. cbn [TokenType_beq bind].
      unfold matches. rewrite Hdot. cbn [existsb TokenType_beq orb bind].
      rewrite Hstar. cbn [TokenType_beq]. unfold Parser.error, throw. cbn [bind].
      unfold unexpectedToken. cbv zeta. rewrite Hstar. reflexivity. }
    unfold parseSelectColumn, matches. rewrite Hident. cbn [existsb TokenType_beq orb].
    rewrite Hexpr. reflexivity.
  - vm_compute. reflexivity.
Qed.

End Star.

(** X6.  Two columns of the same name in a select list, be they of different
    tables, come out as one: the projected row is keyed by the bare
    name, and the value of the second column replaces that of the
    first. *)
Theorem projection_same_name_collides :
  forall (row : Record_) (name : string) (first second : option string),
    exists value,
      evaluateExpression (IdentifierExpression name second) row = Ok value
      /\ projectRow row (twoColumns name first second) [] = Ok [(name, value)].
Proof.
  intros row name first second. eexists. split; [reflexivity|].
  cbn [projectRow twoColumns projectColumn ColumnExpression.expression
       ColumnExpression.alias evaluateExpression bind orElse getExpressionName].
  f_equal. unfold set at 2. cbn [has lookup].
  assert (Hfirst : forall v : jsval,
            match arrayIndex name with
            | Some n => insertIndex n name v []
            | None => [] ++ [(name, v)]
            end = [(name, v)]) by (intros v; now destruct (arrayIndex name)).
  rewrite Hfirst. unfold set, has. cbn [lookup replace]. now rewrite String.eqb_refl.
Qed.

(* ------------------------------------------------------------------ *)
(** ** Conditions *)

(** X7.  A condition whose left operand is itself a comparison is never
    decided: before it looks at its own operator, [evaluateCondition]
    evaluates both operands as expressions, and an expression knows the
    four arithmetic operators only.  So the conjunction or disjunction of
    two comparisons raises the error of the unsupported operator as soon
    as it is evaluated on a row. *)
Theorem condition_over_comparison_throws :
  forall (a b rhs : Expr) (operator connective : string) (row : Record_) (va vb : jsval),
    evaluateExpression a row = Ok va ->
    evaluateExpression b row = Ok vb ->
    isArithmetic operator = false ->
    evaluateCondition (BinaryExpression (BinaryExpression a operator b) connective rhs) row
    = Err (Thrown ("Operador matemático não suportado: " ++ operator))
    /\ (forall rows, applyWhere (row :: rows)
                       (BinaryExpression (BinaryExpression a operator b) connective rhs)
                     = Err (Thrown ("Operador matemático não suportado: " ++ operator))).
Proof.
  intros a b rhs operator connective row va vb Ha Hb Hop.
  unfold isArithmetic in Hop.
  apply orb_false_elim in Hop. destruct Hop as [Hop Hdiv].
  apply orb_false_elim in Hop. destruct Hop as [Hop Hmul].
  apply orb_false_elim in Hop. destruct Hop as [Hadd Hsub].
  assert (H : evaluateCondition
                (BinaryExpression (BinaryExpression a operator b) connective rhs) row
              = Err (Thrown ("Operador matemático não suportado: " ++ operator))).
  { cbn [evaluateCondition evaluateExpression]. rewrite Ha, Hb. cbn [bind].
    rewrite Hadd, Hsub, Hmul, Hdiv. reflexivity. }
  split; [exact H|]. intros rows. cbn [applyWhere]. rewrite H. reflexivity.
Qed.

Lemma condition_over_comparison_throws_witness :
  parseText "selecionar * de itens onde id = 1 ou id = 2"
  = Ok (One (SelectStatement
               (SelectList.mk [ColumnExpression.mk (AllColumnsExpression None) None])
               (FromClause.mk "itens" None)
               (Some (WhereClause.mk
                        (BinaryExpression
                           (BinaryExpression (IdentifierExpression "id" None) "="
                              (LiteralExpression (VNum 1) "NUMBER"))
                           "ou"
                           (BinaryExpression (IdentifierExpression "id" None) "="
                              (LiteralExpression (VNum 2) "NUMBER")))))
               [] None None))
  /\ evaluateCondition
       (BinaryExpression
          (BinaryExpression (IdentifierExpression "id" None) "="
             (LiteralExpression (VNum 1) "NUMBER"))
          "ou"
          (BinaryExpression (IdentifierExpression "id" None) "="
             (LiteralExpression (VNum 2) "NUMBER")))
       [("id", VNum 1)]
     = Err (Thrown "Operador matemático não suportado: =")
  /\ fst (executeCommand "2024" (Some "loja")
            "selecionar * de itens onde id = 1 ou id = 2" threeItems)
     = Ok (failure "Operador matemático não suportado: =").
Proof.
  split; [vm_compute; reflexivity|]. split.
  - apply (condition_over_comparison_throws
             (IdentifierExpression "id" None) (LiteralExpression (VNum 1) "NUMBER")
             (BinaryExpression (IdentifierExpression "id" None) "="
                (LiteralExpression (VNum 2) "NUMBER"))
             "=" "ou" [("id", VNum 1)] (VNum 1) (VNum 1) eq_refl eq_refl eq_refl).
  - vm_compute. reflexivity.
Defined.

(** X8.  WHERE keeps the rows on which its condition holds, in their order,
    and fails when the condition fails on a row.  A condition that is
    not a comparison (a bare column or a literal) holds on every row,
    whatever the column contains. *)
Theorem applyWhere_keeps_matching_rows :
  forall resultSet : list Record_,
    (forall value type, applyWhere resultSet (LiteralExpression value type) = Ok resultSet)
    /\ (forall name tableName,
          applyWhere resultSet (IdentifierExpression name tableName) = Ok resultSet)
    /\ (forall condition keep,
          (forall row, In row resultSet -> evaluateCondition condition row = Ok (keep row)) ->
          applyWhere resultSet condition = Ok (filter keep resultSet))
    /\ (forall condition row e,
          In row resultSet -> evaluateCondition condition row = Err e ->
          exists e', applyWhere resultSet condition = Err e').
Proof.
  intros resultSet.
  assert (Hfilter : forall condition keep,
            (forall row, In row resultSet -> evaluateCondition condition row = Ok (keep row)) ->
            applyWhere resultSet condition = Ok (filter keep resultSet)).
  { intros condition keep. induction resultSet as [|row rest IH]; intros H; [reflexivity|].
    cbn [applyWhere filter]. rewrite (H row) by now left. cbn [bind].
    rewrite IH by (intros r Hr; apply H; now right). reflexivity. }
  assert (Hall : forall condition,
            (forall row, evaluateCondition condition row = Ok true) ->
            applyWhere resultSet condition = Ok resultSet).
  { intros condition H. rewrite (Hfilter condition (fun _ => true)) by (intros; apply H).
    f_equal. clear. induction resultSet as [|row rest IH]; [reflexivity|]. simpl.
    now rewrite IH. }
  split; [|split; [|split; [exact Hfilter|]]].
  - intros value type. now apply Hall.
  - intros name tableName. now apply Hall.
  - intros condition row e. clear Hfilter Hall.
    induction resultSet as [|r rest IH]; intros Hin He; [destruct Hin|].
    cbn [applyWhere]. destruct Hin as [->|Hin].
    + rewrite He. eexists. reflexivity.
    + destruct (evaluateCondition condition r); [|eexists; reflexivity]. cbn [bind].
      destruct (IH Hin He) as (e' & ->). eexists. reflexivity.
Qed.

(* ------------------------------------------------------------------ *)
(** ** Joins and orderings *)

Section Join.

Variables (rightResultSet : list Record_) (joinClause : JoinClause.t).
Variable hit : Record_ -> Record_ -> bool.

Lemma joinMatches_filter leftRow :
  (forall rightRow, In rightRow rightResultSet ->
     evaluateCondition (JoinClause.onCondition joinClause) (assign leftRow rightRow)
     = Ok (hit leftRow rightRow)) ->
  joinMatches (JoinClause.onCondition joinClause) leftRow rightResultSet
  = Ok (map (assign leftRow) (filter (hit leftRow) rightResultSet)).
Proof.
  induction rightResultSet as [|r rs IH]; intros H; [reflexivity|].
  cbn [joinMatches filter]. rewrite (H r) by now left. cbn [bind].
  rewrite IH by (intros r' Hr'; apply H; now right). cbn [bind].
  now destruct (hit leftRow r).
Qed.

Lemma joinRow_not_left leftRow :
  JoinClause.joinType joinClause <> LEFT ->
  (forall rightRow, In rightRow rightResultSet ->
     evaluateCondition (JoinClause.onCondition joinClause) (assign leftRow rightRow)
     = Ok (hit leftRow rightRow)) ->
  joinRow rightResultSet joinClause leftRow
  = Ok (map (assign leftRow) (filter (hit leftRow) rightResultSet)).
Proof.
  intros Hkind H. unfold joinRow. rewrite (joinMatches_filter leftRow H). cbn [bind].
  destruct (map _ _); [|reflexivity].
  destruct (TokenType_beq _ LEFT) eqn:Hleft; [|reflexivity].
  apply internal_TokenType_dec_bl in Hleft. contradiction.
Qed.

End Join.

Lemma joinRow_joinType rightResultSet joinClause joinType leftRow :
  JoinClause.joinType joinClause <> LEFT -> joinType <> LEFT ->
  joinRow rightResultSet (withJoinType joinType joinClause) leftRow
  = joinRow rightResultSet joinClause leftRow.
Proof.
  intros H1 H2. unfold joinRow, withJoinType. cbn [JoinClause.onCondition JoinClause.joinType].
  destruct (joinMatches _ _ _) as [[|m ms]|e]; cbn [bind]; try reflexivity.
  destruct (TokenType_beq joinType LEFT) eqn:Ha.
  { apply internal_TokenType_dec_bl in Ha. contradiction. }
  destruct (TokenType_beq (JoinClause.joinType joinClause) LEFT) eqn:Hb.
  { apply internal_TokenType_dec_bl in Hb. contradiction. }
  reflexivity.
Qed.

(** X9.  A join that is not a LEFT join returns the matching pairs and
    nothing else: a left row without partner is dropped, and so is a
    right row without partner, in a RIGHT join too, which returns what
    the INNER join returns. *)
Theorem right_join_is_inner_join :
  forall (leftResultSet rightResultSet : list Record_) (joinClause : JoinClause.t),
    JoinClause.joinType joinClause <> LEFT ->
    performJoin leftResultSet rightResultSet joinClause
    = performJoin leftResultSet rightResultSet (withJoinType INNER joinClause)
    /\ (forall hit,
          (forall leftRow rightRow,
             In leftRow leftResultSet -> In rightRow rightResultSet ->
             evaluateCondition (JoinClause.onCondition joinClause) (assign leftRow rightRow)
             = Ok (hit leftRow rightRow)) ->
          performJoin leftResultSet rightResultSet joinClause
          = Ok (matchingPairs hit leftResultSet rightResultSet)).
Proof.
  intros leftResultSet rightResultSet joinClause Hkind. split.
  - induction leftResultSet as [|l ls IH]; [reflexivity|]. cbn [performJoin].
    rewrite (joinRow_joinType rightResultSet joinClause INNER l Hkind) by discriminate.
    now rewrite IH.
  - intros hit. induction leftResultSet as [|l ls IH]; intros H; [reflexivity|].
    cbn [performJoin]. unfold matchingPairs. cbn [flat_map].
    rewrite (joinRow_not_left rightResultSet joinClause hit l Hkind)
      by (intros r Hr; apply H; [now left | exact Hr]).
    cbn [bind]. rewrite IH by (intros l' r Hl Hr; apply H; [now right | exact Hr]).
    reflexivity.
Qed.

Lemma right_join_is_inner_join_witness :
  let ana : Record_ := [("u.id", VNum 1); ("id", VNum 1)] in
  let post : Record_ := [("p.usuario_id", VNum 1); ("usuario_id", VNum 1)] in
  let orphan : Record_ := [("p.usuario_id", VNum 9); ("usuario_id", VNum 9)] in
  let joinClause := withJoinType RIGHT postsJoin in
  JoinClause.joinType joinClause <> LEFT
  /\ performJoin [ana] [post; orphan] joinClause
     = performJoin [ana] [post; orphan] (withJoinType INNER joinClause)
  /\ performJoin [ana] [post; orphan] joinClause = Ok [assign ana post].
Proof.
  intros ana post orphan joinClause.
  assert (Hkind : JoinClause.joinType joinClause <> LEFT) by discriminate.
  destruct (right_join_is_inner_join [ana] [post; orphan] joinClause Hkind) as [Hsame _].
  split; [exact Hkind|]. split; [exact Hsame | reflexivity].
Defined.

(* ------------------------------------------------------------------ *)

Section OrderBy.

Local Open Scope Z_scope.

Variable expression : Expr.
Variable direction : string.
Variable key : Record_ -> Z.

Local Abbreviation cmp := (compareRows [OrderByExpression.mk expression direction]).
Local Abbreviation keyed := (keyedBy expression key).

Lemma compareRows_numbers a b :
  keyed a -> keyed b ->
  exists c, cmp a b = Ok c /\ ((0 <? c) = false <-> inOrder key direction a b).
Proof.
  unfold keyedBy, inOrder. intros Ha Hb.
  cbn [compareRows OrderByExpression.expression OrderByExpression.direction].
  rewrite Ha, Hb. cbn [bind]. unfold lessThan, greaterThan, relCompare. cbn [toNumber bind].
  destruct (Z.compare_spec (key a) (key b)) as [Heq|Hlt|Hgt]; cbn [bind negb Z.eqb];
    destruct (direction =? "DESC")%string; eexists; (split; [reflexivity|]); simpl;
    split; intros; try lia; try reflexivity; try discriminate.
Qed.

Lemma inOrder_trans a b c :
  inOrder key direction a b -> inOrder key direction b c -> inOrder key direction a c.
Proof. unfold inOrder. destruct (direction =? "DESC")%string; lia. Qed.

Lemma inOrder_total a b : inOrder key direction a b \/ inOrder key direction b a.
Proof. unfold inOrder. destruct (direction =? "DESC")%string; lia. Qed.

Lemma insertSorted_spec x :
  keyed x ->
  forall sorted,
    Forall keyed sorted ->
    StronglySorted (inOrder key direction) sorted ->
    exists out,
      insertSorted cmp x sorted = Ok out
      /\ Permutation (x :: sorted) out
      /\ StronglySorted (inOrder key direction) out.
Proof.
  intros Hx. induction sorted as [|y rest IH]; intros Hkeys Hsorted.
  - exists [x]. repeat split; [reflexivity | repeat constructor].
  - inversion Hkeys as [|? ? Hy Hrest]; subst.
    inversion Hsorted as [|? ? Hsrest Hall]; subst.
    cbn [insertSorted].
    destruct (compareRows_numbers x y Hx Hy) as (c & -> & Hc). cbn [bind].
    destruct (0 <? c) eqn:Hpos.
    + destruct (IH Hrest Hsrest) as (out & -> & Hperm & Hout). cbn [bind].
      exists (y :: out). repeat split.
      * rewrite perm_swap. now constructor.
      * constructor; [exact Hout|].
        eapply Permutation_Forall; [exact Hperm|]. constructor; [|exact Hall].
        destruct (inOrder_total y x) as [H|H]; [exact H|].
        apply Hc in H. discriminate.
    + exists (x :: y :: rest). repeat split; [reflexivity|].
      constructor; [exact Hsorted|].
      assert (Hxy : inOrder key direction x y) by now apply Hc.
      constructor; [exact Hxy|].
      eapply Forall_impl; [|exact Hall]. intros z Hz. now apply (inOrder_trans x y z).
Qed.

Lemma sortRows_spec rows :
  Forall keyed rows ->
  exists sorted,
    sortRows cmp rows = Ok sorted
    /\ Permutation rows sorted
    /\ StronglySorted (inOrder key direction) sorted.
Proof.
  induction rows as [|x rest IH]; intros Hkeys.
  - exists []. repeat split; [reflexivity | constructor].
  - inversion Hkeys as [|? ? Hx Hrest]; subst.
    destruct (IH Hrest) as (sorted & Hrun & Hperm & Hsorted).
    cbn [sortRows]. rewrite Hrun. cbn [bind].
    destruct (insertSorted_spec x Hx sorted) as (out & -> & Hp & Hs).
    + eapply Permutation_Forall; [exact Hperm | exact Hrest].
    + exact Hsorted.
    + exists out. repeat split; [|exact Hs].
      rewrite <- Hp. now constructor.
Qed.

End OrderBy.

(** X10.  ORDER BY on one ordering term whose value is a number on every row
    returns the same rows, each as often as before, in ascending order of
    that value, or in descending order when the direction is DESC. *)
Theorem applyOrderBy_sorts_numbers :
  forall (rows : list Record_) (expression : Expr) (direction : string)
         (key : Record_ -> Z),
    (forall row, In row rows -> evaluateExpression expression row = Ok (VNum (key row))) ->
    exists sorted,
      applyOrderBy rows (orderBy expression direction) = Ok sorted
      /\ Permutation rows sorted
      /\ StronglySorted (inOrder key direction) sorted.
Proof.
  intros rows expression direction key Hkeys.
  apply sortRows_spec. now apply Forall_forall.
Qed.

Lemma applyOrderBy_sorts_numbers_witness :
  let rows : list Record_ := [[("id", VNum 2)]; [("id", VNum 3)]; [("id", VNum 1)]] in
  let key := fun row : Record_ => match getv row "id" with VNum n => n | _ => 0%Z end in
  applyOrderBy rows (orderBy (IdentifierExpression "id" None) "DESC")
  = Ok [[("id", VNum 3)]; [("id", VNum 2)]; [("id", VNum 1)]]
  /\ exists sorted,
       applyOrderBy rows (orderBy (IdentifierExpression "id" None) "DESC") = Ok sorted
       /\ StronglySorted (inOrder key "DESC") sorted.
Proof.
  intros rows key. split; [reflexivity|].
  destruct (applyOrderBy_sorts_numbers rows (IdentifierExpression "id" None) "DESC" key)
    as (sorted & Hrun & _ & Hsorted).
  - intros row [<-|[<-|[<-|[]]]]; reflexivity.
  - exists sorted. split; assumption.
Defined.

(* ------------------------------------------------------------------ *)

Lemma sortRows_ordered cmp rows :
  (forall before x y after, rows = before ++ x :: y :: after -> cmp x y = Ok 0%Z) ->
  sortRows cmp rows = Ok rows.
Proof.
  induction rows as [|x rest IH]; intros H; [reflexivity|].
  cbn [sortRows]. rewrite IH.
  - cbn [bind]. destruct rest as [|y rest']; [reflexivity|].
    cbn [insertSorted]. rewrite (H [] x y rest' eq_refl). reflexivity.
  - intros before a b after ->. apply (H (x :: before) a b after). reflexivity.
Qed.

(** X11.  Ordering happens after the projection.  On rows in which the
    ordering column is undefined, be it because the select list left it
    out, the comparison of any two rows is a tie and ORDER BY returns the
    rows in the order it got them, whatever the direction. *)
Theorem applyOrderBy_undefined_keeps_order :
  forall (rows : list Record_) (name : string) (tableName : option string)
         (direction : string),
    (forall row, In row rows ->
       evaluateExpression (IdentifierExpression name tableName) row = Ok VUndef) ->
    applyOrderBy rows (orderBy (IdentifierExpression name tableName) direction) = Ok rows.
Proof.
  intros rows name tableName direction H. unfold applyOrderBy, orderBy.
  cbn [OrderByClause.expressions].
  apply sortRows_ordered. intros before x y after ->.
  cbn [compareRows OrderByExpression.expression].
  rewrite (H x), (H y) by (apply in_or_app; right; simpl; tauto).
  reflexivity.
Qed.

Lemma applyOrderBy_undefined_keeps_order_witness :
  applyOrderBy namesOnly (orderBy (IdentifierExpression "id" None) "DESC") = Ok namesOnly
  /\ rowsOf "2024" "blog" "selecionar nome de usuarios ordenar por id decrescente"
       blogWithoutPosts
     = Ok (Some namesOnly)
  /\ rowsOf "2024" "blog" "selecionar id, nome de usuarios ordenar por id decrescente"
       blogWithoutPosts
     = Ok (Some [[("id", VNum 2); ("nome", VStr "bia")];
                 [("id", VNum 1); ("nome", VStr "ana")]]).
Proof.
  split; [|split; vm_compute; reflexivity].
  apply (applyOrderBy_undefined_keeps_order namesOnly "id" None "DESC").
  intros row [<-|[<-|[]]]; reflexivity.
Defined.

(* ------------------------------------------------------------------ *)
(** ** UPDATE and DELETE *)

(** X12.  UPDATE changes the records where they are: the table keeps its
    record keys, in their order; the number reported is at most the
    number of records and, without WHERE, exactly that number; and a
    record on which the WHERE condition is false is kept as it was. *)
Theorem updateRecords_keeps_keys :
  forall (assignments : list Assignment.t) (whereClause : option WhereClause.t)
         (entries entries' : obj Record_) (updatedCount : nat),
    updateRecords assignments whereClause entries = Ok (entries', updatedCount) ->
    keys entries' = keys entries
    /\ updatedCount <= length entries
    /\ (whereClause = None -> updatedCount = length entries)
    /\ (forall key record,
          In (key, record) entries -> matchesWhere whereClause record = Ok false ->
          In (key, record) entries').
Proof.
  intros assignments whereClause entries.
  induction entries as [|[regId record] rest IH]; intros entries' updatedCount Hrun.
  - injection Hrun as <- <-. repeat split; auto.
  - cbn [updateRecords] in Hrun.
    destruct (matchesWhere whereClause record) as [shouldUpdate|] eqn:Hwhere;
      [|discriminate Hrun].
    cbn [bind] in Hrun.
    destruct (if shouldUpdate then applyAssignments assignments record else Ok record)
      as [record'|] eqn:Hrec; [|discriminate Hrun].
    cbn [bind] in Hrun.
    destruct (updateRecords assignments whereClause rest) as [[rest' n]|]; [|discriminate Hrun].
    cbn [bind] in Hrun. injection Hrun as <- <-.
    destruct (IH rest' n eq_refl) as (Hkeys & Hn & Hall & Hkeep).
    repeat split.
    + simpl. now rewrite Hkeys.
    + destruct shouldUpdate; simpl; lia.
    + intros Hnone. specialize (Hall Hnone). subst whereClause.
      simpl in Hwhere. injection Hwhere as <-. simpl. lia.
    + intros key r [Heq|Hin] Hfalse.
      * injection Heq as <- <-. rewrite Hfalse in Hwhere. injection Hwhere as <-.
        injection Hrec as <-. now left.
      * right. now apply Hkeep.
Qed.

Lemma updateRecords_keeps_keys_witness :
  let entries : obj Record_ := [("reg_1", [("id", VNum 1)]); ("reg_2", [("id", VNum 2)])] in
  let entries' : obj Record_ := [("reg_1", [("id", VNum 1)]); ("reg_2", [("id", VNum 7)])] in
  updateRecords [Assignment.mk "id" (LiteralExpression (VNum 7) "NUMBER")]
    (whereIdIs 2) entries = Ok (entries', 1)
  /\ keys entries' = keys entries
  /\ In ("reg_1", [("id", VNum 1)]) entries'.
Proof.
  intros entries entries'.
  assert (Hrun : updateRecords [Assignment.mk "id" (LiteralExpression (VNum 7) "NUMBER")]
                   (whereIdIs 2) entries = Ok (entries', 1)) by reflexivity.
  destruct (updateRecords_keeps_keys _ _ _ _ _ Hrun) as (Hkeys & _ & _ & Hkeep).
  split; [exact Hrun|]. split; [exact Hkeys|].
  apply Hkeep; [now left | reflexivity].
Defined.

Lemma deleteRecords_filter whereClause selected entries :
  (forall key record, In (key, record) entries ->
     matchesWhere whereClause record = Ok (selected record)) ->
  (forall key, In key (keys entries) -> arrayIndex key = None) ->
  forall remainingRecords deletedCount,
    NoDup (keys remainingRecords ++ keys entries) ->
    deleteRecords whereClause entries remainingRecords deletedCount
    = Ok (remainingRecords ++ filter (fun e => negb (selected (snd e))) entries,
          deletedCount + length (filter (fun e => selected (snd e)) entries)).
Proof.
  induction entries as [|[key record] entries IH];
    intros Hsel Hidx remainingRecords deletedCount Hnd.
  - simpl. now rewrite app_nil_r, Nat.add_0_r.
  - cbn [deleteRecords]. rewrite (Hsel key record) by now left. cbn [bind snd filter].
    assert (Hsel' : forall k r, In (k, r) entries ->
              matchesWhere whereClause r = Ok (selected r))
      by (intros k r H; apply (Hsel k); now right).
    assert (Hidx' : forall k, In k (keys entries) -> arrayIndex k = None)
      by (intros k H; apply Hidx; now right).
    destruct (selected record); cbn [negb].
    + rewrite IH; auto.
      * simpl. do 2 f_equal. lia.
      * simpl in Hnd. now apply NoDup_remove_1 in Hnd.
    + assert (Hfresh : ~ In key (keys remainingRecords)).
      { simpl in Hnd. apply NoDup_remove_2 in Hnd. intros H. apply Hnd.
        apply in_or_app. now left. }
      rewrite set_fresh by (auto; apply Hidx; now left).
      rewrite IH; auto.
      * now rewrite <- app_assoc.
      * unfold keys. rewrite map_app. simpl. rewrite <- app_assoc. exact Hnd.
Qed.

(** X13.  DELETE keeps exactly the records on which the WHERE condition is
    false, under their keys and in their order, and reports the number
    of the others: the records kept and the records reported deleted add
    up to the records there were. *)
Theorem deleteRecords_partitions :
  forall (whereClause : option WhereClause.t) (selected : Record_ -> bool)
         (entries : obj Record_),
    wellFormed entries ->
    (forall key, In key (keys entries) -> arrayIndex key = None) ->
    (forall key record, In (key, record) entries ->
       matchesWhere whereClause record = Ok (selected record)) ->
    exists remainingRecords deletedCount,
      deleteRecords whereClause entries [] 0 = Ok (remainingRecords, deletedCount)
      /\ remainingRecords = filter (fun e => negb (selected (snd e))) entries
      /\ deletedCount = length (filter (fun e => selected (snd e)) entries)
      /\ length remainingRecords + deletedCount = length entries.
Proof.
  intros whereClause selected entries Hwf Hidx Hsel.
  do 2 eexists. split; [|split; [reflexivity|split; [reflexivity|]]].
  - rewrite (deleteRecords_filter whereClause selected entries Hsel Hidx [] 0 Hwf).
    reflexivity.
  - clear. induction entries as [|e entries IH]; [reflexivity|]. simpl.
    destruct (selected (snd e)); simpl; lia.
Qed.

Lemma deleteRecords_partitions_witness :
  deleteRecords (whereIdIs 2) (Tabela.registros itemsTable) [] 0
  = Ok ([("reg_1", [("id", VNum 1)]); ("reg_3", [("id", VNum 3)])], 1).
Proof.
  assert (Hregs : Tabela.registros itemsTable
                  = [("reg_1", [("id", VNum 1)]); ("reg_2", [("id", VNum 2)]);
                     ("reg_3", [("id", VNum 3)])]) by (vm_compute; reflexivity).
  rewrite Hregs.
  destruct (deleteRecords_partitions (whereIdIs 2)
              (fun record => strictEq (getv record "id") (VNum 2))
              [("reg_1", [("id", VNum 1)]); ("reg_2", [("id", VNum 2)]);
               ("reg_3", [("id", VNum 3)])])
    as (remaining & deleted & Hrun & -> & -> & _).
  - repeat constructor; simpl; intuition discriminate.
  - intros key [<-|[<-|[<-|[]]]]; reflexivity.
  - intros key record [H|[H|[H|[]]]]; injection H as <- <-; reflexivity.
  - exact Hrun.
Defined.

(** Without WHERE every record is deleted. *)
Lemma deleteRecords_all entries :
  forall remainingRecords deletedCount,
    deleteRecords None entries remainingRecords deletedCount
    = Ok (remainingRecords, deletedCount + length entries).
Proof.
  induction entries as [|[key record] entries IH]; intros remainingRecords deletedCount.
  - simpl. now rewrite Nat.add_0_r.
  - cbn [deleteRecords matchesWhere bind]. rewrite IH. simpl. do 2 f_equal. lia.
Qed.

(* ------------------------------------------------------------------ *)
(** ** All or nothing *)

Section Atomic.

Variable now : string.

Lemma readOnly_ret {A} (a : A) : readOnly (ret a).
Proof. intros w. reflexivity. Qed.

Lemma readOnly_raise {A} message : readOnly (@raise A message).
Proof. intros w. reflexivity. Qed.

Lemma readOnly_lift {A} (r : result A) : readOnly (lift r).
Proof. intros w. reflexivity. Qed.

Lemma readOnly_bind {A B} (m : M A) (k : A -> M B) :
  readOnly m -> (forall a, readOnly (k a)) -> readOnly (bindM m k).
Proof.
  intros Hm Hk w. unfold bindM. specialize (Hm w).
  destruct (m w) as [[a|e] w1]; simpl in *; subst; [apply Hk | reflexivity].
Qed.

Lemma readOnly_loadTable databaseName tableName : readOnly (loadTable databaseName tableName).
Proof.
  intros w. unfold loadTable, loadDatabase, bindM.
  destruct (lookup (dados w) databaseName); reflexivity.
Qed.

Lemma readOnly_requireTable databaseName tableName :
  readOnly (requireTable databaseName tableName).
Proof.
  apply readOnly_bind; [apply readOnly_loadTable|].
  intros [t|]; [apply readOnly_ret | apply readOnly_raise].
Qed.

Lemma readOnly_selectedDatabase currentDatabase : readOnly (selectedDatabase currentDatabase).
Proof.
  unfold selectedDatabase. destruct (present currentDatabase);
    [apply readOnly_ret | apply readOnly_raise].
Qed.

Lemma readOnly_forEachM {A S} (body : S -> A -> M S) l :
  (forall s a, readOnly (body s a)) -> forall s, readOnly (forEachM body l s).
Proof.
  intros Hbody. induction l as [|a l IH]; intros s; [apply readOnly_ret|].
  cbn [forEachM]. apply readOnly_bind; [apply Hbody | exact IH].
Qed.

Lemma readOnly_executeSelect currentDatabase selectList fromClause whereClause joinClauses
    orderByClause groupByClause :
  readOnly (executeSelect currentDatabase selectList fromClause whereClause joinClauses
              orderByClause groupByClause).
Proof.
  unfold executeSelect.
  repeat first
    [ apply readOnly_selectedDatabase | apply readOnly_requireTable | apply readOnly_lift
    | apply readOnly_ret
    | apply readOnly_forEachM; intros
    | apply readOnly_bind; [|intros] ].
Qed.

Lemma allOrNothing_readOnly (m : M Resposta.t) : readOnly m -> allOrNothing m.
Proof.
  intros H w. specialize (H w). destruct (m w) as [[reply|e] w']; simpl in H; auto.
Qed.

Lemma allOrNothing_bind {A} (m : M A) (k : A -> M Resposta.t) :
  readOnly m -> (forall a, allOrNothing (k a)) -> allOrNothing (bindM m k).
Proof.
  intros Hm Hk w. unfold bindM. specialize (Hm w).
  destruct (m w) as [[a|e] w1]; simpl in Hm; subst; [apply Hk | reflexivity].
Qed.

(** A write that may fail, followed by the report of success. *)
Lemma allOrNothing_write (write : M unit) (reply : Resposta.t) :
  (forall w e w', write w = (Err e, w') -> w' = w) ->
  Resposta.sucesso reply = true ->
  allOrNothing (bindM write (fun _ => ret reply)).
Proof.
  intros Hwrite Hok w. unfold bindM, ret.
  destruct (write w) as [[[]|e] w'] eqn:Hw.
  - intros H. congruence.
  - now apply (Hwrite w e).
Qed.

Lemma saveTable_fails databaseName tableName tableData w e w' :
  saveTable databaseName tableName tableData w = (Err e, w') -> w' = w.
Proof.
  unfold saveTable, loadDatabase, saveDatabase, bindM, raise.
  destruct (lookup (dados w) databaseName); intros H; congruence.
Qed.

Lemma saveDatabase_fails databaseName data w e w' :
  saveDatabase databaseName data w = (Err e, w') -> w' = w.
Proof. unfold saveDatabase. discriminate. Qed.

Lemma allOrNothing_executeInsert currentDatabase tableName columns values :
  allOrNothing (executeInsert currentDatabase tableName columns values).
Proof.
  unfold executeInsert.
  apply allOrNothing_bind; [apply readOnly_selectedDatabase | intros db].
  apply allOrNothing_bind; [apply readOnly_requireTable | intros tableData].
  destruct (negb _); [apply allOrNothing_readOnly, readOnly_raise|].
  apply allOrNothing_bind; [apply readOnly_lift | intros newRecord].
  apply allOrNothing_write; [intros w e w'; apply saveTable_fails | reflexivity].
Qed.

Lemma allOrNothing_executeUpdate currentDatabase tableName assignments whereClause :
  allOrNothing (executeUpdate currentDatabase tableName assignments whereClause).
Proof.
  unfold executeUpdate.
  apply allOrNothing_bind; [apply readOnly_selectedDatabase | intros db].
  apply allOrNothing_bind; [apply readOnly_requireTable | intros tableData].
  apply allOrNothing_bind; [apply readOnly_lift | intros [registros updatedCount]].
  apply allOrNothing_write; [intros w e w'; apply saveTable_fails | reflexivity].
Qed.

Lemma allOrNothing_executeDelete currentDatabase tableName whereClause :
  allOrNothing (executeDelete currentDatabase tableName whereClause).
Proof.
  unfold executeDelete.
  apply allOrNothing_bind; [apply readOnly_selectedDatabase | intros db].
  apply allOrNothing_bind; [apply readOnly_requireTable | intros tableData].
  apply allOrNothing_bind; [apply readOnly_lift | intros [remaining deletedCount]].
  apply allOrNothing_write; [intros w e w'; apply saveTable_fails | reflexivity].
Qed.

Lemma allOrNothing_createTable databaseName tableName columns tableConstraints :
  allOrNothing (createTable now databaseName tableName columns tableConstraints).
Proof.
  unfold createTable.
  apply allOrNothing_bind; [intros w; reflexivity | intros [db|]];
    [|apply allOrNothing_readOnly, readOnly_raise].
  destruct (has _ _); [apply allOrNothing_readOnly, readOnly_ret|].
  apply allOrNothing_bind; [apply readOnly_lift | intros columns'].
  apply allOrNothing_write; [intros w e w'; apply saveDatabase_fails | reflexivity].
Qed.

Lemma allOrNothing_createDatabase databaseName :
  allOrNothing (createDatabase now databaseName).
Proof.
  unfold createDatabase.
  apply allOrNothing_bind; [intros w; reflexivity | intros [|]];
    [apply allOrNothing_readOnly, readOnly_ret|].
  apply allOrNothing_write; [intros w e w'; apply saveDatabase_fails | reflexivity].
Qed.

Lemma allOrNothing_catching m : allOrNothing m -> allOrNothing (catching m).
Proof.
  intros H w. unfold catching. specialize (H w).
  destruct (m w) as [[reply|[message| |]] w']; auto.
Qed.

Lemma catching_never_throws m w message : fst (catching m w) <> Err (Thrown message).
Proof.
  unfold catching. destruct (m w) as [[reply|[msg| |]] w']; discriminate.
Qed.

End Atomic.

(** X14.  The executor turns every error a statement raises into a reply that
    reports the failure, and a statement that fails has changed nothing:
    the store is written once, at the end, when nothing can fail any
    more.  A SELECT never changes the store. *)
Theorem execute_all_or_nothing :
  forall (now : string) (currentDatabase : option string) (ast : Program) (w : World),
    (forall message, fst (execute now currentDatabase ast w) <> Err (Thrown message))
    /\ (forall reply w',
          execute now currentDatabase ast w = (Ok reply, w') ->
          Resposta.sucesso reply = false -> w' = w)
    /\ (forall e w', execute now currentDatabase ast w = (Err e, w') -> w' = w)
    /\ (forall selectList fromClause whereClause joinClauses orderByClause groupByClause,
          ast = One (SelectStatement selectList fromClause whereClause joinClauses
                       orderByClause groupByClause) ->
          snd (execute now currentDatabase ast w) = w).
Proof.
  intros now currentDatabase ast w.
  assert (Hall : allOrNothing (execute now currentDatabase ast)).
  { unfold execute. apply allOrNothing_catching.
    destruct ast as [[selectList fromClause whereClause joinClauses orderByClause groupByClause
                     | tableName columns values | tableName assignments whereClause
                     | tableName whereClause | tableName columns tableConstraints
                     | databaseName]|statements].
    - apply allOrNothing_readOnly, readOnly_executeSelect.
    - apply allOrNothing_executeInsert.
    - apply allOrNothing_executeUpdate.
    - apply allOrNothing_executeDelete.
    - unfold executeCreateTable.
      apply allOrNothing_bind; [apply readOnly_selectedDatabase | intros db].
      apply allOrNothing_createTable.
    - apply allOrNothing_createDatabase.
    - apply allOrNothing_readOnly, readOnly_raise. }
  specialize (Hall w).
  split; [|split; [|split]].
  - intros message. unfold execute. apply catching_never_throws.
  - intros reply w' Hrun. rewrite Hrun in Hall. exact Hall.
  - intros e w' Hrun. rewrite Hrun in Hall. exact Hall.
  - intros selectList fromClause whereClause joinClauses orderByClause groupByClause ->.
    unfold execute, catching.
    pose proof (readOnly_executeSelect currentDatabase selectList fromClause whereClause
                  joinClauses orderByClause groupByClause w) as Hro.
    destruct (executeSelect _ _ _ _ _ _ _ w) as [[reply|[message| |]] w']; exact Hro.
Qed.

(** X15.  Every statement but the creation of a database needs a database to
    be selected: without one, and with the empty name too, the reply is
    the failure that says so, and nothing is changed. *)
Theorem statement_needs_database :
  forall (now : string) (statement : Statement) (w : World),
    isCreateDatabase statement = false ->
    execute now None (One statement) w = (Ok (failure "Nenhum banco selecionado"), w)
    /\ execute now (Some "") (One statement) w
       = (Ok (failure "Nenhum banco selecionado"), w).
Proof.
  intros now statement w Hkind.
  destruct statement; try discriminate Hkind; split; reflexivity.
Qed.

Lemma statement_needs_database_witness :
  execute "2024" None (One (DeleteStatement "itens" None)) threeItems
  = (Ok (failure "Nenhum banco selecionado"), threeItems).
Proof.
  apply (statement_needs_database "2024" (DeleteStatement "itens" None) threeItems eq_refl).
Defined.

(* ------------------------------------------------------------------ *)
(** ** LIKE *)

Section Like.

Lemma regexTest_sequence atoms d cs :
  regexTest (AnySequence :: atoms) (d :: cs)
  = regexTest atoms (d :: cs)
    || (negb (isLineTerminator d) && regexTest (AnySequence :: atoms) cs).
Proof. reflexivity. Qed.

Lemma regexTest_sequence_empty atoms cs :
  regexTest atoms cs = true -> regexTest (AnySequence :: atoms) cs = true.
Proof.
  intros H. destruct cs as [|d cs].
  - cbn. now rewrite H.
  - now rewrite regexTest_sequence, H.
Qed.

Lemma regexTest_self cs :
  regexTest (compileLike (string_of_list_ascii cs)) cs = true.
Proof.
  unfold compileLike. rewrite list_ascii_of_string_of_list_ascii.
  induction cs as [|c cs IH]; [reflexivity|]. cbn [map].
  destruct (Ascii.eqb_spec c "%") as [->|_].
  - rewrite regexTest_sequence, (regexTest_sequence_empty _ _ IH).
    now rewrite orb_true_r.
  - destruct (Ascii.eqb_spec c "_") as [->|_]; cbn [regexTest].
    + now rewrite IH.
    + now rewrite Ascii.eqb_refl, IH.
Qed.

Lemma regexTest_percent cs :
  regexTest [AnySequence] cs = forallb (fun c => negb (isLineTerminator c)) cs.
Proof.
  induction cs as [|c cs IH]; [reflexivity|].
  rewrite regexTest_sequence, IH. reflexivity.
Qed.

Lemma canonicalize_toLowerChar c :
  canonicalize (Lexer.toLowerChar c) = canonicalize c
  /\ isLineTerminator (Lexer.toLowerChar c) = isLineTerminator c.
Proof. destruct c as [[] [] [] [] [] [] [] []]; split; reflexivity. Qed.

Lemma regexTest_toLower atoms :
  forall cs, regexTest atoms (map Lexer.toLowerChar cs) = regexTest atoms cs.
Proof.
  induction atoms as [|atom atoms IH]; intros cs.
  - now destruct cs.
  - destruct atom as [| |c].
    + induction cs as [|d cs IHcs].
      * reflexivity.
      * cbn [map]. rewrite !regexTest_sequence, IHcs.
        rewrite <- (IH (d :: cs)). cbn [map].
        now destruct (canonicalize_toLowerChar d) as [_ ->].
    + destruct cs as [|d cs]; [reflexivity|]. cbn [map regexTest].
      destruct (canonicalize_toLowerChar d) as [_ ->]. now rewrite IH.
    + destruct cs as [|d cs]; [reflexivity|]. cbn [map regexTest].
      destruct (canonicalize_toLowerChar d) as [-> _]. now rewrite IH.
Qed.

End Like.

(** X16.  LIKE as the compiled pattern decides it.  Every text matches
    itself taken as a pattern, wildcards and all; the pattern [%] matches
    exactly the texts without a line break, since the dot of the regular
    expression stops at one; and the case of the letters of the text is
    ignored. *)
Theorem like_matching :
  forall s : string,
    evaluateLike (VStr s) (VStr s) = true
    /\ evaluateLike (VStr s) (VStr "%") = singleLine s
    /\ (forall pattern,
          evaluateLike (VStr (toLowerCase s)) (VStr pattern)
          = evaluateLike (VStr s) (VStr pattern)).
Proof.
  intros s. split; [|split].
  - cbn [evaluateLike]. rewrite <- (string_of_list_ascii_of_string s) at 1.
    apply regexTest_self.
  - cbn [evaluateLike]. apply regexTest_percent.
  - intros pattern. cbn [evaluateLike]. unfold toLowerCase.
    rewrite list_ascii_of_string_of_list_ascii. apply regexTest_toLower.
Qed.

(* ------------------------------------------------------------------ *)
(** ** Result rows *)

Lemma append_injective (p a b : string) : (p ++ a = p ++ b)%string -> a = b.
Proof.
  induction p as [|c p IH]; simpl; [auto|]. intros H. injection H as H. auto.
Qed.

Section ConvertRecordRoundTrip.

Variable effectiveName : string.

Lemma qualified_startsWith campo :
  startsWith (qualified effectiveName campo) (effectiveName ++ ".") = true.
Proof. unfold qualified. rewrite <- append_assoc. apply startsWith_prefix. Qed.

Lemma convert_frame registro :
  forall row key,
    ~ In key (keys registro) ->
    (forall campo, In campo (keys registro) -> key <> qualified effectiveName campo) ->
    lookup (fold_left (convertStep effectiveName) registro row) key = lookup row key.
Proof.
  induction registro as [|[campo valor] registro IH]; intros row key Hbare Hqual; [reflexivity|].
  cbn [fold_left]. rewrite IH.
  - cbn [convertStep]. rewrite !lookup_set.
    destruct (String.eqb_spec campo key) as [->|_]; [elim Hbare; now left|].
    destruct (String.eqb_spec (effectiveName ++ "." ++ campo) key) as [<-|_];
      [|reflexivity].
    elim (Hqual campo); [now left | reflexivity].
  - intros H. apply Hbare. now right.
  - intros c Hc. apply Hqual. now right.
Qed.

Lemma convert_column registro :
  forall row campo valor,
    NoDup (keys registro) ->
    plainColumns effectiveName registro ->
    In (campo, valor) registro ->
    let converted := fold_left (convertStep effectiveName) registro row in
    lookup converted campo = Some valor
    /\ lookup converted (qualified effectiveName campo) = Some valor.
Proof.
  induction registro as [|[c v] registro IH]; intros row campo valor Hnd Hplain Hin;
    [destruct Hin|].
  simpl in Hnd. inversion Hnd as [|? ? Hfresh Hnd']; subst.
  assert (Hplain' : plainColumns effectiveName registro)
    by (intros k Hk; apply Hplain; now right).
  destruct Hin as [Heq|Hin].
  - injection Heq as -> ->. cbn [fold_left convertStep].
    assert (Hself : campo <> qualified effectiveName campo).
    { intros H. pose proof (qualified_startsWith campo) as Hq. rewrite <- H in Hq.
      rewrite (Hplain campo) in Hq by now left. discriminate. }
    split.
    + rewrite convert_frame.
      * now rewrite lookup_set, String.eqb_refl.
      * exact Hfresh.
      * intros k Hk H. pose proof (qualified_startsWith k) as Hq. rewrite <- H in Hq.
        rewrite (Hplain campo) in Hq by now left. discriminate.
    + rewrite convert_frame.
      * rewrite !lookup_set.
        destruct (String.eqb_spec campo (qualified effectiveName campo)); [contradiction|].
        unfold qualified. now rewrite String.eqb_refl.
      * intros H. pose proof (qualified_startsWith campo) as Hq.
        rewrite (Hplain' _ H) in Hq. discriminate.
      * intros k Hk H. unfold qualified in H.
        apply append_injective, append_injective in H. subst k. contradiction.
  - cbn [fold_left]. now apply IH.
Qed.

End ConvertRecordRoundTrip.

(** X17.  A stored record and the row [convertTableToResultSet] makes of it
    agree: the row holds every column of the record twice, under its
    bare name and under the name qualified with the table's effective
    name, and holds nothing else. *)
Theorem convertRecord_round_trip :
  forall (effectiveName : string) (registro : Record_),
    wellFormed registro ->
    plainColumns effectiveName registro ->
    let row := convertRecord effectiveName registro in
    (forall campo, In campo (keys registro) ->
       lookup row campo = lookup registro campo
       /\ lookup row (qualified effectiveName campo) = lookup registro campo)
    /\ (forall key,
          In key (keys row) ->
          In key (keys registro)
          \/ exists campo, In campo (keys registro) /\ key = qualified effectiveName campo).
Proof.
  intros effectiveName registro Hwf Hplain row. split.
  - intros campo Hin. apply in_map_iff in Hin. destruct Hin as ([c valor] & <- & Hin).
    cbn [fst].
    assert (Hsrc : lookup registro c = Some valor).
    { clear Hplain row. induction registro as [|[k v] registro IH]; [destruct Hin|].
      simpl in Hwf. inversion Hwf as [|? ? Hfresh Hwf']; subst. simpl.
      destruct Hin as [Heq|Hin].
      - injection Heq as -> ->. now rewrite String.eqb_refl.
      - destruct (String.eqb_spec c k) as [->|_]; [|now apply IH].
        elim Hfresh. apply in_map_iff. now exists (k, valor). }
    rewrite Hsrc.
    apply (convert_column effectiveName registro [] c valor Hwf Hplain Hin).
  - intros key Hkey.
    destruct (in_dec string_dec key (keys registro)) as [Hbare|Hbare]; [now left|].
    right.
    assert (Hex : ~ (forall campo, In campo (keys registro) ->
                       key <> qualified effectiveName campo)).
    { intros Hqual. apply has_true_iff in Hkey. unfold has, row, convertRecord in Hkey.
      change (fun row0 campo_valor => _) with (convertStep effectiveName) in Hkey.
      rewrite convert_frame in Hkey by assumption.
      discriminate Hkey. }
    clear Hkey row. induction (keys registro) as [|c ks IH].
    + elim Hex. intros campo [].
    + destruct (string_dec key (qualified effectiveName c)) as [->|Hne].
      * exists c. split; [now left | reflexivity].
      * destruct IH as (campo & Hin & ->).
        -- intros H. apply Hbare. now right.
        -- intros H. apply Hex. intros campo [<-|Hin]; [exact Hne | now apply H].
        -- exists campo. split; [now right | reflexivity].
Qed.

Lemma convertRecord_round_trip_witness :
  let registro : Record_ := [("id", VNum 1); ("nome", VStr "ana")] in
  convertRecord "u" registro
  = [("u.id", VNum 1); ("id", VNum 1); ("u.nome", VStr "ana"); ("nome", VStr "ana")]
  /\ lookup (convertRecord "u" registro) (qualified "u" "nome") = lookup registro "nome".
Proof.
  intros registro. split; [reflexivity|].
  assert (Hwf : wellFormed registro) by (repeat constructor; simpl; intuition discriminate).
  assert (Hplain : plainColumns "u" registro).
  { intros campo [<-|[<-|[]]]; reflexivity. }
  destruct (convertRecord_round_trip "u" registro Hwf Hplain) as [Hcols _].
  apply (Hcols "nome"). simpl. tauto.
Defined.

(* ------------------------------------------------------------------ *)
(** ** Stored constraints and generated values *)

Lemma split_plain s :
  noComma s = true -> split "," s = [s].
Proof.
  unfold noComma. induction s as [|c s IH]; simpl; [reflexivity|].
  intros H. apply andb_prop in H. destruct H as [Hc Hs].
  destruct (Ascii.eqb c ","); [discriminate Hc|].
  now rewrite (IH Hs).
Qed.

Lemma split_append a rest :
  noComma a = true -> split "," (a ++ String "," rest)%string = a :: split "," rest.
Proof.
  unfold noComma. induction a as [|c a IH]; simpl; [reflexivity|].
  intros H. apply andb_prop in H. destruct H as [Hc Hs].
  destruct (Ascii.eqb c ","); [discriminate Hc|].
  now rewrite (IH Hs).
Qed.

Lemma split_join strs :
  strs <> [] -> Forall (fun s => noComma s = true) strs ->
  split "," (join "," strs) = strs.
Proof.
  induction strs as [|a strs IH]; intros Hne Hall; [congruence|].
  inversion Hall as [|? ? Ha Hrest]; subst.
  destruct strs as [|b strs]; [now apply split_plain|].
  change (join "," (a :: b :: strs)) with (a ++ String "," (join "," (b :: strs)))%string.
  rewrite split_append by exact Ha. f_equal. apply IH; [discriminate | exact Hrest].
Qed.

Lemma filter_all {A} (p : A -> bool) l : Forall (fun a => p a = true) l -> filter p l = l.
Proof.
  induction 1 as [|a l Ha _ IH]; simpl; [reflexivity|]. now rewrite Ha, IH.
Qed.

Lemma join_empty strs :
  Forall (fun s => trimmedNonEmpty s = true) strs -> join "," strs = "" -> strs = [].
Proof.
  intros Hall Hjoin. destruct strs as [|a strs]; [reflexivity|].
  inversion Hall as [|? ? Ha _]; subst.
  destruct a as [|c a]; [discriminate Ha|].
  destruct strs; discriminate Hjoin.
Qed.

Lemma constraintStrings_nonblank constraints :
  forall strs,
    constraintStrings constraints = Ok strs ->
    Forall (fun s => trimmedNonEmpty s = true) strs.
Proof.
  induction constraints as [|c constraints IH]; intros strs Hrun.
  - injection Hrun as <-. constructor.
  - cbn [constraintStrings] in Hrun.
    destruct (constraintStrings constraints) as [others|e].
    2:{ repeat match type of Hrun with
               | context [if ?b then _ else _] => destruct b
               | context [match ?o with Some _ => _ | None => _ end] => destruct o
               end; discriminate Hrun. }
    specialize (IH others eq_refl).
    repeat match type of Hrun with
           | context [if ?b then _ else _] => destruct b
           | context [match ?o with Some _ => _ | None => _ end] => destruct o
           end; try discriminate Hrun; cbn [bind] in Hrun; injection Hrun as <-;
      try exact IH; constructor; try exact IH; reflexivity.
Qed.

(** X18.  The constraints of a column survive the way into the store and
    back: [createTable] joins their names with commas, the validator
    splits the text at the commas, and as long as no name holds a comma
    itself (only the text of a DEFAULT can) it reads the very list that
    was written. *)
Theorem constraints_round_trip :
  forall (constraints : list ConstraintDefinition.t) (strs : list string),
    constraintStrings constraints = Ok strs ->
    Forall (fun s => noComma s = true) strs ->
    parseConstraints (join "," strs) = strs.
Proof.
  intros constraints strs Hrun Hcommas.
  pose proof (constraintStrings_nonblank constraints strs Hrun) as Hnonblank.
  unfold parseConstraints.
  destruct (String.eqb_spec (join "," strs) "") as [Hempty|Hfull].
  - symmetry. now apply join_empty.
  - rewrite split_join; [now apply filter_all | | exact Hcommas].
    intros ->. now elim Hfull.
Qed.

Lemma constraints_round_trip_witness :
  let constraints :=
    [ConstraintDefinition.mk "AUTO_INCREMENT" None; ConstraintDefinition.mk "PRIMARY_KEY" None;
     ConstraintDefinition.mk "DEFAULT" (Some (LiteralExpression (VNum 18) "NUMBER"))] in
  constraintStrings constraints = Ok ["AUTO_INCREMENT"; "PRIMARY_KEY"; "DEFAULT:18"]
  /\ parseConstraints "AUTO_INCREMENT,PRIMARY_KEY,DEFAULT:18"
     = ["AUTO_INCREMENT"; "PRIMARY_KEY"; "DEFAULT:18"].
Proof.
  intros constraints. split; [reflexivity|].
  apply (constraints_round_trip constraints ["AUTO_INCREMENT"; "PRIMARY_KEY"; "DEFAULT:18"]
           eq_refl).
  repeat constructor.
Defined.

(* ------------------------------------------------------------------ *)

Section SuppliedValues.

Variable random : nat -> nat.
Variable tableData : Tabela.t.

Lemma truthy_not_nullish v : truthy v = true -> nullish v = false.
Proof. destruct v; simpl; congruence. Qed.

Lemma applyAutoColumn_truthy record columnName columnDef w :
  truthy (getv record columnName) = true ->
  applyAutoColumn random tableData record (columnName, columnDef) w = (Ok record, w).
Proof.
  intros Ht. unfold applyAutoColumn, bindM, ret. cbv zeta.
  rewrite Ht. cbn [negb]. rewrite andb_false_r. cbv iota.
  rewrite Ht. cbn [negb]. rewrite andb_false_r. cbv iota.
  rewrite (truthy_not_nullish _ Ht).
  now destruct (find _ _).
Qed.

Lemma applyAutoValues_truthy columnName columns :
  forall record w,
    truthy (getv record columnName) = true ->
    match forEachM (applyAutoColumn random tableData) columns record w with
    | (Ok record', _) => getv record' columnName = getv record columnName
    | (Err (OutsideModel _), _) => True
    | _ => False
    end.
Proof.
  induction columns as [|[c def] columns IH]; intros record w Ht; [reflexivity|].
  rewrite forEachM_cons. unfold bindM.
  destruct (String.eqb_spec c columnName) as [->|Hne].
  - rewrite applyAutoColumn_truthy by exact Ht. now apply IH.
  - pose proof (applyAutoColumn_spec random tableData record c def w) as Hc.
    destruct (applyAutoColumn random tableData record (c, def) w) as [[record1|[]] w1];
      try exact Hc.
    destruct Hc as [Hkeep _].
    assert (Hsame : getv record1 columnName = getv record columnName)
      by (apply Hkeep; congruence).
    specialize (IH record1 w1). rewrite Hsame in IH. specialize (IH Ht).
    destruct (forEachM _ columns record1 w1) as [[record2|[]] w2]; exact IH.
Qed.

End SuppliedValues.

(** X19.  A truthy value the candidate record supplies for a column is never
    replaced when the generated values are filled in: neither the
    auto-increment rule nor the uuid rule nor a DEFAULT touches it,
    whatever the constraints of the column. *)
Theorem supplied_value_is_kept :
  forall (random : nat -> nat) (tableData : Tabela.t) (record : Record_)
         (columnName : string) (w : World),
    truthy (getv record columnName) = true ->
    match applyAutoValues random record tableData w with
    | (Ok record', _) => getv record' columnName = getv record columnName
    | (Err (OutsideModel _), _) => True
    | _ => False
    end.
Proof.
  intros random tableData record columnName w Ht.
  now apply applyAutoValues_truthy.
Qed.

Lemma supplied_value_is_kept_witness :
  let random := fun _ : nat => 0 in
  let record : Record_ := [("id", VNum 7); ("nome", VStr "caio")] in
  truthy (getv record "id") = true
  /\ fst (applyAutoValues random record (usersTable random) (afterSecondInsert random))
     = Ok record.
Proof.
  intros random record.
  assert (Ht : truthy (getv record "id") = true) by reflexivity.
  assert (Hrun : applyAutoValues random record (usersTable random) (afterSecondInsert random)
                 = (Ok record, afterSecondInsert random)) by (vm_compute; reflexivity).
  pose proof (supplied_value_is_kept random (usersTable random) record "id"
                (afterSecondInsert random) Ht) as H.
  rewrite Hrun in H. split; [exact Ht|]. rewrite Hrun. reflexivity.
Defined.

(* ------------------------------------------------------------------ *)

Section UUID.

Variable random : nat -> nat.

Lemma hexDigit_hex v : v < 16 -> isHexDigit (hexDigit v) = true.
Proof.
  intros H. do 16 (destruct v as [|v]; [reflexivity|]). lia.
Qed.

Lemma uuidChar_x r : r < 16 -> fillsTemplate "x" (uuidChar "x" r).
Proof. intros H. unfold fillsTemplate. cbn [Ascii.eqb]. now apply hexDigit_hex. Qed.

Lemma uuidChar_y r : r < 16 -> fillsTemplate "y" (uuidChar "y" r).
Proof.
  intros H. do 16 (destruct r as [|r]; [vm_compute; tauto|]). lia.
Qed.

Lemma uuidFill_spec template :
  forall k,
    let '(out, k') := uuidFill random template k in
    Forall2 fillsTemplate template out
    /\ k' = k + length (filter (fun c => Ascii.eqb c "x" || Ascii.eqb c "y") template).
Proof.
  induction template as [|c template IH]; intros k; [simpl; split; [constructor | lia]|].
  cbn [uuidFill filter].
  assert (Hr : random k mod 16 < 16) by (apply Nat.mod_upper_bound; lia).
  destruct (Ascii.eqb_spec c "x") as [->|Hx].
  - cbn [orb]. specialize (IH (S k)). destruct (uuidFill random template (S k)) as [out k'].
    destruct IH as [Hout ->]. split; [|simpl; lia].
    constructor; [now apply uuidChar_x | exact Hout].
  - cbn [orb]. destruct (Ascii.eqb_spec c "y") as [->|Hy].
    + specialize (IH (S k)). destruct (uuidFill random template (S k)) as [out k'].
      destruct IH as [Hout ->]. split; [|simpl; lia].
      constructor; [now apply uuidChar_y | exact Hout].
    + specialize (IH k). destruct (uuidFill random template k) as [out k'].
      destruct IH as [Hout ->]. split; [|reflexivity].
      constructor; [|exact Hout].
      unfold fillsTemplate.
      destruct (Ascii.eqb_spec c "x"); [contradiction|].
      destruct (Ascii.eqb_spec c "y"); [contradiction | reflexivity].
Qed.

End UUID.

(** X20.  Every identifier [generateUUID] makes has the shape of its template:
    36 characters, the dashes and the 4 where the template has them, one
    of 8, 9, a, b in place of the y and a hexadecimal digit in place of
    each x.  It never fails, it draws 31 random values, and it leaves the
    stored data alone. *)
Theorem generateUUID_follows_template :
  forall (random : nat -> nat) (w : World),
    exists u,
      generateUUID random w = (Ok (string_of_list_ascii u), mkWorld (dados w) (drawn w + 31))
      /\ Forall2 fillsTemplate uuidTemplate u
      /\ length u = 36.
Proof.
  intros random w. unfold generateUUID. fold uuidTemplate.
  pose proof (uuidFill_spec random uuidTemplate (drawn w)) as H.
  destruct (uuidFill random uuidTemplate (drawn w)) as [out k]. destruct H as [Hout ->].
  exists out. split; [reflexivity|]. split; [exact Hout|].
  apply Forall2_length in Hout. rewrite <- Hout. reflexivity.
Qed.

Lemma split_nonempty sep s : split sep s <> [].
Proof.
  destruct s as [|c s]; simpl; [discriminate|].
  destruct (Ascii.eqb c sep); [discriminate|]. destruct (split sep s); discriminate.
Qed.

Lemma default_text text :
  nth 1 (split ":" ("DEFAULT:" ++ text)%string) "undefined" = upToColon text.
Proof.
  change (split ":" ("DEFAULT:" ++ text)%string) with ("DEFAULT" :: split ":" text).
  unfold upToColon. cbn [nth].
  pose proof (split_nonempty ":" text). now destruct (split ":" text).
Qed.

Section Defaults.

Variable random : nat -> nat.
Variable tableData : Tabela.t.

Lemma applyAutoColumn_default record columnName columnDef text w :
  Coluna.tipo columnDef = "texto" ->
  includes "AUTO_INCREMENT" (parseConstraints (Coluna.constraints columnDef)) = false ->
  defaultOf columnDef = Some ("DEFAULT:" ++ text)%string ->
  nullish (getv record columnName) = true ->
  applyAutoColumn random tableData record (columnName, columnDef) w
  = (Ok (set record columnName (VStr (upToColon text))), w).
Proof.
  unfold defaultOf. intros Htipo Hauto Hdefault Hnull.
  unfold applyAutoColumn, bindM, ret. cbv zeta.
  rewrite Hauto, Htipo, Hdefault. cbn [andb String.eqb Ascii.eqb Bool.eqb].
  rewrite Hnull, default_text. reflexivity.
Qed.

(** X21.  A text column with a DEFAULT that the candidate record leaves out,
    or supplies as null, gets the default, read back from the stored
    constraint: the text between [DEFAULT:] and the next colon, so a
    default that holds a colon itself is cut short there. *)
Theorem default_fills_absent_text_column :
  forall (record : Record_) (columnName : string) (columnDef : Coluna.t) (text : string)
         (w : World),
  wellFormed (Tabela.colunas tableData) ->
  In (columnName, columnDef) (Tabela.colunas tableData) ->
  Coluna.tipo columnDef = "texto" ->
  includes "AUTO_INCREMENT" (parseConstraints (Coluna.constraints columnDef)) = false ->
  defaultOf columnDef = Some ("DEFAULT:" ++ text)%string ->
  nullish (getv record columnName) = true ->
  match applyAutoValues random record tableData w with
  | (Ok record', _) => getv record' columnName = VStr (upToColon text)
  | (Err (OutsideModel _), _) => True
  | _ => False
  end.
Proof.
  intros record columnName columnDef text w. revert record w.
  unfold applyAutoValues, wellFormed.
  generalize (Tabela.colunas tableData) as columns. intros columns.
  induction columns as [|[c def] columns IH];
    intros record w Hwf Hin Htipo Hauto Hdefault Hnull; [destruct Hin|].
  simpl in Hwf. inversion Hwf as [|? ? Hfresh Hwf']; subst.
  rewrite forEachM_cons. unfold bindM.
  destruct Hin as [Heq|Hin].
  - injection Heq as -> ->.
    rewrite (applyAutoColumn_default record columnName columnDef text w) by assumption.
    pose proof (applyAutoValues_other random tableData columnName columns Hfresh
                  (set record columnName (VStr (upToColon text))) w) as Hrest.
    destruct (forEachM _ columns _ w) as [[record2|[]] w2]; try exact Hrest.
    rewrite Hrest, getv_set, String.eqb_refl. reflexivity.
  - pose proof (applyAutoColumn_spec random tableData record c def w) as Hc.
    destruct (applyAutoColumn random tableData record (c, def) w) as [[record1|[]] w1];
      try exact Hc.
    destruct Hc as [Hkeep _].
    assert (Hne : columnName <> c).
    { intros ->. apply Hfresh. apply in_map_iff. now exists (c, columnDef). }
    apply IH; auto. now rewrite (Hkeep _ Hne).
Qed.

End Defaults.

Lemma default_fills_absent_text_column_witness :
  let random := fun _ : nat => 0 in
  defaultOf (Coluna.mk "texto" "DEFAULT:12:30") = Some ("DEFAULT:" ++ "12:30")%string
  /\ upToColon "12:30" = "12"
  /\ fst (applyAutoValues random [("dia", VStr "seg")] agenda emptyWorld)
     = Ok [("dia", VStr "seg"); ("hora", VStr "12")].
Proof.
  intros random.
  assert (Hwf : wellFormed (Tabela.colunas agenda))
    by (repeat constructor; simpl; intuition discriminate).
  pose proof (default_fills_absent_text_column random agenda [("dia", VStr "seg")] "hora"
                (Coluna.mk "texto" "DEFAULT:12:30") "12:30" emptyWorld Hwf
                (or_introl eq_refl) eq_refl eq_refl eq_refl eq_refl) as H.
  split; [reflexivity|]. split; [reflexivity|].
  destruct (applyAutoValues random [("dia", VStr "seg")] agenda emptyWorld)
    as [[record'|[]] w'] eqn:Hrun; try contradiction.
  - vm_compute in Hrun. injection Hrun as <- _. reflexivity.
  - vm_compute in Hrun. discriminate Hrun.
Defined.

(* ------------------------------------------------------------------ *)
(** ** The storage manager *)

Lemma has_lookup {A} (o : obj A) k : has o k = false -> lookup o k = None.
Proof. unfold has. destruct (lookup o k); [discriminate | reflexivity]. Qed.

(** X22.  Creating a database that exists is refused and changes nothing.
    Creating one that does not exist stores an empty database under the
    name, with the time of creation, and touches no other database;
    after that the database exists, holds no table, and a second
    creation is refused. *)
Theorem createDatabase_once :
  forall (now later databaseName : string) (w : World),
    (has (dados w) databaseName = true ->
     createDatabase now databaseName w = (Ok (databaseExistsAlready databaseName), w))
    /\ (has (dados w) databaseName = false ->
        exists w1,
          createDatabase now databaseName w = (Ok (databaseCreated databaseName), w1)
          /\ lookup (dados w1) databaseName = Some (Banco.mk databaseName now [])
          /\ (forall other, other <> databaseName ->
                lookup (dados w1) other = lookup (dados w) other)
          /\ drawn w1 = drawn w
          /\ databaseExists databaseName w1 = (Ok true, w1)
          /\ listTables databaseName w1 = (Ok [], w1)
          /\ createDatabase later databaseName w1
             = (Ok (databaseExistsAlready databaseName), w1)).
Proof.
  intros now later databaseName w. unfold createDatabase, databaseExists, bindM. split.
  - intros ->. reflexivity.
  - intros Hnew. rewrite Hnew. cbn [saveDatabase ret].
    eexists. split; [reflexivity|]. cbn [dados drawn].
    assert (Hthere : lookup (set (dados w) databaseName (Banco.mk databaseName now []))
                       databaseName = Some (Banco.mk databaseName now []))
      by now rewrite lookup_set, String.eqb_refl.
    split; [exact Hthere|]. split; [|split; [reflexivity|]].
    + intros other Hother. rewrite lookup_set.
      destruct (String.eqb_spec databaseName other); [congruence | reflexivity].
    + unfold listTables, loadDatabase, bindM, has. cbn [dados]. rewrite Hthere.
      repeat split.
Qed.


(** X24.  [createTable] needs the database, refuses a table name that is
    taken, and changes nothing in either case.  A new table is stored
    with the columns of the statement, no record and the time of
    creation; the other tables of the database stay what they were, and
    the new name is among the tables the database lists. *)
Theorem createTable_stores_empty_table :
  forall (now databaseName tableName : string) (columnDefinitions : list ColumnDefinition.t)
         (tableConstraints : list TableConstraint.t) (w : World),
    (lookup (dados w) databaseName = None ->
     createTable now databaseName tableName columnDefinitions tableConstraints w
     = (Err (Thrown ("Banco '" ++ databaseName ++ "' não encontrado")), w))
    /\ (forall old, tableAt w databaseName tableName = Some old ->
        createTable now databaseName tableName columnDefinitions tableConstraints w
        = (Ok (tableExistsAlready tableName), w))
    /\ (forall db columns,
          lookup (dados w) databaseName = Some db ->
          lookup (Banco.tabelas db) tableName = None ->
          buildColumns columnDefinitions [] = Ok columns ->
          exists w',
            createTable now databaseName tableName columnDefinitions tableConstraints w
            = (Ok (tableCreated tableName), w')
            /\ tableAt w' databaseName tableName
               = Some (Tabela.mk now columns [] (storedConstraints tableConstraints))
            /\ (forall otherTable, otherTable <> tableName ->
                  tableAt w' databaseName otherTable = tableAt w databaseName otherTable)
            /\ (exists tables,
                  listTables databaseName w' = (Ok tables, w') /\ In tableName tables)).
Proof.
  intros now databaseName tableName columnDefinitions tableConstraints w.
  unfold createTable, loadDatabase, bindM, raise, throw. split; [|split].
  - intros ->. reflexivity.
  - unfold tableAt. intros old Hold.
    destruct (lookup (dados w) databaseName) as [db|]; [|discriminate Hold].
    unfold has. now rewrite Hold.
  - intros db columns Hdb Hnew Hcolumns. rewrite Hdb. unfold has. rewrite Hnew.
    unfold lift. rewrite Hcolumns. cbn [saveDatabase ret].
    eexists. split; [reflexivity|]. unfold tableAt, listTables, loadDatabase, bindM.
    cbn [dados]. rewrite lookup_set, String.eqb_refl. cbn [Banco.tabelas].
    split; [|split].
    + now rewrite lookup_set, String.eqb_refl.
    + intros otherTable Hother. rewrite Hdb, lookup_set.
      destruct (String.eqb_spec tableName otherTable); [congruence | reflexivity].
    + eexists. split; [reflexivity|]. apply has_true_iff. unfold has.
      now rewrite lookup_set, String.eqb_refl.
Qed.

(** X25.  The executor hands [createTable] the columns of the statement and
    nothing else, so a table created by a statement never carries table
    constraints: a FOREIGN KEY clause, or a PRIMARY KEY or UNIQUE clause
    after the columns, is parsed and then dropped. *)
Theorem executeCreateTable_drops_table_constraints :
  forall (now : string) (currentDatabase : option string) (tableName : string)
         (columns : list ColumnDefinition.t) (tableConstraints : list TableConstraint.t)
         (w w' : World) (reply : Resposta.t),
    execute now currentDatabase (One (CreateTableStatement tableName columns tableConstraints)) w
    = (Ok reply, w') ->
    Resposta.sucesso reply = true ->
    exists databaseName tableData,
      currentDatabase = Some databaseName
      /\ tableAt w' databaseName tableName = Some tableData
      /\ Tabela.constraints tableData = None
      /\ Tabela.registros tableData = [].
Proof.
  intros now currentDatabase tableName columns tableConstraints w w' reply Hrun Hok.
  unfold execute, catching, executeCreateTable, bindM in Hrun.
  unfold selectedDatabase in Hrun.
  destruct currentDatabase as [databaseName|]; cbn [present orElse] in Hrun.
  2:{ cbn in Hrun. inversion Hrun; subst. discriminate Hok. }
  destruct (databaseName =? "") eqn:Hname; cbn [negb] in Hrun.
  { cbn in Hrun. inversion Hrun; subst. discriminate Hok. }
  cbn [ret] in Hrun.
  unfold createTable, loadDatabase, bindM, raise, throw, lift, has in Hrun.
  destruct (lookup (dados w) databaseName) as [db|] eqn:Hdb.
  2:{ inversion Hrun; subst. discriminate Hok. }
  destruct (lookup (Banco.tabelas db) tableName) as [old|] eqn:Hold.
  { inversion Hrun; subst. discriminate Hok. }
  destruct (buildColumns columns []) as [stored|e] eqn:Hcolumns.
  - cbn [saveDatabase ret] in Hrun. inversion Hrun; subst.
    exists databaseName. eexists. split; [reflexivity|].
    unfold tableAt. cbn [dados]. rewrite lookup_set, String.eqb_refl. cbn [Banco.tabelas].
    rewrite lookup_set, String.eqb_refl. repeat split.
  - destruct e; inversion Hrun; subst; discriminate Hok.
Qed.

Lemma executeCreateTable_drops_table_constraints_witness :
  parseText postsWithForeignKey = Ok (One postsStatement)
  /\ exists tableData,
       tableAt (snd (execute "2024" (Some "blog") (One postsStatement) emptyBlog))
         "blog" "posts" = Some tableData
       /\ Tabela.constraints tableData = None.
Proof.
  split; [vm_compute; reflexivity|].
  assert (Hfst : fst (execute "2024" (Some "blog") (One postsStatement) emptyBlog)
                 = Ok (tableCreated "posts")) by (vm_compute; reflexivity).
  pose proof (surjective_pairing (execute "2024" (Some "blog") (One postsStatement) emptyBlog))
    as Hrun.
  rewrite Hfst in Hrun.
  destruct (executeCreateTable_drops_table_constraints _ _ _ _ _ _ _ _ Hrun eq_refl)
    as (databaseName & tableData & Hname & Htable & Hnone & _).
  injection Hname as <-. exists tableData. split; [exact Htable | exact Hnone].
Defined.

(* ------------------------------------------------------------------ *)

Section StoredData.

Variable random : nat -> nat.

Lemma keepsData_ret {A} (a : A) : keepsData (ret a).
Proof. intros w. reflexivity. Qed.

Lemma keepsData_lift {A} (r : result A) : keepsData (lift r).
Proof. intros w. reflexivity. Qed.

Lemma keepsData_bind {A B} (m : M A) (k : A -> M B) :
  keepsData m -> (forall a, keepsData (k a)) -> keepsData (bindM m k).
Proof.
  intros Hm Hk w. unfold bindM. specialize (Hm w).
  destruct (m w) as [[a|e] w1]; simpl in *; [|exact Hm].
  rewrite <- Hm. apply Hk.
Qed.

Lemma keepsData_forEachM {A S} (body : S -> A -> M S) l :
  (forall s a, keepsData (body s a)) -> forall s, keepsData (forEachM body l s).
Proof.
  intros Hbody. induction l as [|a l IH]; intros s; [apply keepsData_ret|].
  cbn [forEachM]. apply keepsData_bind; [apply Hbody | exact IH].
Qed.

Lemma keepsData_generateUUID : keepsData (generateUUID random).
Proof.
  intros w. unfold generateUUID. now destruct (uuidFill random _ (drawn w)).
Qed.

Lemma keepsData_parseDefaultValue defaultValue type :
  keepsData (parseDefaultValue random defaultValue type).
Proof.
  unfold parseDefaultValue.
  repeat match goal with
         | |- keepsData (if ?b then _ else _) => destruct b
         end;
    repeat first [ apply keepsData_lift | apply keepsData_ret | apply keepsData_generateUUID
                 | apply keepsData_bind; [|intros] ].
Qed.

Lemma keepsData_applyAutoValues record tableData :
  keepsData (applyAutoValues random record tableData).
Proof.
  unfold applyAutoValues. apply keepsData_forEachM. intros s [columnName columnDef].
  unfold applyAutoColumn. cbv zeta.
  apply keepsData_bind.
  - destruct (_ && _);
      repeat first [ apply keepsData_ret | apply keepsData_generateUUID
                   | apply keepsData_bind; [|intros] ].
  - intros record2. destruct (find _ _); [|apply keepsData_ret].
    destruct (nullish _); [|apply keepsData_ret].
    apply keepsData_bind; [apply keepsData_parseDefaultValue | intros; apply keepsData_ret].
Qed.

End StoredData.

Section Validation.

Variable random : nat -> nat.
Variables databaseName tableName : string.

Lemma readOnly_checkDuplicateValue columnName value :
  readOnly (checkDuplicateValue databaseName tableName columnName value).
Proof.
  unfold checkDuplicateValue.
  apply readOnly_bind; [apply readOnly_loadTable | intros [t|]; apply readOnly_ret].
Qed.

Lemma readOnly_validateColumn record errors entry :
  readOnly (validateColumn databaseName tableName record errors entry).
Proof.
  destruct entry as [columnName columnDef]. unfold validateColumn. cbv zeta.
  apply readOnly_bind.
  - destruct (includes "PRIMARY_KEY" _); [|apply readOnly_ret].
    destruct (nullish _); [apply readOnly_ret|].
    apply readOnly_bind; [apply readOnly_checkDuplicateValue | intros [|]; apply readOnly_ret].
  - intros errors2. destruct (_ && _); [|apply readOnly_ret].
    apply readOnly_bind; [apply readOnly_checkDuplicateValue | intros [|]; apply readOnly_ret].
Qed.

Lemma readOnly_validateTableConstraint record errors constraint :
  readOnly (validateTableConstraint databaseName record errors constraint).
Proof.
  unfold validateTableConstraint.
  destruct (_ =? "FOREIGN_KEY"); [|apply readOnly_ret].
  cbv zeta. destruct (negb _); [|apply readOnly_ret].
  destruct (match TableConstraint.options constraint with Some p => p | None => _ end)
    as [referencedTable referencedColumn].
  apply readOnly_bind; [|intros [|]; apply readOnly_ret].
  unfold validateForeignKey. destruct (nullish _); [apply readOnly_ret|].
  apply readOnly_bind; [apply readOnly_loadTable | intros [t|]; apply readOnly_ret].
Qed.

(** Validation reads the store and writes nothing; the record it
    returns is the candidate with the generated values filled in. *)
Lemma validateInsert_spec record tableData w :
  match validateInsert random databaseName tableName record tableData w with
  | (Ok (errors, record'), w1) =>
      applyAutoValues random record tableData w = (Ok record', w1)
  | (Err _, w1) => dados w1 = dados w
  end.
Proof.
  unfold validateInsert, bindM.
  pose proof (keepsData_applyAutoValues random record tableData w) as Hdata.
  destruct (applyAutoValues random record tableData w) as [[record'|e] w1]; [|exact Hdata].
  cbn [snd] in Hdata.
  pose proof (readOnly_forEachM (validateColumn databaseName tableName record')
                (Tabela.colunas tableData)
                (fun s a => readOnly_validateColumn record' s a) [] w1) as Hcols.
  destruct (forEachM (validateColumn databaseName tableName record') _ [] w1)
    as [[errors|e] w2]; cbn [snd] in Hcols; subst w2; [|exact Hdata].
  destruct (Tabela.constraints tableData) as [constraints|]; [|reflexivity].
  pose proof (readOnly_forEachM (validateTableConstraint databaseName record')
                constraints
                (fun s a => readOnly_validateTableConstraint record' s a) errors w1) as Hfk.
  destruct (forEachM (validateTableConstraint databaseName record') constraints errors w1)
    as [[errors'|e] w2]; cbn [snd] in Hfk; subst w2; [reflexivity | exact Hdata].
Qed.

End Validation.

Lemma tableAt_same_data w1 w2 databaseName tableName :
  dados w1 = dados w2 -> tableAt w1 databaseName tableName = tableAt w2 databaseName tableName.
Proof. unfold tableAt. now intros ->. Qed.

(** X26.  [StorageManager.insertRecord] stores the candidate record or leaves
    the stored data untouched.  When it raises, be it for a missing
    table or for a violated constraint, no database has changed.  When
    it returns, the candidate passed the validation with no error and
    sits, with the generated values filled in, under the key [reg_]
    followed by the number of records plus one. *)
Theorem insertRecord_all_or_nothing :
  forall (random : nat -> nat) (databaseName tableName : string) (record : Record_)
         (w : World),
    match insertRecord random databaseName tableName record w with
    | (Ok reply, w') =>
        reply = recordInserted tableName
        /\ exists tableData record' w1,
             tableAt w databaseName tableName = Some tableData
             /\ validateInsert random databaseName tableName record tableData w
                = (Ok ([], record'), w1)
             /\ applyAutoValues random record tableData w = (Ok record', w1)
             /\ tableAt w' databaseName tableName
                = Some (Tabela.withRegistros
                          (set (Tabela.registros tableData)
                             (regKey (length (Tabela.registros tableData) + 1)) record')
                          tableData)
    | (Err _, w') => dados w' = dados w
    end.
Proof.
  intros random databaseName tableName record w.
  unfold insertRecord, bindM. rewrite run_loadTable.
  destruct (tableAt w databaseName tableName) as [tableData|] eqn:Htable; [|reflexivity].
  pose proof (validateInsert_spec random databaseName tableName record tableData w) as Hv.
  destruct (validateInsert random databaseName tableName record tableData w)
    as [[[errors record']|e] w1] eqn:Hrun; [|exact Hv].
  assert (Hdata : dados w1 = dados w).
  { pose proof (keepsData_applyAutoValues random record tableData w) as H.
    now rewrite Hv in H. }
  destruct errors as [|message errors]; [|exact Hdata].
  assert (Htable1 : tableAt w1 databaseName tableName = Some tableData)
    by now rewrite (tableAt_same_data w1 w _ _ Hdata).
  match goal with
  | |- context [saveTable _ _ ?t w1] =>
      destruct (run_saveTable databaseName tableName w1 tableData t Htable1)
        as (w' & -> & Hw')
  end.
  cbn [ret]. split; [reflexivity|].
  exists tableData, record', w1. repeat split; try assumption.
  rewrite Hw'. unfold nextRecordKey, regKey, keys. now rewrite length_map.
Qed.

Section Violations.

Variables databaseName tableName : string.
Variable tableData : Tabela.t.
Variable w : World.
Hypothesis stored : tableAt w databaseName tableName = Some tableData.

Lemma run_checkDuplicateValue columnName value :
  checkDuplicateValue databaseName tableName columnName value w
  = (Ok (someRecordHas (Tabela.registros tableData) columnName value), w).
Proof.
  unfold checkDuplicateValue, bindM. now rewrite run_loadTable, stored.
Qed.

Lemma validateColumn_appends record errors columnName columnDef :
  exists added,
    validateColumn databaseName tableName record errors (columnName, columnDef) w
    = (Ok (errors ++ added), w)
    /\ (violates tableData columnName columnDef (getv record columnName) = true ->
        added <> []).
Proof.
  unfold validateColumn, violates. cbv zeta.
  set (value := getv record columnName).
  set (constraints := parseConstraints (Coluna.constraints columnDef)).
  pose proof (run_checkDuplicateValue columnName value) as Hdup.
  destruct (includes "NOT_NULL" constraints), (includes "PRIMARY_KEY" constraints),
    (includes "UNIQUE" constraints), (nullish value),
    (someRecordHas (Tabela.registros tableData) columnName value);
    cbn [andb orb negb]; cbv beta iota delta [bindM ret];
    repeat (rewrite Hdup; cbv beta iota);
    rewrite <- ?app_assoc;
    try (eexists; split; [reflexivity | intros _; discriminate]);
    exists []; (split; [now rewrite app_nil_r | discriminate]).
Qed.

Lemma validateColumns_append record columns :
  forall errors,
    exists added,
      forEachM (validateColumn databaseName tableName record) columns errors w
      = (Ok (errors ++ added), w)
      /\ (forall columnName columnDef,
            In (columnName, columnDef) columns ->
            violates tableData columnName columnDef (getv record columnName) = true ->
            added <> []).
Proof.
  induction columns as [|[c def] columns IH]; intros errors.
  - exists []. split; [simpl; now rewrite app_nil_r | intros ? ? []].
  - rewrite forEachM_cons. unfold bindM.
    destruct (validateColumn_appends record errors c def) as (here & -> & Hhere).
    destruct (IH (errors ++ here)) as (later & -> & Hlater).
    exists (here ++ later). split; [now rewrite app_assoc|].
    intros columnName columnDef [Heq|Hin] Hbad.
    + injection Heq as <- <-. specialize (Hhere Hbad). now destruct here.
    + specialize (Hlater _ _ Hin Hbad). destruct later; [congruence | now destruct here].
Qed.

Lemma validateTableConstraints_append record constraints :
  forall errors,
    exists added,
      forEachM (validateTableConstraint databaseName record) constraints errors w
      = (Ok (errors ++ added), w).
Proof.
  induction constraints as [|constraint constraints IH]; intros errors.
  - exists []. simpl. now rewrite app_nil_r.
  - rewrite forEachM_cons. unfold bindM.
    assert (Hone : exists here,
              validateTableConstraint databaseName record errors constraint w
              = (Ok (errors ++ here), w)).
    { unfold validateTableConstraint.
      destruct (_ =? "FOREIGN_KEY"); [|exists []; now rewrite app_nil_r].
      cbv zeta. destruct (negb _); [|exists []; now rewrite app_nil_r].
      destruct (match TableConstraint.options constraint with Some p => p | None => _ end)
        as [referencedTable referencedColumn].
      unfold bindM, validateForeignKey.
      destruct (nullish _); [exists []; cbn; now rewrite app_nil_r|].
      unfold bindM. rewrite run_loadTable.
      destruct (tableAt w databaseName referencedTable) as [t|]; cbn [ret].
      - destruct (someRecordHas _ _ _); [exists []; now rewrite app_nil_r|].
        eexists. reflexivity.
      - eexists. reflexivity. }
    destruct Hone as (here & ->).
    destruct (IH (errors ++ here)) as (later & ->).
    exists (here ++ later). now rewrite app_assoc.
Qed.

End Violations.

(** X27.  The storage manager enforces the column constraints.  When, once
    the generated values are filled in, some column of the candidate
    holds null although it is NOT NULL or the PRIMARY KEY, or holds a
    value a stored record already has although it is the PRIMARY KEY or
    UNIQUE, [insertRecord] raises the error of the violated constraints
    and the stored data are left as they were. *)
Theorem insertRecord_refuses_violations :
  forall (random : nat -> nat) (databaseName tableName : string) (tableData : Tabela.t)
         (record record' : Record_) (columnName : string) (columnDef : Coluna.t)
         (w w1 : World),
    tableAt w databaseName tableName = Some tableData ->
    applyAutoValues random record tableData w = (Ok record', w1) ->
    In (columnName, columnDef) (Tabela.colunas tableData) ->
    violates tableData columnName columnDef (getv record' columnName) = true ->
    exists message errors,
      insertRecord random databaseName tableName record w
      = (Err (Thrown ("Violação de constraints: " ++ join ", " (message :: errors))), w1)
      /\ dados w1 = dados w.
Proof.
  intros random databaseName tableName tableData record record' columnName columnDef w w1
         Htable Hauto Hin Hbad.
  assert (Hdata : dados w1 = dados w).
  { pose proof (keepsData_applyAutoValues random record tableData w) as H.
    now rewrite Hauto in H. }
  assert (Htable1 : tableAt w1 databaseName tableName = Some tableData)
    by now rewrite (tableAt_same_data w1 w _ _ Hdata).
  unfold insertRecord, bindM. rewrite run_loadTable, Htable.
  unfold validateInsert, bindM. rewrite Hauto.
  destruct (validateColumns_append databaseName tableName tableData w1 Htable1 record'
              (Tabela.colunas tableData) []) as (found & -> & Hfound).
  specialize (Hfound columnName columnDef Hin Hbad). cbn [app].
  destruct found as [|message found]; [congruence|].
  destruct (Tabela.constraints tableData) as [constraints|].
  - destruct (validateTableConstraints_append databaseName w1 record' constraints
                (message :: found)) as (more & ->).
    cbn [ret app]. exists message, (found ++ more). split; [reflexivity | exact Hdata].
  - cbn [ret]. exists message, found. split; [reflexivity | exact Hdata].
Qed.

Lemma insertRecord_refuses_violations_witness :
  let random := fun _ : nat => 0 in
  let record : Record_ := [("id", VNum 1); ("nome", VStr "caio")] in
  let idColumn := Coluna.mk "numero" "AUTO_INCREMENT,PRIMARY_KEY" in
  violates (usersTable random) "id" idColumn (VNum 1) = true
  /\ exists message errors,
       insertRecord random "app" "usuarios" record (afterSecondInsert random)
       = (Err (Thrown ("Violação de constraints: " ++ join ", " (message :: errors))),
          afterSecondInsert random).
Proof.
  intros random record idColumn.
  assert (Hbad : violates (usersTable random) "id" idColumn (getv record "id") = true)
    by (vm_compute; reflexivity).
  assert (Htable : tableAt (afterSecondInsert random) "app" "usuarios"
                   = Some (usersTable random)) by (vm_compute; reflexivity).
  assert (Hauto : applyAutoValues random record (usersTable random) (afterSecondInsert random)
                  = (Ok record, afterSecondInsert random)) by (vm_compute; reflexivity).
  assert (Hin : In ("id", idColumn) (Tabela.colunas (usersTable random)))
    by (vm_compute; now left).
  destruct (insertRecord_refuses_violations random "app" "usuarios" (usersTable random)
              record record "id" idColumn (afterSecondInsert random)
              (afterSecondInsert random) Htable Hauto Hin Hbad)
    as (message & errors & Hrun & _).
  split; [exact Hbad|]. exists message, errors. exact Hrun.
Defined.

(* ------------------------------------------------------------------ *)

(** X28.  A DELETE without WHERE removes every record: the table is left
    with no record, and the reply counts the records it had. *)
Theorem delete_without_where_empties_table :
  forall (databaseName tableName : string) (tableData : Tabela.t) (w : World),
    databaseName <> "" ->
    tableAt w databaseName tableName = Some tableData ->
    exists w',
      executeDelete (Some databaseName) tableName None w
      = (Ok (recordsRemoved (length (Tabela.registros tableData)) tableName), w')
      /\ tableAt w' databaseName tableName = Some (Tabela.withRegistros [] tableData).
Proof.
  intros databaseName tableName tableData w Hname Htable.
  unfold executeDelete, bindM.
  rewrite (run_selectedDatabase databaseName Hname), (run_requireTable _ _ _ _ Htable).
  unfold lift. rewrite deleteRecords_all.
  destruct (run_saveTable databaseName tableName w tableData
              (Tabela.withRegistros [] tableData) Htable) as (w' & -> & Hw').
  exists w'. split; [reflexivity | exact Hw'].
Qed.

Lemma delete_without_where_empties_table_witness :
  exists w',
    executeDelete (Some "loja") "itens" None threeItems = (Ok (recordsRemoved 3 "itens"), w')
    /\ storedItems w' = Some [].
Proof.
  assert (Hname : "loja" <> "") by discriminate.
  assert (Htable : tableAt threeItems "loja" "itens" = Some itemsTable)
    by (vm_compute; reflexivity).
  assert (Hcount : length (Tabela.registros itemsTable) = 3) by (vm_compute; reflexivity).
  destruct (delete_without_where_empties_table "loja" "itens" itemsTable threeItems
              Hname Htable) as (w' & Hrun & Hw').
  rewrite Hcount in Hrun. exists w'. split; [exact Hrun|].
  unfold storedItems. rewrite Hw'. reflexivity.
Defined.

(* ------------------------------------------------------------------ *)

Section ForeignKeys.

Variable databaseName : string.
Variable w : World.



End ForeignKeys.


